(** * fiducial_vlam: pose estimation and map update

    A shallow embedding of [fiducial_math.cpp] (the geometric solver
    [CvFiducialMath], the factor-graph solver [SamFiducialMath] and the
    dispatcher [FiducialMath]) and of [vmap_node.cpp] (the map
    initialisation and the observations callback of [VmapNode]).

    C++ [double] values are Rocq's primitive binary64 floats.  The numerical
    routines of OpenCV, GTSAM and tf2 are not part of the repository: they are
    the fields of the class [External], and every theorem holds whatever they
    compute.  Calls to the solvers are recorded in a trace, exceptions and
    undefined behaviour are results of type [Res]. *)

From Stdlib Require Import ZArith Floats List Lia Bool.
From Stdlib Require String.
From stdpp Require Import base option list gmap sorting.
Import ListNotations.
Import String.StringSyntax.

Local Open Scope Z_scope.

(* ====================================================================== *)
(** ** Numbers and small geometric data *)
(* ====================================================================== *)

Abbreviation double := float.

Definition dzero : double := 0%float.
Definition dhalf : double := 0.5%float.

(** [tf2::Vector3], [cv::Vec3d], [cv::Point3d], [gtsam::Point3]: three doubles. *)
Record Vector3 := mkV3 { vx : double; vy : double; vz : double }.

(** [cv::Point2f] and [gtsam::Point2]: two coordinates. *)
Record Point2 := mkP2 { px : double; py : double }.

(** [tf2::Matrix3x3], row by row. *)
Record Matrix3x3 := mkM3 { m_row0 : Vector3; m_row1 : Vector3; m_row2 : Vector3 }.

(** [tf2::Quaternion], in tf2's order x, y, z, w. *)
Record Quaternion := mkQuat { qx : double; qy : double; qz : double; qw : double }.

(** [tf2::Transform]: a basis and an origin. *)
Record Transform := mkTransform { getBasis : Matrix3x3; getOrigin : Vector3 }.

Definition Vector3_zero : Vector3 := mkV3 dzero dzero dzero.
Definition Matrix3x3_zero : Matrix3x3 := mkM3 Vector3_zero Vector3_zero Vector3_zero.
Definition Transform_zero : Transform := mkTransform Matrix3x3_zero Vector3_zero.

(** [int] is 32 bits wide; arithmetic on it wraps. *)
Definition INT_MAX : Z := 2147483647.
Definition wrap_int (z : Z) : Z := (z + 2 ^ 31) mod 2 ^ 32 - 2 ^ 31.

(** [static_cast<std::uint64_t>] of an [int]. *)
Definition to_uint64 (z : Z) : Z := z mod 2 ^ 64.

(* ====================================================================== *)
(** ** Covariances *)
(* ====================================================================== *)

(** [TransformWithCovariance::cov_type] is [std::array<double, 36>], row-major
    over (x, y, z, roll, pitch, yaw). *)
Definition cov_type := list double.

Definition cov_zero : cov_type := repeat dzero 36.

(** [cov[i]] *)
Definition cov_at (cov : cov_type) (i : nat) : double := nth i cov dzero.

(** [gtsam::Matrix6] is an Eigen 6x6 matrix of doubles, stored column by column. *)
Definition Matrix6 := list double.

Definition Matrix6_get (M : Matrix6) (r c : nat) : double := nth (c * 6 + r) M dzero.

Definition Matrix6_set (M : Matrix6) (r c : nat) (v : double) : Matrix6 :=
  <[(c * 6 + r)%nat := v]> M.

(** The table [static int ro[] = {3, 4, 5, 0, 1, 2}] of both conversions. *)
Definition ro : list nat := [3; 4; 5; 0; 1; 2]%nat.
Definition ro_at (i : nat) : nat := nth i ro 0%nat.

(** The two nested loops [for r in 0..5, for c in 0..5] of [to_cov_sam], writing
    into the matrix [M0]. *)
Definition to_cov_sam_into (M0 : Matrix6) (cov : cov_type) : Matrix6 :=
  fold_left
    (fun M r =>
       fold_left
         (fun M c => Matrix6_set M (ro_at r) (ro_at c) (cov_at cov (r * 6 + c)))
         (seq 0 6) M)
    (seq 0 6) M0.

(** [SamFiducialMath::to_cov_sam].  The local [gtsam::Matrix6 cov_sam] is not
    initialised by the source; the loops assign each of its 36 entries (see
    [to_cov_sam_into_any]), so its initial content is taken to be zero. *)
Definition to_cov_sam (cov : cov_type) : Matrix6 := to_cov_sam_into (repeat dzero 36) cov.

(** The loops of [to_cov_type], writing into the array [cov0]. *)
Definition to_cov_type_into (cov0 : cov_type) (cov_sam : Matrix6) : cov_type :=
  fold_left
    (fun cov r =>
       fold_left
         (fun cov c => <[(r * 6 + c)%nat := Matrix6_get cov_sam (ro_at r) (ro_at c)]> cov)
         (seq 0 6) cov)
    (seq 0 6) cov0.

(** The conversion of [to_cov_type]: the loops assign each of the 36 entries of
    the local array [cov], whose initial content is taken to be zero. *)
Definition to_cov_type_of (cov_sam : Matrix6) : cov_type :=
  to_cov_type_into (repeat dzero 36) cov_sam.

(* ====================================================================== *)
(** ** GTSAM data: poses, keys, noise models, factors, values *)
(* ====================================================================== *)

(** [gtsam::Rot3], in GTSAM's default matrix representation. *)
Record Rot3 := mkRot3 { rot_matrix : Matrix3x3 }.

Record Pose3 := mkPose3 { rotation : Rot3; translation : Vector3 }.

(** [gtsam::Symbol(c, j)]: a character and an index.  GTSAM packs the two in a
    64-bit [Key]; the pair is kept here, which tells two keys apart as the
    packing does when the index is below 2^56.  What GTSAM makes of a larger
    index, such as the one that a negative marker id gives, is not modelled. *)
Definition Key : Type := Z * Z.
Definition Symbol (c : Z) (j : Z) : Key := (c, j).
Definition chr_c : Z := 99.   (* 'c' *)
Definition chr_m : Z := 109.  (* 'm' *)

(** [gtsam::Cal3DS2]: fx, fy, s, u0, v0, k1, k2, p1, p2. *)
Record Cal3DS2 := mkCal3DS2 {
  cal_fx : double; cal_fy : double; cal_s : double; cal_u0 : double; cal_v0 : double;
  cal_k1 : double; cal_k2 : double; cal_p1 : double; cal_p2 : double }.

Inductive NoiseModel :=
| Diagonal_Sigmas (sigmas : list double)
| Gaussian_Covariance (covariance : Matrix6)
| Constrained_MixedSigmas (sigmas : list double).

(** [gtsam::Z_6x1] *)
Definition Z_6x1 : list double := repeat dzero 6.

(** The three kinds of factor the source puts in a graph. *)
Inductive Factor :=
| ResectioningFactor (model : NoiseModel) (key : Key) (cal3ds2 : Cal3DS2) (p : Point2) (P : Vector3)
| BetweenFactor (key1 key2 : Key) (measured : Pose3) (model : NoiseModel)
| PriorFactor (key : Key) (prior : Pose3) (model : NoiseModel).

Abbreviation NonlinearFactorGraph := (list Factor).

(** [gtsam::Values], holding poses only. *)
Abbreviation Values := (gmap Key Pose3).

Definition is_resectioning (f : Factor) : bool :=
  match f with ResectioningFactor _ _ _ _ _ => true | _ => false end.

(* ====================================================================== *)
(** ** Transforms with covariance, markers, maps, observations *)
(* ====================================================================== *)

(** Modelled from the spec: [TransformWithCovariance] (transform_with_covariance.hpp
    is not among the sources): a rigid transform, a 36-entry covariance and a
    validity flag.  A default-constructed value is invalid; a value constructed
    from a transform is valid and has the zero covariance. *)
Record TransformWithCovariance := mkTWC {
  is_valid : bool;
  transform : Transform;
  cov : cov_type }.

Definition TWC_default : TransformWithCovariance := mkTWC false Transform_zero cov_zero.

Definition TWC_of_transform (t : Transform) : TransformWithCovariance :=
  mkTWC true t cov_zero.

Definition TWC_of_transform_cov (t : Transform) (c : cov_type) : TransformWithCovariance :=
  mkTWC true t c.

(** Modelled from the spec: [Marker] (map.hpp is not among the sources):
    [{id, t_map_marker, update_count, is_fixed}].  A marker constructed from an
    id and a pose is not fixed and has been updated once. *)
Record Marker := mkMarker {
  marker_id : Z;
  t_map_marker : TransformWithCovariance;
  is_fixed : bool;
  update_count : Z }.

Definition Marker_new (i : Z) (t : TransformWithCovariance) : Marker :=
  mkMarker i t false 1.

Definition set_t_map_marker (t : TransformWithCovariance) (m : Marker) : Marker :=
  mkMarker (marker_id m) t (is_fixed m) (update_count m).

Definition set_update_count (u : Z) (m : Marker) : Marker :=
  mkMarker (marker_id m) (t_map_marker m) (is_fixed m) u.

Definition set_is_fixed (f : bool) (m : Marker) : Marker :=
  mkMarker (marker_id m) (t_map_marker m) f (update_count m).

(** [Map::MapStyles], numbered as in Map.msg.  [other_style z] is the value that
    a [static_cast] makes of an integer [z] that is none of the three. *)
Inductive MapStyles := pose | covariance | corners | other_style (z : Z).

Definition MapStyles_eqb (a b : MapStyles) : bool :=
  match a, b with
  | pose, pose | covariance, covariance | corners, corners => true
  | other_style x, other_style y => x =? y
  | _, _ => false
  end.

Definition MapStyles_to_int (s : MapStyles) : Z :=
  match s with pose => 0 | covariance => 1 | corners => 2 | other_style z => z end.

(** Modelled from the spec: [Map] (map.hpp and map.cpp are not among the
    sources): the markers by id ([std::map<int, Marker>]), the marker length and
    the map style. *)
Record Map := mkMap {
  map_style : MapStyles;
  marker_length : double;
  markers : gmap Z Marker }.

Definition Map_new (s : MapStyles) (l : double) : Map := mkMap s l ∅.

Definition set_markers (ms : gmap Z Marker) (m : Map) : Map :=
  mkMap (map_style m) (marker_length m) ms.

(** Modelled from the spec: [Map::find_marker], the marker of that id if any. *)
Definition Map_find_marker (m : Map) (i : Z) : option Marker := markers m !! i.

(** Modelled from the spec: [Map::add_marker] inserts under the marker's id and
    rejects an id that is present; the callers in the source ignore what it
    returns, so a rejected insertion leaves the map as it was. *)
Definition Map_add_marker (mk : Marker) (m : Map) : Map :=
  match markers m !! marker_id mk with
  | Some _ => m
  | None => set_markers (<[marker_id mk := mk]> (markers m)) m
  end.

(** Writing through the pointer that [find_marker] returned. *)
Definition Map_update_marker (i : Z) (f : Marker -> Marker) (m : Map) : Map :=
  set_markers (alter f i (markers m)) m.

(** Modelled from the spec: [Observation] (observation.hpp is not among the
    sources): a marker id and four image corners. *)
Record Observation := mkObservation {
  obs_id : Z;
  x0 : double; y0 : double;
  x1 : double; y1 : double;
  x2 : double; y2 : double;
  x3 : double; y3 : double }.

Abbreviation Observations := (list Observation).

(** Modelled from the spec: [Map::find_t_map_markers], for each observation the
    map pose of its marker if known, else an invalid pose, in the order of the
    observations. *)
Definition Map_find_t_map_markers (m : Map) (observations : Observations)
  : list TransformWithCovariance :=
  map (fun o => match Map_find_marker m (obs_id o) with
                | Some mk => t_map_marker mk
                | None => TWC_default
                end) observations.

(** [CameraInfo::CvCameraInfo]: the 3x3 camera matrix, row-major, and the five
    distortion coefficients. *)
Record CvCameraInfo := mkCvCameraInfo {
  camera_matrix : list double;
  dist_coeffs : list double }.

(** [sensor_msgs::msg::CameraInfo], the fields the source reads. *)
Record CameraInfoMsg := mkCameraInfoMsg { msg_k : list double; msg_d : list double }.

(** [msg.k[i]]: [k] is a [std::array] of nine doubles, which cannot be read
    out of range by the indices of the source. *)
Definition msg_at (l : list double) (i : nat) : double := nth i l dzero.

Definition camera_matrix_at (ci : CvCameraInfo) (r c : nat) : double :=
  nth (r * 3 + c) (camera_matrix ci) dzero.

Definition dist_coeffs_at (ci : CvCameraInfo) (i : nat) : double :=
  nth i (dist_coeffs ci) dzero.

(* ====================================================================== *)
(** ** The libraries the source calls *)
(* ====================================================================== *)

(** What OpenCV, GTSAM, tf2 and the C++ language compute.  [gtsam_optimize] and
    [gtsam_marginalCovariance] answer [None] when GTSAM throws.  The last field
    is code of the repository that is not among the sources
    ([TransformWithCovariance::update_simple_average]). *)
Class External := {
  static_cast_float : double -> double;
  tf2_mul : Transform -> Transform -> Transform;
  tf2_inverse : Transform -> Transform;
  tf2_apply : Transform -> Vector3 -> Vector3;
  tf2_getRotation : Transform -> Quaternion;
  tf2_of_quaternion : Quaternion -> Vector3 -> Transform;
  cv_solvePnP : list Vector3 -> list Point2 -> CvCameraInfo -> Vector3 * Vector3;
  cv_solvePnPRansac : list Vector3 -> list Point2 -> CvCameraInfo -> Vector3 * Vector3;
  cv_Rodrigues : Vector3 -> Matrix3x3;
  gtsam_Rot3 : double -> double -> double -> double -> Rot3;
  gtsam_toQuaternion : Rot3 -> Quaternion;
  gtsam_optimize : NonlinearFactorGraph -> Values -> option Values;
  gtsam_marginalCovariance : NonlinearFactorGraph -> Values -> Key -> option Matrix6;
  update_simple_average :
    TransformWithCovariance -> TransformWithCovariance -> Z -> TransformWithCovariance
}.

(* ====================================================================== *)
(** ** State, faults and the trace of solver calls *)
(* ====================================================================== *)

(** A call to one of the solvers, with what it was given. *)
Inductive Event :=
| EvSolvePnP (object_points : list Vector3) (image_points : list Point2)
| EvSolvePnPRansac (object_points : list Vector3) (image_points : list Point2)
| EvOptimize (graph : NonlinearFactorGraph) (initial : Values)
| EvMarginals (graph : NonlinearFactorGraph) (result : Values) (key : Key).

(** What ends a call early: an exception of GTSAM, or undefined behaviour. *)
Inductive Fault :=
| ValuesKeyAlreadyExists (k : Key)
| ValuesKeyDoesNotExist (k : Key)
| OptimizerException
| MarginalsException
| NullPointerDereference
| UninitializedPointerDereference
| OutOfRangeRead.

Inductive Res (A : Type) :=
| Ok (a : A)
| Raise (f : Fault).
Arguments Ok {A} a.
Arguments Raise {A} f.

(** The members of [VmapNode] that the modelled code reads and writes, and the
    trace.  The [Map &] that the solvers receive is always [*map_]. *)
Record State := mkState {
  map_ : option Map;
  callbacks_processed_ : Z;
  trace : list Event }.

Definition M (A : Type) : Type := State -> Res A * State.

Definition ret {A} (a : A) : M A := fun s => (Ok a, s).

Definition bind {A B} (c : M A) (k : A -> M B) : M B :=
  fun s => match c s with
           | (Ok a, s') => k a s'
           | (Raise f, s') => (Raise f, s')
           end.

Definition raise {A} (f : Fault) : M A := fun s => (Raise f, s).

Declare Scope m_scope.
Delimit Scope m_scope with M.
Notation "x <- c ;; k" := (bind c (fun x => k))
  (at level 100, c at next level, right associativity) : m_scope.
Notation "c ;; k" := (bind c (fun _ => k))
  (at level 100, right associativity) : m_scope.
Local Open Scope m_scope.

(** [*map_] read and written; reading through a null [map_] is a fault. *)
Definition get_map : M Map :=
  fun s => match map_ s with
           | Some m => (Ok m, s)
           | None => (Raise NullPointerDereference, s)
           end.

Definition modify_map (f : Map -> Map) : M unit :=
  fun s => match map_ s with
           | Some m => (Ok tt, mkState (Some (f m)) (callbacks_processed_ s) (trace s))
           | None => (Raise NullPointerDereference, s)
           end.

Definition emit (e : Event) : M unit :=
  fun s => (Ok tt, mkState (map_ s) (callbacks_processed_ s) (trace s ++ [e])).

(** A range-based [for] with an effectful body. *)
Fixpoint forM_ {A} (l : list A) (body : A -> M unit) : M unit :=
  match l with
  | [] => ret tt
  | a :: l' => body a ;; forM_ l' body
  end.

(** A loop that carries local variables. *)
Fixpoint foldM {A B} (body : B -> A -> M B) (l : list A) (b : B) : M B :=
  match l with
  | [] => ret b
  | a :: l' => b' <- body b a ;; foldM body l' b'
  end.

(** [gtsam::Values::insert] throws on a key that is present, [at] on one that is
    absent. *)
Definition Values_insert (k : Key) (p : Pose3) (v : Values) : M Values :=
  match v !! k with
  | Some _ => raise (ValuesKeyAlreadyExists k)
  | None => ret (<[k := p]> v)
  end.

Definition Values_at (v : Values) (k : Key) : M Pose3 :=
  match v !! k with
  | Some p => ret p
  | None => raise (ValuesKeyDoesNotExist k)
  end.

(** [v[i]] on a [std::vector]: the index is not checked, and reading beyond the
    end is undefined behaviour. *)
Definition vector_at (v : list double) (i : nat) : M double :=
  match nth_error v i with
  | Some d => ret d
  | None => raise OutOfRangeRead
  end.

(** The constructor of [CvCameraInfo]: [msg.d] is a [std::vector], of which the
    constructor reads the first five entries. *)
Definition CvCameraInfo_of_msg (msg : CameraInfoMsg) : M CvCameraInfo :=
  d0 <- vector_at (msg_d msg) 0 ;;
  d1 <- vector_at (msg_d msg) 1 ;;
  d2 <- vector_at (msg_d msg) 2 ;;
  d3 <- vector_at (msg_d msg) 3 ;;
  d4 <- vector_at (msg_d msg) 4 ;;
  ret (mkCvCameraInfo
         [ msg_at (msg_k msg) 0; dzero; msg_at (msg_k msg) 2;
           dzero; msg_at (msg_k msg) 4; msg_at (msg_k msg) 5;
           dzero; dzero; 1%float ]
         [ d0; d1; d2; d3; d4 ]).

(* ====================================================================== *)
(** ** CvFiducialMath: the geometric solver *)
(* ====================================================================== *)

Section Solvers.
Context `{External}.

(** The calls to OpenCV leave an event in the trace. *)
Definition solvePnP (object_points : list Vector3) (image_points : list Point2)
    (ci : CvCameraInfo) : M (Vector3 * Vector3) :=
  emit (EvSolvePnP object_points image_points) ;;
  ret (cv_solvePnP object_points image_points ci).

Definition solvePnPRansac (object_points : list Vector3) (image_points : list Point2)
    (ci : CvCameraInfo) : M (Vector3 * Vector3) :=
  emit (EvSolvePnPRansac object_points image_points) ;;
  ret (cv_solvePnPRansac object_points image_points ci).

Definition two : double := 2%float.

(** [CvFiducialMath::append_corners_f_marker] *)
Definition append_corners_f_marker (marker_length : double) (corners_f_marker : list Vector3)
  : list Vector3 :=
  corners_f_marker ++
  [ mkV3 (PrimFloat.div (PrimFloat.opp marker_length) two) (PrimFloat.div marker_length two) dzero;
    mkV3 (PrimFloat.div marker_length two) (PrimFloat.div marker_length two) dzero;
    mkV3 (PrimFloat.div marker_length two) (PrimFloat.div (PrimFloat.opp marker_length) two) dzero;
    mkV3 (PrimFloat.div (PrimFloat.opp marker_length) two)
         (PrimFloat.div (PrimFloat.opp marker_length) two) dzero ].

(** [CvFiducialMath::append_corners_f_map] *)
Definition append_corners_f_map (t_map_marker : TransformWithCovariance)
    (marker_length : double) (corners_f_map : list Vector3) : list Vector3 :=
  let corner0_f_marker :=
    mkV3 (PrimFloat.div (PrimFloat.opp marker_length) two) (PrimFloat.div marker_length two) dzero in
  let corner1_f_marker :=
    mkV3 (PrimFloat.div marker_length two) (PrimFloat.div marker_length two) dzero in
  let corner2_f_marker :=
    mkV3 (PrimFloat.div marker_length two) (PrimFloat.div (PrimFloat.opp marker_length) two) dzero in
  let corner3_f_marker :=
    mkV3 (PrimFloat.div (PrimFloat.opp marker_length) two)
         (PrimFloat.div (PrimFloat.opp marker_length) two) dzero in
  let t_map_marker_tf := transform t_map_marker in
  corners_f_map ++
  [ tf2_apply t_map_marker_tf corner0_f_marker;
    tf2_apply t_map_marker_tf corner1_f_marker;
    tf2_apply t_map_marker_tf corner2_f_marker;
    tf2_apply t_map_marker_tf corner3_f_marker ].

(** [CvFiducialMath::append_corners_f_image] *)
Definition append_corners_f_image (observation : Observation) (corners_f_image : list Point2)
  : list Point2 :=
  corners_f_image ++
  [ mkP2 (static_cast_float (x0 observation)) (static_cast_float (y0 observation));
    mkP2 (static_cast_float (x1 observation)) (static_cast_float (y1 observation));
    mkP2 (static_cast_float (x2 observation)) (static_cast_float (y2 observation));
    mkP2 (static_cast_float (x3 observation)) (static_cast_float (y3 observation)) ].

(** [CvFiducialMath::to_tf2_transform] *)
Definition to_tf2_transform (rvec tvec : Vector3) : Transform :=
  let t := mkV3 (vx tvec) (vy tvec) (vz tvec) in
  let m := cv_Rodrigues rvec in
  mkTransform m t.

(** [CvFiducialMath::solve_t_camera_marker] *)
Definition cv_solve_t_camera_marker (ci_ : CvCameraInfo) (observation : Observation)
    (marker_length : double) : M TransformWithCovariance :=
  let corners_f_marker := append_corners_f_marker marker_length [] in
  let corners_f_image := append_corners_f_image observation [] in
  rt <- solvePnP corners_f_marker corners_f_image ci_ ;;
  let '(rvec, tvec) := rt in
  ret (TWC_of_transform (to_tf2_transform rvec tvec)).

(** The first loop of [CvFiducialMath::solve_t_map_camera]: the corners of the
    observations whose [t_map_markers[i]] is valid. *)
Definition all_corners (marker_length : double) (observations : Observations)
    (t_map_markers : list TransformWithCovariance) : list Vector3 * list Point2 :=
  fold_left
    (fun acc ot =>
       let '(all_corners_f_map, all_corners_f_image) := acc in
       let '(observation, t_map_marker) := ot in
       if is_valid t_map_marker
       then (append_corners_f_map t_map_marker marker_length all_corners_f_map,
             append_corners_f_image observation all_corners_f_image)
       else acc)
    (combine observations t_map_markers) ([], []).

(** [std::abs(a - b) > 0.5] *)
Definition differs_by_more_than_half (a b : double) : bool :=
  PrimFloat.ltb dhalf (PrimFloat.abs (PrimFloat.sub a b)).

(** The test that replaces the iterative solution by the RANSAC one. *)
Definition very_different (rvec rvecRansac : Vector3) : bool :=
  differs_by_more_than_half (vx rvec) (vx rvecRansac) ||
  differs_by_more_than_half (vy rvec) (vy rvecRansac) ||
  differs_by_more_than_half (vz rvec) (vz rvecRansac).

(** [CvFiducialMath::solve_t_map_camera] *)
Definition cv_solve_t_map_camera (ci_ : CvCameraInfo) (observations : Observations)
  : M TransformWithCovariance :=
  map <- get_map ;;
  let t_map_markers := Map_find_t_map_markers map observations in
  let '(all_corners_f_map, all_corners_f_image) :=
    all_corners (marker_length map) observations t_map_markers in
  match all_corners_f_map with
  | [] => ret TWC_default
  | _ :: _ =>
    rt <- solvePnP all_corners_f_map all_corners_f_image ci_ ;;
    rt' <- (if ((1 * 4 <? length all_corners_f_image) &&
                (length all_corners_f_image <? 4 * 4))%nat
            then
              rtRansac <- solvePnPRansac all_corners_f_map all_corners_f_image ci_ ;;
              if very_different (fst rt) (fst rtRansac) then ret rtRansac else ret rt
            else ret rt) ;;
    let '(rvec, tvec) := rt' in
    let tf2_t_map_camera := tf2_inverse (to_tf2_transform rvec tvec) in
    ret (TWC_of_transform tf2_t_map_camera)
  end.

(** [CvFiducialMath::update_marker_simple_average].  The reference [existing]
    is the entry of the map under the key [existing_key], whose value is
    [existing]. *)
Definition update_marker_simple_average (existing_key : Z) (existing : Marker)
    (another_twc : TransformWithCovariance) : M unit :=
  if negb (is_fixed existing) then
    let t_map_marker' := t_map_marker existing in
    let update_count' := update_count existing in
    let t_map_marker' := update_simple_average t_map_marker' another_twc update_count' in
    modify_map (Map_update_marker existing_key
                  (fun mk => set_update_count (wrap_int (update_count' + 1))
                               (set_t_map_marker t_map_marker' mk)))
  else ret tt.

(** [CvFiducialMath::update_map] *)
Definition cv_update_map (ci_ : CvCameraInfo) (t_map_camera : TransformWithCovariance)
    (observations : Observations) : M unit :=
  forM_ observations (fun observation =>
    map <- get_map ;;
    t_camera_marker <- cv_solve_t_camera_marker ci_ observation (marker_length map) ;;
    let t_map_marker :=
      TWC_of_transform (tf2_mul (transform t_map_camera) (transform t_camera_marker)) in
    match Map_find_marker map (obs_id observation) with
    | Some marker => update_marker_simple_average (obs_id observation) marker t_map_marker
    | None => modify_map (Map_add_marker (Marker_new (obs_id observation) t_map_marker))
    end).

(* ====================================================================== *)
(** ** SamFiducialMath: the factor-graph solver *)
(* ====================================================================== *)

(** The members of [SamFiducialMath]: the camera of the [CvFiducialMath] it
    refers to, the calibration and the noise of a corner measurement. *)
Record SamFiducialMath := mkSam {
  cv_ci_ : CvCameraInfo;
  cal3ds2_ : Cal3DS2;
  corner_measurement_noise_ : NoiseModel }.

(** The constructor of [SamFiducialMath]. *)
Definition SamFiducialMath_new (ci : CvCameraInfo) (corner_measurement_sigma : double)
  : SamFiducialMath :=
  mkSam ci
    (mkCal3DS2 (camera_matrix_at ci 0 0) (camera_matrix_at ci 1 1) 1%float
               (camera_matrix_at ci 0 2) (camera_matrix_at ci 1 2)
               (dist_coeffs_at ci 0) (dist_coeffs_at ci 1)
               (dist_coeffs_at ci 2) (dist_coeffs_at ci 3))
    (Diagonal_Sigmas [corner_measurement_sigma; corner_measurement_sigma]).

(** [gtsam::Key camera_key_{gtsam::Symbol('c', 1)}] *)
Definition camera_key_ : Key := Symbol chr_c 1.

(** [SamFiducialMath::to_pose3] *)
Definition to_pose3 (t : Transform) : Pose3 :=
  let q := tf2_getRotation t in
  let o := getOrigin t in
  mkPose3 (gtsam_Rot3 (qw q) (qx q) (qy q) (qz q)) (mkV3 (vx o) (vy o) (vz o)).

(** [SamFiducialMath::to_cov_type]; the pose is used only by the rotation that
    the source has commented out. *)
Definition to_cov_type (sam_pose : Pose3) (cov_sam : Matrix6) : cov_type :=
  to_cov_type_of cov_sam.

(** [SamFiducialMath::to_transform_with_covariance] *)
Definition to_transform_with_covariance (sam_pose : Pose3) (sam_cov : Matrix6)
  : TransformWithCovariance :=
  let q1 := gtsam_toQuaternion (rotation sam_pose) in
  let t := translation sam_pose in
  TWC_of_transform_cov
    (tf2_of_quaternion (mkQuat (qx q1) (qy q1) (qz q1) (qw q1)) (mkV3 (vx t) (vy t) (vz t)))
    (to_cov_type sam_pose sam_cov).

(** [gtsam::LevenbergMarquardtOptimizer(graph, initial).optimize()] *)
Definition optimize (graph : NonlinearFactorGraph) (initial : Values) : M Values :=
  emit (EvOptimize graph initial) ;;
  match gtsam_optimize graph initial with
  | Some result => ret result
  | None => raise OptimizerException
  end.

(** [SamFiducialMath::extract_transform_with_covariance] *)
Definition extract_transform_with_covariance (graph : NonlinearFactorGraph)
    (result : Values) (key : Key) : M TransformWithCovariance :=
  emit (EvMarginals graph result key) ;;
  sam_pose <- Values_at result key ;;
  match gtsam_marginalCovariance graph result key with
  | Some sam_cov => ret (to_transform_with_covariance sam_pose sam_cov)
  | None => raise MarginalsException
  end.

(** The loop [for j] of the solvers: a resectioning factor on [key] for each
    pair of an image corner and a 3D corner. *)
Definition resectioning_factors (sam : SamFiducialMath) (key : Key)
    (corners_f_image : list Point2) (corners_3d : list Vector3)
    (graph : NonlinearFactorGraph) : NonlinearFactorGraph :=
  graph ++
  map (fun pP : Point2 * Vector3 =>
         let corner_f_image := mkP2 (px (fst pP)) (py (fst pP)) in
         let corner_3d := mkV3 (vx (snd pP)) (vy (snd pP)) (vz (snd pP)) in
         ResectioningFactor (corner_measurement_noise_ sam) key (cal3ds2_ sam)
                            corner_f_image corner_3d)
      (combine corners_f_image corners_3d).

(** [SamFiducialMath::solve_camera_f_marker] *)
Definition solve_camera_f_marker (sam : SamFiducialMath) (observation : Observation)
    (marker_length : double) : M TransformWithCovariance :=
  let corners_f_marker := append_corners_f_marker marker_length [] in
  let corners_f_image := append_corners_f_image observation [] in
  let graph := resectioning_factors sam camera_key_ corners_f_image corners_f_marker [] in
  cv_t_camera_marker <- cv_solve_t_camera_marker (cv_ci_ sam) observation marker_length ;;
  let camera_f_marker_initial := to_pose3 (tf2_inverse (transform cv_t_camera_marker)) in
  initial <- Values_insert camera_key_ camera_f_marker_initial ∅ ;;
  result <- optimize graph initial ;;
  extract_transform_with_covariance graph result camera_key_.

(** The loop of [solve_t_map_camera_sfm] that adds the factors: four
    resectioning factors for each observation whose [t_map_markers[i]] is
    valid. *)
Definition sfm_graph (sam : SamFiducialMath) (marker_length : double)
    (observations : Observations) (t_map_markers : list TransformWithCovariance)
  : NonlinearFactorGraph :=
  fold_left
    (fun graph ot =>
       let '(observation, t_map_marker) := ot in
       if is_valid t_map_marker then
         let corners_f_map := append_corners_f_map t_map_marker marker_length [] in
         let corners_f_image := append_corners_f_image observation [] in
         resectioning_factors sam camera_key_ corners_f_image corners_f_map graph
       else graph)
    (combine observations t_map_markers) [].

(** [SamFiducialMath::solve_t_map_camera_sfm], which nothing calls. *)
Definition solve_t_map_camera_sfm (sam : SamFiducialMath) (observations : Observations)
  : M TransformWithCovariance :=
  map <- get_map ;;
  let t_map_markers := Map_find_t_map_markers map observations in
  cv_t_map_camera <- cv_solve_t_map_camera (cv_ci_ sam) observations ;;
  if negb (is_valid cv_t_map_camera) then ret cv_t_map_camera else
  let graph := sfm_graph sam (marker_length map) observations t_map_markers in
  initial <- Values_insert camera_key_ (to_pose3 (transform cv_t_map_camera)) ∅ ;;
  result <- optimize graph initial ;;
  extract_transform_with_covariance graph result camera_key_.

(** The key of the variable of a marker: [gtsam::Symbol{'m', id}]. *)
Definition marker_key_of (observation : Observation) : Key :=
  Symbol chr_m (to_uint64 (obs_id observation)).

(** The choice of the noise model of the prior of a known marker. *)
Definition use_constrained_model (map : Map) (marker : Marker) (known_marker_cov : Matrix6)
  : bool :=
  is_fixed marker ||
  MapStyles_eqb (map_style map) pose ||
  PrimFloat.eqb (Matrix6_get known_marker_cov 0 0) dzero.

(** One turn of the loop of [load_graph_from_observations]. *)
Definition load_graph_step (sam : SamFiducialMath) (t_map_camera : TransformWithCovariance)
    (camera_key : Key) (add_unknown_markers : bool)
    (gi : NonlinearFactorGraph * Values) (observation : Observation)
  : M (NonlinearFactorGraph * Values) :=
  let '(graph, initial) := gi in
  let marker_key := marker_key_of observation in
  map <- get_map ;;
  match Map_find_marker map (obs_id observation) with
  | Some marker =>
    camera_f_marker <- solve_camera_f_marker sam observation (marker_length map) ;;
    let cov_sam := to_cov_sam (cov camera_f_marker) in
    let graph := graph ++ [BetweenFactor marker_key camera_key
                             (to_pose3 (transform camera_f_marker))
                             (Gaussian_Covariance cov_sam)] in
    let known_marker_f_map := to_pose3 (transform (t_map_marker marker)) in
    let known_marker_cov := to_cov_sam (cov (t_map_marker marker)) in
    let use_constrained := use_constrained_model map marker known_marker_cov in
    let known_noise_model :=
      if use_constrained then Constrained_MixedSigmas Z_6x1
      else Gaussian_Covariance known_marker_cov in
    let graph := graph ++ [PriorFactor marker_key known_marker_f_map known_noise_model] in
    initial <- Values_insert marker_key known_marker_f_map initial ;;
    ret (graph, initial)
  | None =>
    if add_unknown_markers then
      camera_f_marker <- solve_camera_f_marker sam observation (marker_length map) ;;
      let cov_sam := to_cov_sam (cov camera_f_marker) in
      let graph := graph ++ [BetweenFactor marker_key camera_key
                               (to_pose3 (transform camera_f_marker))
                               (Gaussian_Covariance cov_sam)] in
      let unknown_marker_f_map :=
        tf2_mul (transform t_map_camera) (tf2_inverse (transform camera_f_marker)) in
      initial <- Values_insert marker_key (to_pose3 unknown_marker_f_map) initial ;;
      ret (graph, initial)
    else ret (graph, initial)
  end.

(** [SamFiducialMath::load_graph_from_observations]; the graph and the initial
    values, which the source fills in place, are returned. *)
Definition load_graph_from_observations (sam : SamFiducialMath)
    (t_map_camera : TransformWithCovariance) (observations : Observations)
    (camera_key : Key) (add_unknown_markers : bool)
  : M (NonlinearFactorGraph * Values) :=
  gi <- foldM (load_graph_step sam t_map_camera camera_key add_unknown_markers)
              observations ([], ∅) ;;
  let '(graph, initial) := gi in
  initial <- Values_insert camera_key (to_pose3 (transform t_map_camera)) initial ;;
  ret (graph, initial).

(** [SamFiducialMath::solve_t_map_camera] *)
Definition sam_solve_t_map_camera (sam : SamFiducialMath) (observations : Observations)
  : M TransformWithCovariance :=
  cv_t_map_camera <- cv_solve_t_map_camera (cv_ci_ sam) observations ;;
  if negb (is_valid cv_t_map_camera) then ret cv_t_map_camera else
  gi <- load_graph_from_observations sam cv_t_map_camera observations camera_key_ false ;;
  let '(graph, initial) := gi in
  result <- optimize graph initial ;;
  extract_transform_with_covariance graph result camera_key_.

(** The loop of [SamFiducialMath::update_map] that writes the map. *)
Definition sam_write_back (graph : NonlinearFactorGraph) (result : Values)
    (observations : Observations) : M unit :=
  forM_ observations (fun observation =>
    let marker_key := marker_key_of observation in
    t_map_marker <- extract_transform_with_covariance graph result marker_key ;;
    map <- get_map ;;
    match Map_find_marker map (obs_id observation) with
    | None => modify_map (Map_add_marker (Marker_new (obs_id observation) t_map_marker))
    | Some marker =>
      if negb (is_fixed marker) then
        modify_map (Map_update_marker (obs_id observation)
                      (fun mk => set_update_count (wrap_int (update_count mk + 1))
                                   (set_t_map_marker t_map_marker mk)))
      else ret tt
    end).

(** [SamFiducialMath::update_map] *)
Definition sam_update_map (sam : SamFiducialMath) (t_map_camera : TransformWithCovariance)
    (observations : Observations) : M unit :=
  if negb (is_valid t_map_camera) || (length observations <? 2)%nat then ret tt else
  let camera_key := Symbol chr_c 0 in
  gi <- load_graph_from_observations sam t_map_camera observations camera_key true ;;
  let '(graph, initial) := gi in
  result <- optimize graph initial ;;
  sam_write_back graph result observations.

(* ====================================================================== *)
(** ** FiducialMath: the dispatcher *)
(* ====================================================================== *)

(** The members of [FiducialMath]; [cv_] is the camera of its [CvFiducialMath]. *)
Record FiducialMath := mkFiducialMath {
  sam_not_cv_ : bool;
  cv_ : CvCameraInfo;
  sam_ : SamFiducialMath }.

(** The constructor of [FiducialMath] from a [CameraInfo]. *)
Definition FiducialMath_new (sam_not_cv : bool) (corner_measurement_sigma : double)
    (camera_info : CvCameraInfo) : FiducialMath :=
  mkFiducialMath sam_not_cv camera_info
                 (SamFiducialMath_new camera_info corner_measurement_sigma).

(** [FiducialMath::solve_t_camera_marker] *)
Definition solve_t_camera_marker (fm : FiducialMath) (observation : Observation)
    (marker_length : double) : M TransformWithCovariance :=
  cv_solve_t_camera_marker (cv_ fm) observation marker_length.

(** [FiducialMath::solve_t_map_camera] *)
Definition solve_t_map_camera (fm : FiducialMath) (observations : Observations)
  : M TransformWithCovariance :=
  if sam_not_cv_ fm
  then sam_solve_t_map_camera (sam_ fm) observations
  else cv_solve_t_map_camera (cv_ fm) observations.

(** [FiducialMath::update_map] *)
Definition update_map (fm : FiducialMath) (t_map_camera : TransformWithCovariance)
    (observations : Observations) : M unit :=
  if sam_not_cv_ fm
  then sam_update_map (sam_ fm) t_map_camera observations
  else cv_update_map (cv_ fm) t_map_camera observations.

(* ====================================================================== *)
(** ** VmapNode *)
(* ====================================================================== *)

(** The parameters of [VmapContext] that the modelled code reads
    (vmap_context.hpp is not among the sources). *)
Record VmapContext := mkVmapContext {
  cxt_sam_not_cv_ : bool;
  cxt_corner_measurement_sigma_ : double;
  cxt_marker_length_ : double;
  cxt_map_init_style_ : Z;
  cxt_map_init_id_ : Z;
  cxt_map_init_transform_ : TransformWithCovariance;
  cxt_make_not_use_map_ : bool }.

(** [fiducial_vlam_msgs::msg::Observations]: the camera and the observations. *)
Record ObservationsMsg := mkObservationsMsg {
  msg_camera_info : CameraInfoMsg;
  msg_observations : Observations }.

(** The search of [initialize_map_from_observations] for the lowest id: the
    running minimum and the pointer [min_obs], which starts uninitialised. *)
Definition find_min_obs (observations : Observations) : Z * option Observation :=
  fold_left
    (fun acc obs =>
       let '(min_id, min_obs) := acc in
       if obs_id obs <? min_id then (obs_id obs, Some obs) else (min_id, min_obs))
    observations (INT_MAX, None).

(** [VmapNode::initialize_map_from_observations] *)
Definition initialize_map_from_observations (cxt_ : VmapContext)
    (observations : Observations) (fm : FiducialMath) : M unit :=
  let '(min_id, min_obs) := find_min_obs observations in
  min_obs_v <- match min_obs with
               | Some o => ret o
               | None => raise UninitializedPointerDereference
               end ;;
  t_camera_marker <- solve_t_camera_marker fm min_obs_v (cxt_marker_length_ cxt_) ;;
  let t_map_camera := cxt_map_init_transform_ cxt_ in
  let t_map_marker :=
    TWC_of_transform (tf2_mul (transform t_map_camera) (transform t_camera_marker)) in
  modify_map (Map_add_marker (Marker_new min_id t_map_marker)).

(** [callbacks_processed_ += 1] *)
Definition count_callback : M unit :=
  fun s => (Ok tt, mkState (map_ s) (wrap_int (callbacks_processed_ s + 1)) (trace s)).

(** [!map_] *)
Definition map_is_null : M bool :=
  fun s => (Ok (match map_ s with None => true | Some _ => false end), s).

(** [VmapNode::observations_callback] *)
Definition observations_callback (cxt_ : VmapContext) (msg : ObservationsMsg) : M unit :=
  count_callback ;;
  ci <- CvCameraInfo_of_msg (msg_camera_info msg) ;;
  let fm := FiducialMath_new (cxt_sam_not_cv_ cxt_) (cxt_corner_measurement_sigma_ cxt_) ci in
  let observations := msg_observations msg in
  no_map <- map_is_null ;;
  (if no_map && (0 <? length observations)%nat
   then initialize_map_from_observations cxt_ observations fm
   else ret tt) ;;
  if (length observations <? 2)%nat then ret tt else
  t_map_camera <- solve_t_map_camera fm observations ;;
  if is_valid t_map_camera
  then update_map fm t_map_camera observations
  else ret tt.

End Solvers.

(* ====================================================================== *)
(** ** Detections *)
(* ====================================================================== *)

(** [CvFiducialMath::to_observations]: the loop runs over the indices of [ids]
    and reads [corners[i][0]] to [corners[i][3]]; [None] when one of them is
    not there.  A [cv::Point2f] holds floats, which the observation keeps. *)
Fixpoint to_observations_from (i n : nat) (ids : list Z) (corners : list (list Point2))
  : option Observations :=
  match n with
  | O => Some []
  | S n' =>
    match ids !! i, corners !! i with
    | Some id_i, Some c =>
      match c !! 0%nat, c !! 1%nat, c !! 2%nat, c !! 3%nat with
      | Some p0, Some p1, Some p2, Some p3 =>
        match to_observations_from (S i) n' ids corners with
        | Some observations =>
          Some (mkObservation id_i (px p0) (py p0) (px p1) (py p1)
                              (px p2) (py p2) (px p3) (py p3) :: observations)
        | None => None
        end
      | _, _, _, _ => None
      end
    | _, _ => None
    end
  end.

Definition to_observations (ids : list Z) (corners : list (list Point2)) : option Observations :=
  to_observations_from 0 (length ids) ids corners.

(** The four image corners of an observation. *)
Definition observation_corners (o : Observation) : list Point2 :=
  [mkP2 (x0 o) (y0 o); mkP2 (x1 o) (y1 o); mkP2 (x2 o) (y2 o); mkP2 (x3 o) (y3 o)].

(* ====================================================================== *)
(** ** The map file: ToYAML and FromYAML *)
(* ====================================================================== *)

Abbreviation string := String.string.
Delimit Scope string_scope with string.
Bind Scope string_scope with String.string.

(** What yaml-cpp and tf2 compute for the map file.  A scalar of a document is
    its text, of the type [YamlScalar]: [emit_int] and [emit_double] are the
    texts that the emitter writes for an [int] and for a [double], [as_int] and
    [as_double] are [Node::as<int>()] and [Node::as<double>()] on a scalar,
    [None] when the conversion throws.  [tf2_getRPY] is [Matrix3x3::getRPY];
    [tf2_of_mu] is the transform that the constructor
    [TransformWithCovariance(mu, cov)] (not among the sources) makes of
    x, y, z, roll, pitch, yaw. *)
Class YamlExternal := {
  YamlScalar : Type;
  emit_int : Z -> YamlScalar;
  emit_double : double -> YamlScalar;
  as_int : YamlScalar -> option Z;
  as_double : YamlScalar -> option double;
  tf2_getRPY : Matrix3x3 -> double * double * double;
  tf2_of_mu : list double -> Transform
}.

(** What is sent to the [YAML::Emitter], in order. *)
Inductive EmitterToken :=
| YBeginMap | YEndMap | YBeginSeq | YEndSeq | YKey | YValue | YFlow
| YString (s : string)
| YInt (z : Z)
| YDouble (d : double).

(** [Map::markers()] is a [std::map<int, Marker>]: a loop over it visits the
    markers by increasing key. *)
Definition marker_pair_le (a b : Z * Marker) : Prop := fst a <= fst b.

#[global] Instance marker_pair_le_dec : RelDecision marker_pair_le.
Proof. intros a b. unfold marker_pair_le. apply Z_le_dec. Defined.

Definition markers_in_order (m : Map) : list (Z * Marker) :=
  merge_sort marker_pair_le (map_to_list (markers m)).

(** [ToYAML::do_header] *)
Definition do_header (map_ : Map) : list EmitterToken :=
  [YKey; YString "marker_length"; YValue; YDouble (marker_length map_);
   YKey; YString "map_style"; YValue; YInt (MapStyles_to_int (map_style map_))].

#[local] Set Warnings "-register-all".

(** A [YAML::Node], with the keys of a map as their text.  The node that
    [operator[]] returns for a key that a map does not have is [YUndefined]. *)
Inductive YamlNode {Y : YamlExternal} :=
| YUndefined
| YNull
| YScalarNode (text : YamlScalar)
| YSequence (elements : list YamlNode)
| YMapping (pairs : list (string * YamlNode)).

(** What leaves [from_YAML] other than by its [return]: yaml-cpp throws a
    conversion error, which the [catch] of [from_YAML] does not catch; a map
    pointer is null where it is dereferenced. *)
Inductive YamlFault :=
| BadConversion
| NullMap.

Inductive YamlRes (A : Type) :=
| YamlOk (a : A)
| YamlThrow (e : YamlFault).
Arguments YamlOk {A} a.
Arguments YamlThrow {A} e.

Definition ybind {A B} (c : YamlRes A) (k : A -> YamlRes B) : YamlRes B :=
  match c with
  | YamlOk a => k a
  | YamlThrow e => YamlThrow e
  end.

(** [static_cast<Map::MapStyles>] of the integer of the file: the cast does not
    check the integer. *)
Definition MapStyles_of_int (z : Z) : MapStyles :=
  if z =? 0 then pose
  else if z =? 1 then covariance
  else if z =? 2 then corners
  else other_style z.

(** The members of [FromYAML] that the parse writes. *)
Record FromYAML := mkFromYAML {
  yaml_map_ : option Map;
  error_msg_ : string }.

(** [FromYAML::yaml_error] *)
Definition yaml_error (s : string) (this : FromYAML) : bool * FromYAML :=
  (false, mkFromYAML (yaml_map_ this) s).

(** What [YAML::Load] makes of the stream: a document, or a
    [YAML::ParserException] with its message. *)
Inductive YamlDocument {Y : YamlExternal} :=
| ParserException (what : string)
| Loaded (node : YamlNode).

Section Yaml.
Context `{YamlExternal}.

(** [ToYAML::do_marker] *)
Definition do_marker (map_ : Map) (marker : Marker) : list EmitterToken :=
  let c := getOrigin (transform (t_map_marker marker)) in
  let '(roll, pitch, yaw) := tf2_getRPY (getBasis (transform (t_map_marker marker))) in
  [YBeginMap;
   YKey; YString "id"; YValue; YInt (marker_id marker);
   YKey; YString "u"; YValue; YInt (update_count marker);
   YKey; YString "f"; YValue; YInt (if is_fixed marker then 1 else 0);
   YKey; YString "xyz"; YValue; YFlow;
   YBeginSeq; YDouble (vx c); YDouble (vy c); YDouble (vz c); YEndSeq;
   YKey; YString "rpy"; YValue; YFlow;
   YBeginSeq; YDouble roll; YDouble pitch; YDouble yaw; YEndSeq] ++
  (if negb (MapStyles_eqb (map_style map_) pose)
   then [YKey; YString "cov"; YValue; YFlow; YBeginSeq] ++
        map YDouble (cov (t_map_marker marker)) ++ [YEndSeq]
   else []) ++
  [YEndMap].

(** [ToYAML::do_markers] *)
Definition do_markers (map_ : Map) : list EmitterToken :=
  [YKey; YString "markers"; YValue; YBeginSeq] ++
  flat_map (fun marker_pair => do_marker map_ (snd marker_pair)) (markers_in_order map_) ++
  [YEndSeq].

(** [ToYAML::do_map], which is all that [to_YAML] sends to the emitter. *)
Definition do_map (map_ : Map) : list EmitterToken :=
  [YBeginMap] ++ do_header map_ ++ do_markers map_ ++ [YEndMap].

Definition IsScalar (n : YamlNode) : bool :=
  match n with YScalarNode _ => true | _ => false end.

Definition IsSequence (n : YamlNode) : bool :=
  match n with YSequence _ => true | _ => false end.

Definition IsMap (n : YamlNode) : bool :=
  match n with YMapping _ => true | _ => false end.

(** [node.size()] *)
Definition node_size (n : YamlNode) : nat :=
  match n with
  | YSequence l => length l
  | YMapping l => length l
  | _ => 0%nat
  end.

(** [node["key"]] on a map: the value of the first pair with that key. *)
Definition node_at_key (n : YamlNode) (key : string) : YamlNode :=
  match n with
  | YMapping l =>
    match List.find (fun kv => String.eqb (fst kv) key) l with
    | Some kv => snd kv
    | None => YUndefined
    end
  | _ => YUndefined
  end.

(** [node[i]] on a sequence, for [i] below its size. *)
Definition node_at_index (n : YamlNode) (i : nat) : YamlNode :=
  match n with
  | YSequence l => nth i l YUndefined
  | _ => YUndefined
  end.

(** The elements that an iteration from [begin()] to [end()] visits, for the
    sequence that [from_map] passes to [from_markers]. *)
Definition node_elements (n : YamlNode) : list YamlNode :=
  match n with
  | YSequence l => l
  | _ => []
  end.

(** [node.as<int>()] and [node.as<double>()] *)
Definition node_as_int (n : YamlNode) : YamlRes Z :=
  match n with
  | YScalarNode t =>
    match as_int t with Some z => YamlOk z | None => YamlThrow BadConversion end
  | _ => YamlThrow BadConversion
  end.

Definition node_as_double (n : YamlNode) : YamlRes double :=
  match n with
  | YScalarNode t =>
    match as_double t with Some d => YamlOk d | None => YamlThrow BadConversion end
  | _ => YamlThrow BadConversion
  end.

(** A loop [for (int i = 0; i < n; i += 1)] of [from_marker]: each element must
    be a scalar and is converted to a double.  [Some msg] is the error that ends
    the parse. *)
Fixpoint read_doubles (node : YamlNode) (msg : string) (i n : nat)
  : YamlRes (option string * list double) :=
  match n with
  | O => YamlOk (None, [])
  | S n' =>
    let i_node := node_at_index node i in
    if negb (IsScalar i_node) then YamlOk (Some msg, [])
    else
      ybind (node_as_double i_node) (fun d =>
      ybind (read_doubles node msg (S i) n') (fun r =>
      YamlOk (fst r, d :: snd r)))
  end.

(** The covariance that [from_marker] reads: none for the style [pose]. *)
Definition read_cov (marker_node : YamlNode) (map : Map)
  : YamlRes (option string * cov_type) :=
  if negb (MapStyles_eqb (map_style map) pose) then
    let cov_node := node_at_key marker_node "cov" in
    if negb (IsSequence cov_node)
    then YamlOk (Some "marker.cov failed IsSequence()"%string, cov_zero)
    else if negb (Nat.eqb (node_size cov_node) 36)
    then YamlOk (Some "marker.cov incorrect size"%string, cov_zero)
    else read_doubles cov_node "marker.cov[i] failed IsScalar()" 0 36
  else YamlOk (None, cov_zero).

(** [FromYAML::from_marker] *)
Definition from_marker (marker_node : YamlNode) (this : FromYAML)
  : YamlRes (bool * FromYAML) :=
  let id_node := node_at_key marker_node "id" in
  if negb (IsScalar id_node) then YamlOk (yaml_error "marker.id failed IsScalar()" this) else
  let update_count_node := node_at_key marker_node "u" in
  if negb (IsScalar update_count_node)
  then YamlOk (yaml_error "marker.update_count failed IsScalar()" this) else
  let is_fixed_node := node_at_key marker_node "f" in
  if negb (IsScalar is_fixed_node)
  then YamlOk (yaml_error "marker.is_fixed failed IsScalar()" this) else
  let xyz_node := node_at_key marker_node "xyz" in
  if negb (IsSequence xyz_node)
  then YamlOk (yaml_error "marker.xyz failed IsSequence()" this) else
  if negb (Nat.eqb (node_size xyz_node) 3)
  then YamlOk (yaml_error "marker.xyz incorrect size" this) else
  let rpy_node := node_at_key marker_node "rpy" in
  if negb (IsSequence rpy_node)
  then YamlOk (yaml_error "marker.rpy failed IsSequence()" this) else
  if negb (Nat.eqb (node_size rpy_node) 3)
  then YamlOk (yaml_error "marker.rpy incorrect size" this) else
  ybind (read_doubles xyz_node "marker.xyz[i] failed IsScalar()" 0 3) (fun xyz_data =>
  match fst xyz_data with
  | Some msg => YamlOk (yaml_error msg this)
  | None =>
    ybind (read_doubles rpy_node "marker.rpy[i] failed IsScalar()" 0 3) (fun rpy_data =>
    match fst rpy_data with
    | Some msg => YamlOk (yaml_error msg this)
    | None =>
      let mu := snd xyz_data ++ snd rpy_data in
      match yaml_map_ this with
      | None => YamlThrow NullMap
      | Some map =>
        ybind (read_cov marker_node map) (fun cov_read =>
        match fst cov_read with
        | Some msg => YamlOk (yaml_error msg this)
        | None =>
          ybind (node_as_int id_node) (fun id_v =>
          let marker := Marker_new id_v (TWC_of_transform_cov (tf2_of_mu mu) (snd cov_read)) in
          ybind (node_as_int is_fixed_node) (fun f_v =>
          let marker := set_is_fixed (negb (f_v =? 0)) marker in
          ybind (node_as_int update_count_node) (fun u_v =>
          let marker := set_update_count u_v marker in
          YamlOk (true, mkFromYAML (Some (Map_add_marker marker map)) (error_msg_ this)))))
        end)
      end
    end)
  end).

(** The loop of [FromYAML::from_markers] over the elements of the sequence. *)
Fixpoint from_markers_loop (l : list YamlNode) (this : FromYAML) : YamlRes (bool * FromYAML) :=
  match l with
  | [] => YamlOk (true, this)
  | marker_node :: l' =>
    if IsMap marker_node then
      ybind (from_marker marker_node this) (fun r =>
      if fst r then from_markers_loop l' (snd r) else YamlOk (false, snd r))
    else YamlOk (yaml_error "marker failed IsMap()" this)
  end.

(** [FromYAML::from_markers] *)
Definition from_markers (markers_node : YamlNode) (this : FromYAML)
  : YamlRes (bool * FromYAML) :=
  from_markers_loop (node_elements markers_node) this.

(** [FromYAML::from_map] *)
Definition from_map (yaml_node_ : YamlNode) (this : FromYAML) : YamlRes (bool * FromYAML) :=
  if IsMap yaml_node_ then
    let map_style_node := node_at_key yaml_node_ "map_style" in
    ybind (if IsScalar map_style_node
           then ybind (node_as_int map_style_node) (fun z => YamlOk (MapStyles_of_int z))
           else YamlOk pose) (fun map_style =>
    let marker_length_node := node_at_key yaml_node_ "marker_length" in
    if IsScalar marker_length_node then
      ybind (node_as_double marker_length_node) (fun marker_length =>
      let this := mkFromYAML (Some (Map_new map_style marker_length)) (error_msg_ this) in
      let markers_node := node_at_key yaml_node_ "markers" in
      if IsSequence markers_node then from_markers markers_node this
      else YamlOk (yaml_error "markers failed IsSequence()" this))
    else YamlOk (yaml_error "marker_length failed IsScalar()" this))
  else YamlOk (yaml_error "root failed IsMap()" this).

(** [FromYAML::from_YAML] on a fresh [FromYAML], as [from_YAML_file] calls it:
    the message returned and the caller's [map] after the call. *)
Definition from_YAML (doc : YamlDocument) (map : option Map) : YamlRes (string * option Map) :=
  let this := mkFromYAML None "" in
  match doc with
  | ParserException what => YamlOk (what, map)
  | Loaded yaml_node_ =>
    ybind (from_map yaml_node_ this) (fun r =>
    if fst r
    then YamlOk (error_msg_ (snd r), yaml_map_ (snd r))
    else YamlOk (error_msg_ (snd r), map))
  end.

(** [from_YAML_file]; [file] is [None] when the file cannot be opened. *)
Definition from_YAML_file (filename : string) (file : option YamlDocument) (map : option Map)
  : YamlRes (string * option Map) :=
  match file with
  | None =>
    YamlOk (String.append "Config error: can not open config file for reading: " filename, map)
  | Some doc =>
    ybind (from_YAML doc map) (fun r =>
    let err_msg := fst r in
    if negb (String.eqb err_msg "")
    then YamlOk (String.append "Config error: error parsing config file: "
                   (String.append filename (String.append " error: " err_msg)), snd r)
    else YamlOk (err_msg, snd r))
  end.

(** [VmapNode::initialize_map].  [filename] is
    [cxt_.marker_map_load_full_filename_]; [file] is the file as it is when the
    map is loaded from it and [file'] as it is when it is read for the style 0,
    [None] when it cannot be opened.  What is logged is left out. *)
Definition initialize_map (cxt_ : VmapContext) (filename : string)
    (file file' : option YamlDocument) : YamlRes (option Map) :=
  let map_unique : option Map := None in
  ybind (if negb (cxt_make_not_use_map_ cxt_)
         then ybind (from_YAML_file filename file map_unique) (fun r =>
              YamlOk (String.eqb (fst r) "", snd r))
         else YamlOk (false, map_unique)) (fun loaded =>
  let map_unique := snd loaded in
  if fst loaded then YamlOk map_unique else
  if cxt_map_init_style_ cxt_ =? 2 then YamlOk map_unique else
  let new_map_style := if cxt_sam_not_cv_ cxt_ then covariance else pose in
  let style1 :=
    let map_unique := Map_new new_map_style (cxt_marker_length_ cxt_) in
    let marker_new := Marker_new (cxt_map_init_id_ cxt_) (cxt_map_init_transform_ cxt_) in
    let marker_new := set_is_fixed true marker_new in
    Some (Map_add_marker marker_new map_unique) in
  if cxt_map_init_style_ cxt_ =? 0 then
    ybind (from_YAML_file filename file' None) (fun r =>
    let err_msg := fst r in
    if negb (String.eqb err_msg "") then YamlOk style1 else
    match snd r with
    | None => YamlThrow NullMap
    | Some map_temp =>
      match Map_find_marker map_temp (cxt_map_init_id_ cxt_) with
      | None => YamlOk style1
      | Some marker_temp =>
        let marker_copy := set_is_fixed true marker_temp in
        let map_unique := Map_new new_map_style (cxt_marker_length_ cxt_) in
        YamlOk (Some (Map_add_marker marker_copy map_unique))
      end
    end)
  else YamlOk style1).

(** The document that a stream of emitter tokens describes, for the tokens that
    [ToYAML] sends: a frame for each container that is open; in a map a string
    is the key of the node that follows; [Key], [Value] and [Flow] do not change
    the document. *)
Inductive Frame :=
| FSeq (acc : list YamlNode)
| FMap (acc : list (string * YamlNode)) (key : option string).

Definition deliver (v : YamlNode) (st : list Frame * option YamlNode)
  : option (list Frame * option YamlNode) :=
  match st with
  | ([], None) => Some ([], Some v)
  | ([], Some _) => None
  | (FSeq acc :: fs, r) => Some (FSeq (acc ++ [v]) :: fs, r)
  | (FMap acc (Some k) :: fs, r) => Some (FMap (acc ++ [(k, v)]) None :: fs, r)
  | (FMap acc None :: fs, r) => None
  end.

Definition token_step (tok : EmitterToken) (st : list Frame * option YamlNode)
  : option (list Frame * option YamlNode) :=
  match tok with
  | YKey | YValue | YFlow => Some st
  | YString s =>
    match st with
    | (FMap acc None :: fs, r) => Some (FMap acc (Some s) :: fs, r)
    | _ => None
    end
  | YInt z => deliver (YScalarNode (emit_int z)) st
  | YDouble d => deliver (YScalarNode (emit_double d)) st
  | YBeginMap => Some (FMap [] None :: fst st, snd st)
  | YBeginSeq => Some (FSeq [] :: fst st, snd st)
  | YEndMap =>
    match st with
    | (FMap acc None :: fs, r) => deliver (YMapping acc) (fs, r)
    | _ => None
    end
  | YEndSeq =>
    match st with
    | (FSeq acc :: fs, r) => deliver (YSequence acc) (fs, r)
    | _ => None
    end
  end.

Fixpoint tokens_run (toks : list EmitterToken) (st : list Frame * option YamlNode)
  : option (list Frame * option YamlNode) :=
  match toks with
  | [] => Some st
  | tok :: toks' =>
    match token_step tok st with
    | Some st' => tokens_run toks' st'
    | None => None
    end
  end.

Definition document_of_tokens (toks : list EmitterToken) : option YamlNode :=
  match tokens_run toks ([], None) with
  | Some ([], Some v) => Some v
  | _ => None
  end.

End Yaml.

(* ====================================================================== *)
(** ** The vocabulary of the statements *)
(* ====================================================================== *)

(** A relation [R] between the state before and the state after a call that
    every run of the call satisfies. *)
Definition keeps (R : State -> State -> Prop) {A} (c : M A) : Prop :=
  forall s, R s (snd (c s)).

(** The call only adds to the trace. *)
Definition same_map (s s' : State) : Prop :=
  map_ s' = map_ s /\ callbacks_processed_ s' = callbacks_processed_ s.

(** The markers that are fixed before the call are in the map, unchanged,
    after it. *)
Definition fixed_kept (s s' : State) : Prop :=
  forall m i mk,
    map_ s = Some m -> markers m !! i = Some mk -> is_fixed mk = true ->
    exists m', map_ s' = Some m' /\ markers m' !! i = Some mk.

(** The marker of id [i] in the map of the state. *)
Definition marker_in (s : State) (i : Z) : option Marker :=
  match map_ s with
  | Some m => Map_find_marker m i
  | None => None
  end.

(** The kind of a factor and the variables it is on. *)
Inductive FactorShape :=
| ShResectioning (key : Key)
| ShBetween (key1 key2 : Key)
| ShPrior (key : Key).

Definition factor_shape (f : Factor) : FactorShape :=
  match f with
  | ResectioningFactor _ key _ _ _ => ShResectioning key
  | BetweenFactor key1 key2 _ _ => ShBetween key1 key2
  | PriorFactor key _ _ => ShPrior key
  end.

Definition shape_is_resectioning (sh : FactorShape) : bool :=
  match sh with ShResectioning _ => true | _ => false end.

Definition is_prior (f : Factor) : bool :=
  match f with PriorFactor _ _ _ => true | _ => false end.

(** The graphs handed to the optimiser, in the order of the calls. *)
Definition optimized_graphs (tr : list Event) : list NonlinearFactorGraph :=
  flat_map (fun e => match e with EvOptimize g _ => [g] | _ => [] end) tr.

(** The graph of a result of [load_graph_from_observations]. *)
Definition graph_of (r : Res (NonlinearFactorGraph * Values) * State) : NonlinearFactorGraph :=
  match fst r with
  | Ok (g, _) => g
  | Raise _ => []
  end.

(** The noise model of the prior of a known marker, in terms of the covariance
    stored with the marker: entry 21 of the row-major array is its entry (3,3),
    the variance of roll. *)
Definition prior_noise_model (m : Map) (marker : Marker) : NoiseModel :=
  if is_fixed marker ||
     MapStyles_eqb (map_style m) pose ||
     PrimFloat.eqb (cov_at (cov (t_map_marker marker)) 21) dzero
  then Constrained_MixedSigmas Z_6x1
  else Gaussian_Covariance (to_cov_sam (cov (t_map_marker marker))).

(** The noise model that a test of entry (0,0) of the stored covariance would
    choose. *)
Definition prior_noise_model_entry_0_0 (m : Map) (marker : Marker) : NoiseModel :=
  if is_fixed marker ||
     MapStyles_eqb (map_style m) pose ||
     PrimFloat.eqb (cov_at (cov (t_map_marker marker)) 0) dzero
  then Constrained_MixedSigmas Z_6x1
  else Gaussian_Covariance (to_cov_sam (cov (t_map_marker marker))).

(** The shapes of the factors that an observation contributes when unknown
    markers are not added. *)
Definition shapes_of (m : Map) (camera_key : Key) (o : Observation) : list FactorShape :=
  match Map_find_marker m (obs_id o) with
  | Some _ => [ShBetween (marker_key_of o) camera_key; ShPrior (marker_key_of o)]
  | None => []
  end.

Section Vocabulary.
Context `{External}.

(** The pose that [solve_t_map_camera] makes of a solution (rvec, tvec). *)
Definition pose_of_solution (rt : Vector3 * Vector3) : TransformWithCovariance :=
  TWC_of_transform (tf2_inverse (to_tf2_transform (fst rt) (snd rt))).

(** The prior that an observation contributes to the graph. *)
Definition prior_of (m : Map) (o : Observation) : list Factor :=
  match Map_find_marker m (obs_id o) with
  | Some marker =>
    [PriorFactor (marker_key_of o) (to_pose3 (transform (t_map_marker marker)))
                 (prior_noise_model m marker)]
  | None => []
  end.

(** A sequence of calls to [FiducialMath::update_map], each with its own
    backend, camera pose and observations. *)
Definition update_map_calls
    (calls : list (FiducialMath * TransformWithCovariance * Observations)) : M unit :=
  forM_ calls (fun call => update_map (fst (fst call)) (snd (fst call)) (snd call)).

(** The optimiser answers, with a value for each variable it was given. *)
Definition optimizer_answers : Prop :=
  forall g init, exists result,
    gtsam_optimize g init = Some result /\
    forall k, is_Some (init !! k) -> is_Some (result !! k).

(** The marginal covariance of a variable is always available. *)
Definition marginals_answer : Prop :=
  forall g result k, is_Some (gtsam_marginalCovariance g result k).

End Vocabulary.

(* ====================================================================== *)
(** ** The vocabulary of the further properties *)
(* ====================================================================== *)

(** The observation is of a marker that the map knows with a valid pose: the
    test [t_map_marker.is_valid()] on what [find_t_map_markers] returned. *)
Definition known_valid (m : Map) (o : Observation) : bool :=
  match Map_find_marker m (obs_id o) with
  | Some mk => is_valid (t_map_marker mk)
  | None => false
  end.

(** Between two states the map keeps its style and its marker length, loses no
    marker, and no marker changes its id or its fixed flag. *)
Definition map_grows (s s' : State) : Prop :=
  forall m, map_ s = Some m ->
  exists m', map_ s' = Some m' /\
             map_style m' = map_style m /\
             marker_length m' = marker_length m /\
             forall i mk, markers m !! i = Some mk ->
               exists mk', markers m' !! i = Some mk' /\
                           marker_id mk' = marker_id mk /\
                           is_fixed mk' = is_fixed mk.

(** An id fits in an [int]. *)
Definition is_int (z : Z) : Prop := - 2 ^ 31 <= z < 2 ^ 31.

(** The matrices that the constructor of [CvCameraInfo] fills from a message
    that has its five distortion coefficients. *)
Definition CvCameraInfo_read (msg : CameraInfoMsg) : CvCameraInfo :=
  mkCvCameraInfo
    [ msg_at (msg_k msg) 0; dzero; msg_at (msg_k msg) 2;
      dzero; msg_at (msg_k msg) 4; msg_at (msg_k msg) 5;
      dzero; dzero; 1%float ]
    [ msg_at (msg_d msg) 0; msg_at (msg_d msg) 1; msg_at (msg_d msg) 2;
      msg_at (msg_d msg) 3; msg_at (msg_d msg) 4 ].

(** A resectioning factor with the given noise and calibration on the camera
    variable [camera_key_]; any other factor. *)
Definition resectioning_ok (noise : NoiseModel) (cal : Cal3DS2) (f : Factor) : Prop :=
  match f with
  | ResectioningFactor n k c _ _ => n = noise /\ k = camera_key_ /\ c = cal
  | _ => True
  end.

(** A call of the optimiser on a graph all of whose resectioning factors are of
    this kind; any other call of a library. *)
Definition event_ok (noise : NoiseModel) (cal : Cal3DS2) (ev : Event) : Prop :=
  match ev with
  | EvOptimize g _ => Forall (resectioning_ok noise cal) g
  | _ => True
  end.

Definition calibrated (noise : NoiseModel) (cal : Cal3DS2) (s s' : State) : Prop :=
  Forall (event_ok noise cal) (trace s) -> Forall (event_ok noise cal) (trace s').

(** A map of the kind that [from_YAML] builds: every marker is stored under its
    own id, has a valid pose and 36 covariance entries, all of them zero when
    the style of the map is [pose]. *)
Definition parsed_ok (m : Map) : Prop :=
  forall k mk, markers m !! k = Some mk ->
    marker_id mk = k /\
    is_valid (t_map_marker mk) = true /\
    length (cov (t_map_marker mk)) = 36%nat /\
    (map_style m = pose -> cov (t_map_marker mk) = cov_zero).

Section YamlVocabulary.
Context `{YamlExternal}.

(** What a marker is after it has been written to a map file of the style
    [style] and read again, when a number that is written as text reads as
    [round] of it: the six numbers of the pose and, unless the style is [pose],
    the covariance have gone through the text; the pose is valid. *)
Definition reread_marker (round : double -> double) (style : MapStyles) (marker : Marker)
  : Marker :=
  let c := getOrigin (transform (t_map_marker marker)) in
  let '(roll, pitch, yaw) := tf2_getRPY (getBasis (transform (t_map_marker marker))) in
  mkMarker (marker_id marker)
    (TWC_of_transform_cov
       (tf2_of_mu (map round [vx c; vy c; vz c; roll; pitch; yaw]))
       (if MapStyles_eqb style pose then cov_zero
        else map round (cov (t_map_marker marker))))
    (is_fixed marker) (update_count marker).

Definition reread_map (round : double -> double) (m : Map) : Map :=
  mkMap (map_style m) (round (marker_length m))
        (reread_marker round (map_style m) <$> markers m).

(** A map as the program holds it: its style is what the cast makes of an
    [int]; every marker is stored under its own id, the id and the update count
    are [int]s and the covariance has 36 entries. *)
Definition storable (m : Map) : Prop :=
  (is_int (MapStyles_to_int (map_style m)) /\
   MapStyles_of_int (MapStyles_to_int (map_style m)) = map_style m) /\
  forall k mk, markers m !! k = Some mk ->
    marker_id mk = k /\ is_int (marker_id mk) /\ is_int (update_count mk) /\
    length (cov (t_map_marker mk)) = 36%nat.

(** The node of one marker and of a map in the document of [do_map]. *)
Definition scalar_of_double (d : double) : YamlNode := YScalarNode (emit_double d).

Definition node_of_marker (map_ : Map) (marker : Marker) : YamlNode :=
  let c := getOrigin (transform (t_map_marker marker)) in
  let '(roll, pitch, yaw) := tf2_getRPY (getBasis (transform (t_map_marker marker))) in
  YMapping
    ([("id"%string, YScalarNode (emit_int (marker_id marker)));
      ("u"%string, YScalarNode (emit_int (update_count marker)));
      ("f"%string, YScalarNode (emit_int (if is_fixed marker then 1 else 0)));
      ("xyz"%string, YSequence (map scalar_of_double [vx c; vy c; vz c]));
      ("rpy"%string, YSequence (map scalar_of_double [roll; pitch; yaw]))] ++
     (if negb (MapStyles_eqb (map_style map_) pose)
      then [("cov"%string, YSequence (map scalar_of_double (cov (t_map_marker marker))))]
      else [])).

Definition node_of_map (map_ : Map) : YamlNode :=
  YMapping
    [("marker_length"%string, scalar_of_double (marker_length map_));
     ("map_style"%string, YScalarNode (emit_int (MapStyles_to_int (map_style map_))));
     ("markers"%string,
      YSequence (map (fun marker_pair => node_of_marker map_ (snd marker_pair))
                     (markers_in_order map_)))].

End YamlVocabulary.

(* ====================================================================== *)
(** ** A stand-in for the libraries *)
(* ====================================================================== *)

Definition Matrix3x3_identity : Matrix3x3 :=
  mkM3 (mkV3 1%float dzero dzero) (mkV3 dzero 1%float dzero) (mkV3 dzero dzero 1%float).

Definition Vector3_add (a b : Vector3) : Vector3 :=
  mkV3 (PrimFloat.add (vx a) (vx b)) (PrimFloat.add (vy a) (vy b)) (PrimFloat.add (vz a) (vz b)).

Definition Vector3_opp (a : Vector3) : Vector3 :=
  mkV3 (PrimFloat.opp (vx a)) (PrimFloat.opp (vy a)) (PrimFloat.opp (vz a)).

(** Concrete values for the fields of [External], used where a statement is
    evaluated: rotations are ignored, the iterative solver answers a zero
    rotation one unit along z, the RANSAC solver a rotation vector one radian
    away, the optimiser answers its initial values and every marginal covariance
    is the matrix of ones.  The theorems do not depend on these choices. *)
Definition stand_in : External := {|
  static_cast_float := fun x => x;
  tf2_mul := fun a b => mkTransform (getBasis a) (Vector3_add (getOrigin a) (getOrigin b));
  tf2_inverse := fun a => mkTransform (getBasis a) (Vector3_opp (getOrigin a));
  tf2_apply := fun a v => Vector3_add (getOrigin a) v;
  tf2_getRotation := fun _ => mkQuat dzero dzero dzero 1%float;
  tf2_of_quaternion := fun _ o => mkTransform Matrix3x3_identity o;
  cv_solvePnP := fun _ _ _ => (Vector3_zero, mkV3 dzero dzero 1%float);
  cv_solvePnPRansac := fun _ _ _ => (mkV3 1%float dzero dzero, mkV3 dzero dzero 1%float);
  cv_Rodrigues := fun _ => Matrix3x3_identity;
  gtsam_Rot3 := fun _ _ _ _ => mkRot3 Matrix3x3_identity;
  gtsam_toQuaternion := fun _ => mkQuat dzero dzero dzero 1%float;
  gtsam_optimize := fun _ initial => Some initial;
  gtsam_marginalCovariance := fun _ _ _ => Some (repeat 1%float 36);
  update_simple_average := fun a b _ => b
|}.

(** A factor between two variables. *)
Definition is_between (f : Factor) : bool :=
  match f with BetweenFactor _ _ _ _ => true | _ => false end.

(** The stand-in with an optimiser that throws on a graph with a between
    factor: the single-marker graphs are optimised, the joint graph is not. *)
Definition stand_in_joint_failure : External := {|
  static_cast_float := @static_cast_float stand_in;
  tf2_mul := @tf2_mul stand_in;
  tf2_inverse := @tf2_inverse stand_in;
  tf2_apply := @tf2_apply stand_in;
  tf2_getRotation := @tf2_getRotation stand_in;
  tf2_of_quaternion := @tf2_of_quaternion stand_in;
  cv_solvePnP := @cv_solvePnP stand_in;
  cv_solvePnPRansac := @cv_solvePnPRansac stand_in;
  cv_Rodrigues := @cv_Rodrigues stand_in;
  gtsam_Rot3 := @gtsam_Rot3 stand_in;
  gtsam_toQuaternion := @gtsam_toQuaternion stand_in;
  gtsam_optimize := fun g initial => if existsb is_between g then None else Some initial;
  gtsam_marginalCovariance := @gtsam_marginalCovariance stand_in;
  update_simple_average := @update_simple_average stand_in
|}.

(** Inputs on which statements are evaluated. *)
Definition observation_at (i : Z) (x y : double) : Observation :=
  mkObservation i x y (PrimFloat.add x 1%float) y
                (PrimFloat.add x 1%float) (PrimFloat.add y 1%float)
                x (PrimFloat.add y 1%float).

Definition camera_600 : CvCameraInfo :=
  mkCvCameraInfo [600%float; dzero; 320%float; dzero; 600%float; 240%float;
                  dzero; dzero; 1%float]
                 [dzero; dzero; dzero; dzero; dzero].

Definition sam_600 : SamFiducialMath := SamFiducialMath_new camera_600 0.5%float.

Definition identity_pose : TransformWithCovariance :=
  TWC_of_transform (mkTransform Matrix3x3_identity Vector3_zero).

(** A map with the fixed marker 0 at the origin. *)
Definition map_with_marker_0 : Map :=
  Map_add_marker (set_is_fixed true (Marker_new 0 identity_pose)) (Map_new covariance 0.125%float).

(** A marker that is not fixed, whose stored covariance is zero at (0,0) and one
    at (3,3), in a map of style [covariance]. *)
Definition cov_roll_only : cov_type := <[21%nat := 1%float]> cov_zero.

Definition marker_roll_only : Marker :=
  Marker_new 1 (TWC_of_transform_cov (mkTransform Matrix3x3_identity Vector3_zero) cov_roll_only).

Definition map_roll_only : Map := Map_add_marker marker_roll_only (Map_new covariance 0.125%float).

(** The configuration of style 2: build a map, wait for the first batch. *)
Definition cxt_style_2 : VmapContext :=
  mkVmapContext false 0.5%float 0.125%float 2 0 identity_pose true.

Definition first_batch : ObservationsMsg :=
  mkObservationsMsg
    (mkCameraInfoMsg [600%float; dzero; 320%float; dzero; 600%float; 240%float;
                      dzero; dzero; 1%float]
                     [dzero; dzero; dzero; dzero; dzero])
    [observation_at 5 380%float 180%float; observation_at 3 260%float 180%float].

(** A stand-in for yaml-cpp: a scalar is the [int] or the [double] that was
    written, or some other text, and reads as what it was written as; the
    stand-in of tf2 makes a pose of a position alone. *)
Inductive ScalarText :=
| TextInt (z : Z)
| TextDouble (d : double)
| TextWord (s : string).

Definition yaml_stand_in : YamlExternal := {|
  YamlScalar := ScalarText;
  emit_int := TextInt;
  emit_double := TextDouble;
  as_int := fun t =>
    match t with
    | TextInt z => if (- 2 ^ 31 <=? z) && (z <? 2 ^ 31) then Some z else None
    | _ => None
    end;
  as_double := fun t => match t with TextDouble d => Some d | _ => None end;
  tf2_getRPY := fun _ => (dzero, dzero, dzero);
  tf2_of_mu := fun mu =>
    mkTransform Matrix3x3_identity (mkV3 (nth 0 mu dzero) (nth 1 mu dzero) (nth 2 mu dzero))
|}.

Definition text_node (t : ScalarText) : YamlNode (Y := yaml_stand_in) :=
  YScalarNode (Y := yaml_stand_in) t.

(** A map file with the marker 0 at the origin, one whose marker_length is not
    a number, and one whose second marker has no id. *)
Definition marker_0_node : YamlNode (Y := yaml_stand_in) :=
  YMapping [("id"%string, text_node (TextInt 0));
            ("u"%string, text_node (TextInt 1));
            ("f"%string, text_node (TextInt 1));
            ("xyz"%string, YSequence [text_node (TextDouble 0); text_node (TextDouble 0);
                                      text_node (TextDouble 0)]);
            ("rpy"%string, YSequence [text_node (TextDouble 0); text_node (TextDouble 0);
                                      text_node (TextDouble 0)])].

Definition file_marker_0 : YamlNode (Y := yaml_stand_in) :=
  YMapping [("marker_length"%string, text_node (TextDouble 0.125));
            ("markers"%string, YSequence [marker_0_node])].

Definition file_bad_length : YamlNode (Y := yaml_stand_in) :=
  YMapping [("marker_length"%string, text_node (TextWord "long"));
            ("markers"%string, YSequence [marker_0_node])].

Definition file_bad_marker : YamlNode (Y := yaml_stand_in) :=
  YMapping [("marker_length"%string, text_node (TextDouble 0.125));
            ("markers"%string, YSequence [marker_0_node; YMapping []])].

(** What the file with the marker 0 reads as. *)
Definition map_pose_marker_0 : Map :=
  Map_add_marker (set_is_fixed true (Marker_new 0 identity_pose)) (Map_new pose 0.125%float).

(* ====================================================================== *)
(** ** The covariance conversions *)
(* ====================================================================== *)

Lemma length_36_inv {A} (l : list A) :
  length l = 36%nat ->
  exists a0 a1 a2 a3 a4 a5 a6 a7 a8 a9 a10 a11 a12 a13 a14 a15 a16 a17
         a18 a19 a20 a21 a22 a23 a24 a25 a26 a27 a28 a29 a30 a31 a32 a33 a34 a35,
    l = [a0; a1; a2; a3; a4; a5; a6; a7; a8; a9; a10; a11; a12; a13; a14; a15; a16; a17;
         a18; a19; a20; a21; a22; a23; a24; a25; a26; a27; a28; a29; a30; a31; a32; a33;
         a34; a35].
Proof.
  intros Hl.
  do 36 (destruct l as [|? l]; [discriminate Hl|]).
  destruct l; [|discriminate Hl].
  repeat eexists.
Qed.

(** The loops of [to_cov_sam] assign every entry: the result does not depend on
    the content of the matrix they start from. *)
Lemma to_cov_sam_into_any (M0 : Matrix6) (c : cov_type) :
  length M0 = 36%nat -> to_cov_sam_into M0 c = to_cov_sam c.
Proof.
  intros HM. destruct (length_36_inv M0 HM) as
    (a0&a1&a2&a3&a4&a5&a6&a7&a8&a9&a10&a11&a12&a13&a14&a15&a16&a17&a18&a19&a20&a21&a22&a23&
     a24&a25&a26&a27&a28&a29&a30&a31&a32&a33&a34&a35&->).
  reflexivity.
Qed.

(** Entry (0,0) of the converted matrix is entry (3,3) of the stored array. *)
Lemma to_cov_sam_0_0 (c : cov_type) :
  Matrix6_get (to_cov_sam c) 0 0 = cov_at c 21.
Proof. reflexivity. Qed.

(** Each entry (r, c) of the stored array lands at (ro r, ro c). *)
Lemma to_cov_sam_entry (c : cov_type) (r k : nat) :
  (r < 6)%nat -> (k < 6)%nat ->
  Matrix6_get (to_cov_sam c) (ro_at r) (ro_at k) = cov_at c (r * 6 + k).
Proof.
  intros Hr Hk.
  do 6 (destruct r as [|r]; [do 6 (destruct k as [|k]; [reflexivity|]); lia|]); lia.
Qed.

(** C9: for every 36-entry covariance array and every pose, [to_cov_type]
    after [to_cov_sam] gives the array back exactly; the table [3,4,5,0,1,2]
    is its own inverse. *)
Theorem to_cov_type_to_cov_sam (c : cov_type) (sam_pose : Pose3) :
  length c = 36%nat ->
  to_cov_type sam_pose (to_cov_sam c) = c /\
  (forall i, (i < 6)%nat -> ro_at (ro_at i) = i).
Proof.
  intros Hc. split.
  - destruct (length_36_inv c Hc) as
      (a0&a1&a2&a3&a4&a5&a6&a7&a8&a9&a10&a11&a12&a13&a14&a15&a16&a17&a18&a19&a20&a21&a22&a23&
       a24&a25&a26&a27&a28&a29&a30&a31&a32&a33&a34&a35&->).
    reflexivity.
  - intros i Hi. do 6 (destruct i as [|i]; [reflexivity|]). lia.
Qed.

Lemma to_cov_type_to_cov_sam_witness :
  length (map (fun i => PrimFloat.of_uint63 (Uint63.of_Z (Z.of_nat i))) (seq 0 36)) = 36%nat /\
  to_cov_type (mkPose3 (mkRot3 Matrix3x3_identity) Vector3_zero)
    (to_cov_sam (map (fun i => PrimFloat.of_uint63 (Uint63.of_Z (Z.of_nat i))) (seq 0 36)))
  = map (fun i => PrimFloat.of_uint63 (Uint63.of_Z (Z.of_nat i))) (seq 0 36).
Proof.
  split; [reflexivity|].
  apply (to_cov_type_to_cov_sam _ _). reflexivity.
Defined.

(* ====================================================================== *)
(** ** Reasoning about [M] *)
(* ====================================================================== *)

Lemma bind_run {A B} (c : M A) (k : A -> M B) (s : State) :
  bind c k s = match c s with
               | (Ok a, s') => k a s'
               | (Raise f, s') => (Raise f, s')
               end.
Proof. reflexivity. Qed.

Lemma bind_Ok_inv {A B} (c : M A) (k : A -> M B) (s s' : State) (b : B) :
  bind c k s = (Ok b, s') ->
  exists a s1, c s = (Ok a, s1) /\ k a s1 = (Ok b, s').
Proof.
  rewrite bind_run. destruct (c s) as [[a|f] s1]; intros Hk.
  - exists a, s1. split; [reflexivity|exact Hk].
  - discriminate Hk.
Qed.

Lemma bind_Ok {A B} (c : M A) (k : A -> M B) (s s1 : State) (a : A) :
  c s = (Ok a, s1) -> bind c k s = k a s1.
Proof. intros Hc. rewrite bind_run, Hc. reflexivity. Qed.

Lemma bind_Raise {A B} (c : M A) (k : A -> M B) (s s1 : State) (f : Fault) :
  c s = (Raise f, s1) -> bind c k s = (Raise f, s1).
Proof. intros Hc. rewrite bind_run, Hc. reflexivity. Qed.

(** The constructor of [CvCameraInfo] returns the matrices of the message when
    the message has five distortion coefficients, and reads beyond the end of
    [msg.d] when it has fewer; it leaves the state as it is. *)
Lemma CvCameraInfo_of_msg_run (msg : CameraInfoMsg) (s : State) :
  CvCameraInfo_of_msg msg s
  = if (5 <=? length (msg_d msg))%nat
    then (Ok (CvCameraInfo_read msg), s)
    else (Raise OutOfRangeRead, s).
Proof.
  unfold CvCameraInfo_of_msg, CvCameraInfo_read, vector_at, msg_at.
  destruct (msg_d msg) as [|d0 [|d1 [|d2 [|d3 [|d4 d]]]]]; reflexivity.
Qed.

(** The callback up to the construction of the camera. *)
Ltac callback_camera :=
  unfold observations_callback; rewrite bind_run; unfold count_callback;
  cbv beta iota zeta; rewrite bind_run, CvCameraInfo_of_msg_run.

(** A relation between the state before and after a call that every step of
    the call respects. *)
Section Keeps.
Context (R : State -> State -> Prop) `{!PreOrder R}.

Lemma keeps_CvCameraInfo_of_msg {B} (msg : CameraInfoMsg) (k : CvCameraInfo -> M B) :
  keeps R (k (CvCameraInfo_read msg)) -> keeps R (bind (CvCameraInfo_of_msg msg) k).
Proof.
  intros Hk s. rewrite bind_run, CvCameraInfo_of_msg_run.
  destruct (5 <=? length (msg_d msg))%nat; simpl; [apply Hk|reflexivity].
Qed.

Lemma keeps_ret {A} (a : A) : keeps R (ret a).
Proof. intros s. reflexivity. Qed.

Lemma keeps_raise {A} (f : Fault) : keeps R (@raise A f).
Proof. intros s. reflexivity. Qed.

Lemma keeps_bind {A B} (c : M A) (k : A -> M B) :
  keeps R c -> (forall a, keeps R (k a)) -> keeps R (bind c k).
Proof.
  intros Hc Hk s. rewrite bind_run.
  specialize (Hc s). destruct (c s) as [[a|f] s1]; simpl in *.
  - transitivity s1; [exact Hc|apply Hk].
  - exact Hc.
Qed.

Lemma keeps_forM_ {A} (l : list A) (body : A -> M unit) :
  (forall a, a ∈ l -> keeps R (body a)) -> keeps R (forM_ l body).
Proof.
  induction l as [|a l IH]; intros Hb; simpl.
  - apply keeps_ret.
  - apply keeps_bind.
    + apply Hb. left.
    + intros _. apply IH. intros a' Ha'. apply Hb. right. exact Ha'.
Qed.

Lemma keeps_foldM {A B} (body : B -> A -> M B) (l : list A) (b : B) :
  (forall b' a, keeps R (body b' a)) -> keeps R (foldM body l b).
Proof.
  intros Hb. revert b. induction l as [|a l IH]; intros b; simpl.
  - apply keeps_ret.
  - apply keeps_bind; [apply Hb|]. intros b'. apply IH.
Qed.
End Keeps.

#[local] Instance same_map_preorder : PreOrder same_map.
Proof.
  split.
  - intros s. split; reflexivity.
  - intros a b c [H1 H2] [H3 H4]. split; congruence.
Qed.

#[local] Instance fixed_kept_preorder : PreOrder fixed_kept.
Proof.
  split.
  - intros s m i mk Hm Hi Hf. exists m. split; assumption.
  - intros a b c Hab Hbc m i mk Hm Hi Hf.
    destruct (Hab m i mk Hm Hi Hf) as (m1 & Hm1 & Hi1).
    exact (Hbc m1 i mk Hm1 Hi1 Hf).
Qed.

Lemma same_map_fixed_kept (s s' : State) : same_map s s' -> fixed_kept s s'.
Proof.
  intros [Hm _] m i mk Hs Hi Hf. exists m. split; [congruence|exact Hi].
Qed.

Lemma keeps_same_map_fixed_kept {A} (c : M A) : keeps same_map c -> keeps fixed_kept c.
Proof. intros Hc s. apply same_map_fixed_kept, Hc. Qed.

Create HintDb keeps.

Ltac keeps_step :=
  lazymatch goal with
  | |- keeps _ (bind _ _) => apply keeps_bind; [exact _| |intros ?]
  | |- keeps _ (ret _) => apply keeps_ret; exact _
  | |- keeps _ (raise _) => apply keeps_raise; exact _
  | |- keeps _ (foldM _ _ _) => apply keeps_foldM; [exact _|intros ? ?]
  | |- keeps _ (match ?x with _ => _ end) => destruct x
  | |- _ => solve [auto with keeps]
  end.

Ltac keeps_tac := repeat keeps_step.

Section SolversKeepMap.
Context `{External}.

Lemma keeps_emit (e : Event) : keeps same_map (emit e).
Proof. intros s. split; reflexivity. Qed.

Lemma keeps_get_map : keeps same_map get_map.
Proof. intros s. unfold get_map. destruct (map_ s); split; reflexivity. Qed.

Lemma keeps_map_is_null : keeps same_map map_is_null.
Proof. intros s. split; reflexivity. Qed.

Lemma keeps_Values_insert k p v : keeps same_map (Values_insert k p v).
Proof. unfold Values_insert. keeps_tac. Qed.

Lemma keeps_Values_at v k : keeps same_map (Values_at v k).
Proof. unfold Values_at. keeps_tac. Qed.

Hint Resolve keeps_emit keeps_get_map keeps_map_is_null keeps_Values_insert keeps_Values_at : keeps.

Lemma keeps_solvePnP c3 c2 ci : keeps same_map (solvePnP c3 c2 ci).
Proof. unfold solvePnP. keeps_tac. Qed.

Lemma keeps_solvePnPRansac c3 c2 ci : keeps same_map (solvePnPRansac c3 c2 ci).
Proof. unfold solvePnPRansac. keeps_tac. Qed.

Hint Resolve keeps_solvePnP keeps_solvePnPRansac : keeps.

Lemma keeps_cv_solve_t_camera_marker ci o L :
  keeps same_map (cv_solve_t_camera_marker ci o L).
Proof. unfold cv_solve_t_camera_marker. keeps_tac. Qed.

Lemma keeps_cv_solve_t_map_camera ci obs : keeps same_map (cv_solve_t_map_camera ci obs).
Proof. unfold cv_solve_t_map_camera. keeps_tac. Qed.

Lemma keeps_optimize g i : keeps same_map (optimize g i).
Proof. unfold optimize. keeps_tac. Qed.

Lemma keeps_extract g r k : keeps same_map (extract_transform_with_covariance g r k).
Proof. unfold extract_transform_with_covariance. keeps_tac. Qed.

Hint Resolve keeps_cv_solve_t_camera_marker keeps_cv_solve_t_map_camera
  keeps_optimize keeps_extract : keeps.

Lemma keeps_solve_camera_f_marker sam o L :
  keeps same_map (solve_camera_f_marker sam o L).
Proof. unfold solve_camera_f_marker. keeps_tac. Qed.

Hint Resolve keeps_solve_camera_f_marker : keeps.

Lemma keeps_load_graph_step sam t ck add gi o :
  keeps same_map (load_graph_step sam t ck add gi o).
Proof. unfold load_graph_step. keeps_tac. Qed.

Hint Resolve keeps_load_graph_step : keeps.

Lemma keeps_load_graph_from_observations sam t obs ck add :
  keeps same_map (load_graph_from_observations sam t obs ck add).
Proof. unfold load_graph_from_observations. keeps_tac. Qed.

Hint Resolve keeps_load_graph_from_observations : keeps.

Lemma keeps_sam_solve_t_map_camera sam obs :
  keeps same_map (sam_solve_t_map_camera sam obs).
Proof. unfold sam_solve_t_map_camera. keeps_tac. Qed.

Lemma keeps_solve_t_map_camera fm obs : keeps same_map (solve_t_map_camera fm obs).
Proof.
  unfold solve_t_map_camera.
  destruct (sam_not_cv_ fm); [apply keeps_sam_solve_t_map_camera|apply keeps_cv_solve_t_map_camera].
Qed.

End SolversKeepMap.

(* ====================================================================== *)
(** ** No-op cases of the factor-graph update and of the callback *)
(* ====================================================================== *)

Section Guards.
Context `{External}.

Lemma sam_update_map_guard (sam : SamFiducialMath) (t_map_camera : TransformWithCovariance)
    (observations : Observations) (s : State) :
  negb (is_valid t_map_camera) || (length observations <? 2)%nat = true ->
  sam_update_map sam t_map_camera observations s = (Ok tt, s).
Proof. intros Hg. unfold sam_update_map. rewrite Hg. reflexivity. Qed.

Lemma observations_callback_lt2 (cxt_ : VmapContext) (msg : ObservationsMsg)
    (m : Map) (n : Z) (tr : list Event) :
  (length (msg_observations msg) <? 2)%nat = true ->
  observations_callback cxt_ msg (mkState (Some m) n tr)
  = (if (5 <=? length (msg_d (msg_camera_info msg)))%nat then Ok tt else Raise OutOfRangeRead,
     mkState (Some m) (wrap_int (n + 1)) tr).
Proof.
  intros Hl. callback_camera.
  destruct (5 <=? length (msg_d (msg_camera_info msg)))%nat; [|reflexivity].
  simpl. rewrite !bind_run. simpl. rewrite Hl. reflexivity.
Qed.

(** What a run of the callback gives when it leaves the node as it was, but
    for the counter: it returns when the camera message has its five distortion
    coefficients, and has read beyond the end of them when not. *)
Lemma only_counted (r : Res unit * State) (d : list double) (s : State) :
  r = (if (5 <=? length d)%nat then Ok tt else Raise OutOfRangeRead, s) ->
  snd r = s /\
  ((5 <= length d)%nat -> fst r = Ok tt) /\
  ((length d < 5)%nat -> fst r = Raise OutOfRangeRead).
Proof.
  intros ->. split; [reflexivity|]. split; intros Hd; cbn [fst].
  - apply Nat.leb_le in Hd. rewrite Hd. reflexivity.
  - apply Nat.leb_gt in Hd. rewrite Hd. reflexivity.
Qed.

(** C6: the factor-graph [update_map] with an invalid [t_map_camera] or fewer
    than two observations returns at once: the state (the map with every
    marker, and the trace of solver calls) is what it was. *)
Theorem sam_update_map_noop (sam : SamFiducialMath) (t_map_camera : TransformWithCovariance)
    (observations : Observations) (s : State) :
  is_valid t_map_camera = false \/ (length observations < 2)%nat ->
  sam_update_map sam t_map_camera observations s = (Ok tt, s).
Proof.
  intros Hguard. apply sam_update_map_guard.
  destruct Hguard as [Hv|Hl].
  - rewrite Hv. reflexivity.
  - apply Nat.ltb_lt in Hl. rewrite Hl. apply orb_true_r.
Qed.

(** The geometric [update_map] on a single observation calls the iterative
    solver once, and so leaves an event in the trace. *)
Lemma cv_update_map_single (ci : CvCameraInfo) (t_map_camera : TransformWithCovariance)
    (o : Observation) (m : Map) (n : Z) (tr : list Event) :
  exists m',
    cv_update_map ci t_map_camera [o] (mkState (Some m) n tr)
    = (Ok tt, mkState (Some m') n
                (tr ++ [EvSolvePnP (append_corners_f_marker (marker_length m) [])
                                   (append_corners_f_image o [])])).
Proof.
  unfold cv_update_map, forM_, cv_solve_t_camera_marker, update_marker_simple_average,
    solvePnP.
  rewrite !bind_run. simpl.
  destruct (cv_solvePnP (append_corners_f_marker (marker_length m) [])
              (append_corners_f_image o []) ci) as [rvec tvec]. simpl.
  destruct (Map_find_marker m (obs_id o)) as [marker|]; simpl.
  - destruct (is_fixed marker); simpl; eauto.
  - eauto.
Qed.

(** C10: a batch of fewer than two observations that arrives when the map
    exists only counts the callback: whatever the camera message is, no solver
    runs (the trace is unchanged) and the map is unchanged, whichever backend is
    configured.  The callback returns when the camera message has its five
    distortion coefficients; with fewer, the constructor of the camera reads
    beyond the end of them before the batch is looked at.  In particular the
    geometric map update of a single marker was not reached: it would have left
    a solver call in the trace. *)
Theorem observations_callback_small_batch (cxt_ : VmapContext) (msg : ObservationsMsg)
    (m : Map) (n : Z) (tr : list Event) :
  (length (msg_observations msg) < 2)%nat ->
  (snd (observations_callback cxt_ msg (mkState (Some m) n tr))
     = mkState (Some m) (wrap_int (n + 1)) tr /\
   ((5 <= length (msg_d (msg_camera_info msg)))%nat ->
    fst (observations_callback cxt_ msg (mkState (Some m) n tr)) = Ok tt) /\
   ((length (msg_d (msg_camera_info msg)) < 5)%nat ->
    fst (observations_callback cxt_ msg (mkState (Some m) n tr)) = Raise OutOfRangeRead)) /\
  (forall ci t_map_camera o,
     trace (snd (cv_update_map ci t_map_camera [o] (mkState (Some m) (wrap_int (n + 1)) tr)))
     <> tr).
Proof.
  intros Hl. split.
  - apply only_counted, observations_callback_lt2. apply Nat.ltb_lt. exact Hl.
  - intros ci t o Heq.
    destruct (cv_update_map_single ci t o m (wrap_int (n + 1)) tr) as (m' & Hrun).
    rewrite Hrun in Heq. simpl in Heq.
    apply (f_equal (@length Event)) in Heq. rewrite length_app in Heq. simpl in Heq. lia.
Qed.

End Guards.

Lemma sam_update_map_noop_witness :
  sam_update_map (H := stand_in) sam_600 identity_pose [observation_at 0 260%float 180%float]
                 (mkState (Some map_with_marker_0) 0 [])
  = (Ok tt, mkState (Some map_with_marker_0) 0 []).
Proof.
  apply (sam_update_map_noop (H := stand_in)). right. simpl. lia.
Defined.

Lemma observations_callback_small_batch_witness :
  snd (observations_callback (H := stand_in)
         (mkVmapContext false 0.5%float 0.125%float 1 0 identity_pose true)
         (mkObservationsMsg (msg_camera_info first_batch) [observation_at 0 260%float 180%float])
         (mkState (Some map_with_marker_0) 0 []))
  = mkState (Some map_with_marker_0) (wrap_int (0 + 1)) [] /\
  fst (observations_callback (H := stand_in)
         (mkVmapContext false 0.5%float 0.125%float 1 0 identity_pose true)
         (mkObservationsMsg (msg_camera_info first_batch) [observation_at 0 260%float 180%float])
         (mkState (Some map_with_marker_0) 0 []))
  = Ok tt.
Proof.
  destruct (observations_callback_small_batch (H := stand_in)
              (mkVmapContext false 0.5%float 0.125%float 1 0 identity_pose true)
              (mkObservationsMsg (msg_camera_info first_batch)
                 [observation_at 0 260%float 180%float])
              map_with_marker_0 0 []) as [(Hstate & Hok & _) _].
  - simpl. lia.
  - split; [exact Hstate|]. apply Hok. simpl. lia.
Defined.

(* ====================================================================== *)
(** ** Localisation when no observed marker is known *)
(* ====================================================================== *)

Section NoKnownMarkers.
Context `{External}.

Lemma all_corners_unknown_acc (L : double) (observations : Observations)
    (acc : list Vector3 * list Point2) :
  fold_left
    (fun acc ot =>
       let '(all_corners_f_map, all_corners_f_image) := acc in
       let '(observation, t_map_marker) := ot in
       if is_valid t_map_marker
       then (append_corners_f_map t_map_marker L all_corners_f_map,
             append_corners_f_image observation all_corners_f_image)
       else acc)
    (combine observations (map (fun _ : Observation => TWC_default) observations)) acc
  = acc.
Proof.
  revert acc. induction observations as [|o obs IH]; intros [c3 c2]; simpl.
  - reflexivity.
  - apply IH.
Qed.

Lemma find_t_map_markers_unknown (m : Map) (observations : Observations) :
  (forall o, o ∈ observations -> Map_find_marker m (obs_id o) = None) ->
  Map_find_t_map_markers m observations = map (fun _ => TWC_default) observations.
Proof.
  intros Hu. unfold Map_find_t_map_markers.
  induction observations as [|o obs IH]; simpl.
  - reflexivity.
  - rewrite (Hu o) by left. f_equal. apply IH. intros o' Ho'. apply Hu. right. exact Ho'.
Qed.

Lemma cv_solve_t_map_camera_unknown (ci : CvCameraInfo) (observations : Observations)
    (m : Map) (n : Z) (tr : list Event) :
  (forall o, o ∈ observations -> Map_find_marker m (obs_id o) = None) ->
  cv_solve_t_map_camera ci observations (mkState (Some m) n tr)
  = (Ok TWC_default, mkState (Some m) n tr).
Proof.
  intros Hu. unfold cv_solve_t_map_camera. rewrite bind_run. simpl.
  rewrite (find_t_map_markers_unknown m observations Hu).
  unfold all_corners. rewrite all_corners_unknown_acc. reflexivity.
Qed.

Lemma solve_t_map_camera_unknown (fm : FiducialMath) (observations : Observations)
    (m : Map) (n : Z) (tr : list Event) :
  (forall o, o ∈ observations -> Map_find_marker m (obs_id o) = None) ->
  solve_t_map_camera fm observations (mkState (Some m) n tr)
  = (Ok TWC_default, mkState (Some m) n tr).
Proof.
  intros Hu. unfold solve_t_map_camera. destruct (sam_not_cv_ fm).
  - unfold sam_solve_t_map_camera.
    rewrite (bind_Ok _ _ _ _ _ (cv_solve_t_map_camera_unknown _ _ m n tr Hu)).
    reflexivity.
  - apply cv_solve_t_map_camera_unknown. exact Hu.
Qed.

(** The node asks for a map update only with a valid camera pose: a batch
    whose markers are all unknown leaves the map as it is, with either backend,
    and runs no solver. *)
Lemma observations_callback_unknown (cxt_ : VmapContext) (msg : ObservationsMsg)
    (m : Map) (n : Z) (tr : list Event) :
  (forall o, o ∈ msg_observations msg -> Map_find_marker m (obs_id o) = None) ->
  observations_callback cxt_ msg (mkState (Some m) n tr)
  = (if (5 <=? length (msg_d (msg_camera_info msg)))%nat then Ok tt else Raise OutOfRangeRead,
     mkState (Some m) (wrap_int (n + 1)) tr).
Proof.
  intros Hu.
  destruct (Nat.ltb (length (msg_observations msg)) 2) eqn:Hl.
  - apply observations_callback_lt2. exact Hl.
  - callback_camera.
    destruct (5 <=? length (msg_d (msg_camera_info msg)))%nat; [|reflexivity].
    simpl. rewrite !bind_run. simpl. rewrite Hl.
    rewrite bind_run. simpl.
    rewrite (bind_Ok _ _ _ _ _ (solve_t_map_camera_unknown _ _ m _ tr Hu)).
    reflexivity.
Qed.

(** C3, amended: when no observation's marker is in the map, localisation
    (either backend) returns the default, invalid pose without running a solver;
    with an invalid pose the factor-graph [update_map] changes nothing; the
    geometric [update_map] has no such test, the test is in the node's callback,
    which on such a batch leaves the map unchanged with either backend,
    whatever the camera message is, and returns when the camera message has its
    five distortion coefficients. *)
Theorem no_known_markers_short_circuit (fm : FiducialMath) (cxt_ : VmapContext)
    (ci : CameraInfoMsg) (observations batch : Observations) (m : Map) (n : Z)
    (tr : list Event) (v : TransformWithCovariance) (s : State) :
  (forall o, o ∈ observations -> Map_find_marker m (obs_id o) = None) ->
  is_valid v = false ->
  solve_t_map_camera fm observations (mkState (Some m) n tr)
    = (Ok TWC_default, mkState (Some m) n tr) /\
  is_valid TWC_default = false /\
  sam_update_map (sam_ fm) v batch s = (Ok tt, s) /\
  snd (observations_callback cxt_ (mkObservationsMsg ci observations) (mkState (Some m) n tr))
    = mkState (Some m) (wrap_int (n + 1)) tr /\
  ((5 <= length (msg_d ci))%nat ->
   fst (observations_callback cxt_ (mkObservationsMsg ci observations) (mkState (Some m) n tr))
     = Ok tt).
Proof.
  intros Hu Hv.
  split; [apply solve_t_map_camera_unknown; exact Hu|].
  split; [reflexivity|].
  split; [apply sam_update_map_guard; rewrite Hv; reflexivity|].
  destruct (only_counted _ (msg_d ci) _
              (observations_callback_unknown cxt_ (mkObservationsMsg ci observations)
                 m n tr Hu)) as (Hstate & Hok & _).
  split; [exact Hstate|exact Hok].
Qed.

End NoKnownMarkers.

(** C3 as stated fails: the geometric [update_map], given the invalid default
    pose and one observation of the unknown marker 7, inserts marker 7. *)
Lemma update_map_invalid_pose_counterexample :
  is_valid TWC_default = false /\
  marker_in (mkState (Some map_with_marker_0) 0 []) 7 = None /\
  marker_in
    (snd (update_map (H := stand_in) (FiducialMath_new false 0.5%float camera_600)
            TWC_default [observation_at 7 260%float 180%float]
            (mkState (Some map_with_marker_0) 0 []))) 7
  = Some (Marker_new 7 (TWC_of_transform
            (mkTransform Matrix3x3_zero (mkV3 dzero dzero 1%float)))).
Proof. vm_compute. repeat split. Qed.

Lemma no_known_markers_short_circuit_witness :
  solve_t_map_camera (H := stand_in) (FiducialMath_new true 0.5%float camera_600)
    [observation_at 7 260%float 180%float] (mkState (Some map_with_marker_0) 0 [])
  = (Ok TWC_default, mkState (Some map_with_marker_0) 0 []).
Proof.
  refine (proj1 (no_known_markers_short_circuit (H := stand_in)
                   (FiducialMath_new true 0.5%float camera_600)
                   (mkVmapContext true 0.5%float 0.125%float 1 0 identity_pose true)
                   (msg_camera_info first_batch) [observation_at 7 260%float 180%float] []
                   map_with_marker_0 0 [] TWC_default (mkState None 0 []) _ _)).
  - intros o Ho. apply list_elem_of_singleton in Ho. subst o. reflexivity.
  - reflexivity.
Defined.

(* ====================================================================== *)
(** ** Fixed markers are never written *)
(* ====================================================================== *)

Section FixedMarkers.
Context `{External}.

Lemma modify_map_run (g : Map -> Map) (m : Map) (n : Z) (tr : list Event) :
  modify_map g (mkState (Some m) n tr) = (Ok tt, mkState (Some (g m)) n tr).
Proof. reflexivity. Qed.

(** Inserting a marker leaves the markers already in the map as they are. *)
Lemma Map_add_marker_lookup (new : Marker) (m : Map) (i : Z) (mk : Marker) :
  markers m !! i = Some mk -> markers (Map_add_marker new m) !! i = Some mk.
Proof.
  intros Hi. unfold Map_add_marker.
  destruct (markers m !! marker_id new) eqn:Hnew; [exact Hi|].
  simpl. rewrite lookup_insert_ne; [exact Hi|].
  intros Heq. rewrite Heq in Hnew. congruence.
Qed.

(** Writing through the pointer to a marker that is not fixed leaves the fixed
    markers as they are. *)
Lemma Map_update_marker_lookup (key : Z) (f : Marker -> Marker) (m : Map) (existing : Marker)
    (i : Z) (mk : Marker) :
  markers m !! key = Some existing -> is_fixed existing = false ->
  markers m !! i = Some mk -> is_fixed mk = true ->
  markers (Map_update_marker key f m) !! i = Some mk.
Proof.
  intros Hkey Hnf Hi Hf. unfold Map_update_marker. simpl.
  rewrite lookup_alter_ne; [exact Hi|].
  intros Heq. rewrite Heq in Hkey. congruence.
Qed.

Lemma modify_map_fixed_kept (g : Map -> Map) (s : State) :
  (forall m i mk, map_ s = Some m -> markers m !! i = Some mk -> is_fixed mk = true ->
                  markers (g m) !! i = Some mk) ->
  fixed_kept s (snd (modify_map g s)).
Proof.
  intros Hg m i mk Hm Hi Hf. unfold modify_map. rewrite Hm. simpl.
  exists (g m). split; [reflexivity|]. exact (Hg m i mk Hm Hi Hf).
Qed.

(** The write of one observation, once the pose to write is known: the two
    backends differ in the pose and in how they write it. *)
Lemma write_fixed_kept (key : Z) (new : Marker) (f : Marker -> Marker -> Marker)
    (s0 s : State) (m : Map) :
  map_ s0 = Some m -> same_map s0 s ->
  fixed_kept s0
    (snd (match Map_find_marker m key with
          | Some marker =>
            if negb (is_fixed marker)
            then modify_map (Map_update_marker key (f marker))
            else ret tt
          | None => modify_map (Map_add_marker new)
          end s)).
Proof.
  intros Hm0 Hsame.
  assert (Hms : map_ s = Some m) by (destruct Hsame as [-> _]; exact Hm0).
  transitivity s; [apply same_map_fixed_kept; exact Hsame|].
  unfold Map_find_marker. destruct (markers m !! key) as [marker|] eqn:Hkey.
  - destruct (is_fixed marker) eqn:Hfix; simpl.
    + reflexivity.
    + apply modify_map_fixed_kept. intros m' i mk Hm' Hi Hf.
      assert (m' = m) by congruence. subst m'.
      exact (Map_update_marker_lookup key (f marker) m marker i mk Hkey Hfix Hi Hf).
  - apply modify_map_fixed_kept. intros m' i mk _ Hi _.
    apply Map_add_marker_lookup. exact Hi.
Qed.

Lemma keeps_cv_update_map (ci : CvCameraInfo) (t_map_camera : TransformWithCovariance)
    (observations : Observations) :
  keeps fixed_kept (cv_update_map ci t_map_camera observations).
Proof.
  unfold cv_update_map. apply keeps_forM_; [exact _|]. intros o _ s.
  rewrite bind_run. unfold get_map at 1.
  destruct (map_ s) as [m|] eqn:Hm; [|reflexivity].
  rewrite bind_run.
  pose proof (keeps_cv_solve_t_camera_marker ci o (marker_length m) s) as Hsame.
  destruct (cv_solve_t_camera_marker ci o (marker_length m) s) as [[t|f] s1]; simpl in Hsame.
  - unfold update_marker_simple_average.
    apply (write_fixed_kept (obs_id o) _
             (fun marker mk =>
                set_update_count (wrap_int (update_count marker + 1))
                  (set_t_map_marker
                     (update_simple_average (t_map_marker marker)
                        (TWC_of_transform (tf2_mul (transform t_map_camera) (transform t)))
                        (update_count marker)) mk))
             s s1 m Hm Hsame).
  - apply same_map_fixed_kept. exact Hsame.
Qed.

Lemma keeps_sam_write_back (graph : NonlinearFactorGraph) (result : Values)
    (observations : Observations) :
  keeps fixed_kept (sam_write_back graph result observations).
Proof.
  unfold sam_write_back. apply keeps_forM_; [exact _|]. intros o _ s.
  rewrite bind_run.
  pose proof (keeps_extract graph result (marker_key_of o) s) as Hsame.
  destruct (extract_transform_with_covariance graph result (marker_key_of o) s)
    as [[t|f] s1]; simpl in Hsame.
  - rewrite bind_run. unfold get_map at 1.
    destruct (map_ s1) as [m|] eqn:Hm1.
    + transitivity s1; [apply same_map_fixed_kept; exact Hsame|].
      apply (write_fixed_kept (obs_id o) _
               (fun _ mk => set_update_count (wrap_int (update_count mk + 1))
                              (set_t_map_marker t mk))
               s1 s1 m Hm1).
      reflexivity.
    + apply same_map_fixed_kept. exact Hsame.
  - apply same_map_fixed_kept. exact Hsame.
Qed.

Lemma keeps_sam_update_map (sam : SamFiducialMath) (t_map_camera : TransformWithCovariance)
    (observations : Observations) :
  keeps fixed_kept (sam_update_map sam t_map_camera observations).
Proof.
  unfold sam_update_map.
  destruct (negb (is_valid t_map_camera) || (length observations <? 2)%nat).
  - apply keeps_ret. exact _.
  - apply keeps_bind; [exact _| |].
    + apply keeps_same_map_fixed_kept, keeps_load_graph_from_observations.
    + intros [graph initial]. apply keeps_bind; [exact _| |].
      * apply keeps_same_map_fixed_kept, keeps_optimize.
      * intros result. apply keeps_sam_write_back.
Qed.

Lemma keeps_update_map (fm : FiducialMath) (t_map_camera : TransformWithCovariance)
    (observations : Observations) :
  keeps fixed_kept (update_map fm t_map_camera observations).
Proof.
  unfold update_map. destruct (sam_not_cv_ fm).
  - apply keeps_sam_update_map.
  - apply keeps_cv_update_map.
Qed.

(** C7: a marker that is fixed is in the map after any sequence of
    [update_map] calls on either backend exactly as it was before: same pose,
    same covariance, same update count (and still fixed).  This holds too when
    a call of the sequence ends in an exception. *)
Theorem fixed_markers_are_immutable
    (calls : list (FiducialMath * TransformWithCovariance * Observations))
    (m : Map) (n : Z) (tr : list Event) (i : Z) (mk : Marker) :
  markers m !! i = Some mk -> is_fixed mk = true ->
  exists m', map_ (snd (update_map_calls calls (mkState (Some m) n tr))) = Some m' /\
             markers m' !! i = Some mk.
Proof.
  intros Hi Hf.
  assert (Hk : keeps fixed_kept (update_map_calls calls)).
  { unfold update_map_calls. apply keeps_forM_; [exact _|].
    intros call _. apply keeps_update_map. }
  exact (Hk (mkState (Some m) n tr) m i mk eq_refl Hi Hf).
Qed.

End FixedMarkers.

Lemma fixed_markers_are_immutable_witness :
  exists m',
    map_ (snd (update_map_calls (H := stand_in)
                 [ (FiducialMath_new false 0.5%float camera_600, identity_pose,
                    [observation_at 0 260%float 180%float; observation_at 1 380%float 180%float]);
                   (FiducialMath_new true 0.5%float camera_600, identity_pose,
                    [observation_at 0 260%float 180%float; observation_at 1 380%float 180%float]) ]
                 (mkState (Some map_with_marker_0) 0 []))) = Some m' /\
    markers m' !! 0 = Some (set_is_fixed true (Marker_new 0 identity_pose)).
Proof.
  apply (fixed_markers_are_immutable (H := stand_in)); reflexivity.
Defined.

(* ====================================================================== *)
(** ** The mirror-solution guard of the geometric localisation *)
(* ====================================================================== *)

Section MirrorGuard.
Context `{External}.

Lemma all_corners_acc_lengths (L : double) (l : list (Observation * TransformWithCovariance))
    (acc : list Vector3 * list Point2) :
  length (fst acc) = length (snd acc) ->
  let r := fold_left
    (fun acc ot =>
       let '(all_corners_f_map, all_corners_f_image) := acc in
       let '(observation, t_map_marker) := ot in
       if is_valid t_map_marker
       then (append_corners_f_map t_map_marker L all_corners_f_map,
             append_corners_f_image observation all_corners_f_image)
       else acc) l acc in
  length (fst r) = length (snd r).
Proof.
  revert acc. induction l as [|[o t] l IH]; intros [c3 c2] Hacc; simpl in *.
  - exact Hacc.
  - destruct (is_valid t); apply IH; simpl; [|exact Hacc].
    unfold append_corners_f_map, append_corners_f_image.
    rewrite !length_app. simpl. lia.
Qed.

Lemma all_corners_lengths (L : double) (observations : Observations)
    (t_map_markers : list TransformWithCovariance) :
  length (fst (all_corners L observations t_map_markers))
  = length (snd (all_corners L observations t_map_markers)).
Proof. unfold all_corners. apply all_corners_acc_lengths. reflexivity. Qed.

Lemma very_different_iff (rvec rvecRansac : Vector3) :
  very_different rvec rvecRansac = true <->
  PrimFloat.ltb dhalf (PrimFloat.abs (PrimFloat.sub (vx rvec) (vx rvecRansac))) = true \/
  PrimFloat.ltb dhalf (PrimFloat.abs (PrimFloat.sub (vy rvec) (vy rvecRansac))) = true \/
  PrimFloat.ltb dhalf (PrimFloat.abs (PrimFloat.sub (vz rvec) (vz rvecRansac))) = true.
Proof.
  unfold very_different, differs_by_more_than_half.
  rewrite !orb_true_iff. tauto.
Qed.

(** C5: with N image corners collected from the known markers, when
    4 < N < 16 the geometric [solve_t_map_camera] runs the RANSAC solver after
    the iterative one on the same correspondences and returns the pose of the
    RANSAC solution exactly when some component of the two rotation vectors
    differs by more than 0.5 in absolute value, else the pose of the iterative
    solution; for any other N > 0 (N = 4, N >= 16) only the iterative solver
    runs and its solution is used. *)
Theorem mirror_solution_guard (ci : CvCameraInfo) (observations : Observations)
    (m : Map) (n : Z) (tr : list Event) :
  let corners := all_corners (marker_length m) observations
                             (Map_find_t_map_markers m observations) in
  let N := length (snd corners) in
  let iterative := cv_solvePnP (fst corners) (snd corners) ci in
  let ransac := cv_solvePnPRansac (fst corners) (snd corners) ci in
  ((4 < N < 16)%nat ->
   cv_solve_t_map_camera ci observations (mkState (Some m) n tr)
   = (Ok (pose_of_solution
            (if very_different (fst iterative) (fst ransac) then ransac else iterative)),
      mkState (Some m) n
        (tr ++ [EvSolvePnP (fst corners) (snd corners);
                EvSolvePnPRansac (fst corners) (snd corners)]))) /\
  ((0 < N)%nat -> (N <= 4 \/ 16 <= N)%nat ->
   cv_solve_t_map_camera ci observations (mkState (Some m) n tr)
   = (Ok (pose_of_solution iterative),
      mkState (Some m) n (tr ++ [EvSolvePnP (fst corners) (snd corners)]))) /\
  (very_different (fst iterative) (fst ransac) = true <->
   PrimFloat.ltb dhalf (PrimFloat.abs (PrimFloat.sub (vx (fst iterative)) (vx (fst ransac)))) = true \/
   PrimFloat.ltb dhalf (PrimFloat.abs (PrimFloat.sub (vy (fst iterative)) (vy (fst ransac)))) = true \/
   PrimFloat.ltb dhalf (PrimFloat.abs (PrimFloat.sub (vz (fst iterative)) (vz (fst ransac)))) = true).
Proof.
  intros corners N iterative ransac.
  pose proof (all_corners_lengths (marker_length m) observations
                (Map_find_t_map_markers m observations)) as Hlen.
  fold corners in Hlen.
  assert (Hrun : cv_solve_t_map_camera ci observations (mkState (Some m) n tr)
                 = match fst corners with
                   | [] => (Ok TWC_default, mkState (Some m) n tr)
                   | _ :: _ =>
                     if ((4 <? N) && (N <? 16))%nat
                     then (Ok (pose_of_solution
                                 (if very_different (fst iterative) (fst ransac)
                                  then ransac else iterative)),
                           mkState (Some m) n
                             (tr ++ [EvSolvePnP (fst corners) (snd corners);
                                     EvSolvePnPRansac (fst corners) (snd corners)]))
                     else (Ok (pose_of_solution iterative),
                           mkState (Some m) n (tr ++ [EvSolvePnP (fst corners) (snd corners)]))
                   end).
  { unfold cv_solve_t_map_camera. rewrite bind_run. simpl.
    subst N iterative ransac. fold corners.
    destruct corners as [c3 c2]. simpl.
    destruct c3 as [|P c3]; [reflexivity|].
    rewrite !bind_run. simpl.
    destruct ((4 <? length c2)%nat && (length c2 <? 16)%nat); simpl.
    - rewrite !bind_run. simpl. rewrite <- app_assoc. simpl.
      unfold pose_of_solution.
      destruct (very_different _ _); simpl.
      + destruct (cv_solvePnPRansac (P :: c3) c2 ci). reflexivity.
      + destruct (cv_solvePnP (P :: c3) c2 ci). reflexivity.
    - unfold pose_of_solution. destruct (cv_solvePnP (P :: c3) c2 ci). reflexivity. }
  split; [|split].
  - intros [Hlo Hhi]. rewrite Hrun.
    destruct (fst corners) as [|P c3]; [simpl in Hlen; lia|].
    apply Nat.ltb_lt in Hlo, Hhi. rewrite Hlo, Hhi. reflexivity.
  - intros Hpos Hout. rewrite Hrun.
    destruct (fst corners) as [|P c3]; [simpl in Hlen; lia|].
    destruct Hout as [Hle|Hge].
    + apply Nat.ltb_ge in Hle. rewrite Hle. reflexivity.
    + apply Nat.ltb_ge in Hge. rewrite Hge, andb_false_r. reflexivity.
  - apply very_different_iff.
Qed.

End MirrorGuard.

Lemma mirror_solution_guard_witness :
  cv_solve_t_map_camera (H := stand_in) camera_600
    [observation_at 0 260%float 180%float; observation_at 1 380%float 180%float]
    (mkState (Some (Map_add_marker (Marker_new 1 identity_pose) map_with_marker_0)) 0 [])
  = (Ok (TWC_of_transform
           (mkTransform Matrix3x3_identity (mkV3 (-0)%float (-0)%float (-1)%float))),
     mkState (Some (Map_add_marker (Marker_new 1 identity_pose) map_with_marker_0)) 0
       [EvSolvePnP
          (append_corners_f_map (H := stand_in) identity_pose 0.125%float
             (append_corners_f_map (H := stand_in) identity_pose 0.125%float []))
          (append_corners_f_image (H := stand_in) (observation_at 1 380%float 180%float)
             (append_corners_f_image (H := stand_in) (observation_at 0 260%float 180%float) []));
        EvSolvePnPRansac
          (append_corners_f_map (H := stand_in) identity_pose 0.125%float
             (append_corners_f_map (H := stand_in) identity_pose 0.125%float []))
          (append_corners_f_image (H := stand_in) (observation_at 1 380%float 180%float)
             (append_corners_f_image (H := stand_in) (observation_at 0 260%float 180%float) []))]).
Proof.
  refine (eq_trans
            (proj1 (mirror_solution_guard (H := stand_in) camera_600
                      [observation_at 0 260%float 180%float; observation_at 1 380%float 180%float]
                      (Map_add_marker (Marker_new 1 identity_pose) map_with_marker_0) 0 []) _) _).
  - vm_compute. lia.
  - vm_compute. reflexivity.
Defined.

(* ====================================================================== *)
(** ** The graph that [load_graph_from_observations] builds *)
(* ====================================================================== *)

Section LoadGraph.
Context `{External}.

Lemma extract_run (g : NonlinearFactorGraph) (result : Values) (key : Key)
    (sam_pose : Pose3) (sam_cov : Matrix6) (s : State) :
  result !! key = Some sam_pose ->
  gtsam_marginalCovariance g result key = Some sam_cov ->
  extract_transform_with_covariance g result key s
  = (Ok (to_transform_with_covariance sam_pose sam_cov),
     mkState (map_ s) (callbacks_processed_ s) (trace s ++ [EvMarginals g result key])).
Proof.
  intros Hat Hcov. unfold extract_transform_with_covariance, Values_at.
  rewrite !bind_run. simpl. rewrite Hat. simpl. rewrite Hcov. reflexivity.
Qed.

Lemma optimize_run (g : NonlinearFactorGraph) (init result : Values) (s : State) :
  gtsam_optimize g init = Some result ->
  optimize g init s
  = (Ok result, mkState (map_ s) (callbacks_processed_ s) (trace s ++ [EvOptimize g init])).
Proof.
  intros Hopt. unfold optimize. rewrite bind_run. simpl. rewrite Hopt. reflexivity.
Qed.

Lemma Values_insert_Ok_inv (k : Key) (p : Pose3) (v v' : Values) (s s' : State) :
  Values_insert k p v s = (Ok v', s') ->
  v !! k = None /\ v' = <[k := p]> v /\ s' = s.
Proof.
  unfold Values_insert. destruct (v !! k); intros Hr.
  - discriminate Hr.
  - injection Hr as <- <-. auto.
Qed.

Lemma get_map_run (s : State) (m : Map) : map_ s = Some m -> get_map s = (Ok m, s).
Proof. intros Hm. unfold get_map. rewrite Hm. reflexivity. Qed.

Lemma use_constrained_model_stored (m : Map) (marker : Marker) :
  (if use_constrained_model m marker (to_cov_sam (cov (t_map_marker marker)))
   then Constrained_MixedSigmas Z_6x1
   else Gaussian_Covariance (to_cov_sam (cov (t_map_marker marker))))
  = prior_noise_model m marker.
Proof.
  unfold use_constrained_model, prior_noise_model. rewrite to_cov_sam_0_0. reflexivity.
Qed.

(** One turn of the loop: the map is only read, an observation of a known
    marker adds a between factor and the prior, an observation of an unknown
    marker adds a between factor when unknown markers are added. *)
Lemma load_graph_step_Ok (sam : SamFiducialMath) (t : TransformWithCovariance)
    (ck : Key) (add : bool) (g g' : NonlinearFactorGraph) (init init' : Values)
    (o : Observation) (s s' : State) (m : Map) :
  map_ s = Some m ->
  load_graph_step sam t ck add (g, init) o s = (Ok (g', init'), s') ->
  map_ s' = Some m /\
  List.filter is_prior g' = List.filter is_prior g ++ prior_of m o /\
  (add = false -> map factor_shape g' = map factor_shape g ++ shapes_of m ck o) /\
  (forall k, k <> marker_key_of o -> init' !! k = init !! k).
Proof.
  intros Hm Hrun. unfold load_graph_step in Hrun.
  rewrite (bind_Ok _ _ _ _ _ (get_map_run s m Hm)) in Hrun.
  unfold prior_of, shapes_of.
  destruct (Map_find_marker m (obs_id o)) as [marker|] eqn:Hfind.
  - apply bind_Ok_inv in Hrun as (cfm & s1 & Hsolve & Hrun).
    apply bind_Ok_inv in Hrun as (init1 & s2 & Hins & Hrun).
    apply Values_insert_Ok_inv in Hins as (Hfresh & -> & ->).
    injection Hrun as <- <- <-.
    pose proof (keeps_solve_camera_f_marker sam o (marker_length m) s) as [Hsame _].
    rewrite Hsolve in Hsame. simpl in Hsame.
    rewrite use_constrained_model_stored.
    repeat split.
    + congruence.
    + rewrite !List.filter_app. simpl. rewrite app_nil_r. reflexivity.
    + intros _. rewrite !map_app. simpl. rewrite <- app_assoc. reflexivity.
    + intros k Hk. rewrite lookup_insert_ne; [reflexivity|]. congruence.
  - destruct add.
    + apply bind_Ok_inv in Hrun as (cfm & s1 & Hsolve & Hrun).
      apply bind_Ok_inv in Hrun as (init1 & s2 & Hins & Hrun).
      apply Values_insert_Ok_inv in Hins as (Hfresh & -> & ->).
      injection Hrun as <- <- <-.
      pose proof (keeps_solve_camera_f_marker sam o (marker_length m) s) as [Hsame _].
      rewrite Hsolve in Hsame. simpl in Hsame.
      repeat split.
      * congruence.
      * rewrite List.filter_app. simpl. rewrite !app_nil_r. reflexivity.
      * discriminate.
      * intros k Hk. rewrite lookup_insert_ne; [reflexivity|]. congruence.
    + injection Hrun as <- <- <-.
      repeat split.
      * exact Hm.
      * rewrite app_nil_r. reflexivity.
      * intros _. rewrite app_nil_r. reflexivity.
Qed.

Lemma load_graph_loop_Ok (sam : SamFiducialMath) (t : TransformWithCovariance)
    (ck : Key) (add : bool) (observations : Observations) (m : Map) :
  forall (g g' : NonlinearFactorGraph) (init init' : Values) (s s' : State),
  map_ s = Some m ->
  foldM (load_graph_step sam t ck add) observations (g, init) s = (Ok (g', init'), s') ->
  map_ s' = Some m /\
  List.filter is_prior g' = List.filter is_prior g ++ flat_map (prior_of m) observations /\
  (add = false ->
   map factor_shape g' = map factor_shape g ++ flat_map (shapes_of m ck) observations).
Proof.
  induction observations as [|o obs IH]; intros g g' init init' s s' Hm Hrun; simpl in Hrun.
  - injection Hrun as <- <- <-. simpl. rewrite !app_nil_r. auto.
  - apply bind_Ok_inv in Hrun as ([g1 init1] & s1 & Hstep & Hrest).
    destruct (load_graph_step_Ok sam t ck add g g1 init init1 o s s1 m Hm Hstep)
      as (Hm1 & Hp1 & Hs1 & _).
    destruct (IH g1 g' init1 init' s1 s' Hm1 Hrest) as (Hm' & Hp' & Hs').
    split; [exact Hm'|]. split.
    + rewrite Hp', Hp1. simpl. rewrite <- app_assoc. reflexivity.
    + intros Hadd. rewrite (Hs' Hadd), (Hs1 Hadd). simpl. rewrite <- app_assoc. reflexivity.
Qed.

(** The graph and the initial values of [load_graph_from_observations]. *)
Lemma load_graph_from_observations_Ok (sam : SamFiducialMath) (t : TransformWithCovariance)
    (observations : Observations) (ck : Key) (add : bool) (m : Map)
    (g : NonlinearFactorGraph) (init : Values) (s s' : State) :
  map_ s = Some m ->
  load_graph_from_observations sam t observations ck add s = (Ok (g, init), s') ->
  map_ s' = Some m /\
  List.filter is_prior g = flat_map (prior_of m) observations /\
  (add = false -> map factor_shape g = flat_map (shapes_of m ck) observations) /\
  init !! ck = Some (to_pose3 (transform t)).
Proof.
  intros Hm Hrun. unfold load_graph_from_observations in Hrun.
  apply bind_Ok_inv in Hrun as ([g1 init1] & s1 & Hloop & Hrun).
  apply bind_Ok_inv in Hrun as (init2 & s2 & Hins & Hrun).
  apply Values_insert_Ok_inv in Hins as (Hfresh & -> & ->).
  injection Hrun as <- <- <-.
  destruct (load_graph_loop_Ok sam t ck add observations m [] g1 ∅ init1 s s1 Hm Hloop)
    as (Hm1 & Hp & Hs).
  repeat split.
  - exact Hm1.
  - exact Hp.
  - exact Hs.
  - apply lookup_insert_eq.
Qed.

(** *** When the graph is built

    GTSAM throws when a key is inserted twice, so the observations must be of
    distinct markers; the optimiser and the marginals must answer. *)

Lemma solve_camera_f_marker_returns (sam : SamFiducialMath) (o : Observation) (L : double)
    (s : State) :
  optimizer_answers -> marginals_answer ->
  exists twc s', solve_camera_f_marker sam o L s = (Ok twc, s').
Proof.
  intros Hopt Hmar. unfold solve_camera_f_marker, cv_solve_t_camera_marker.
  rewrite !bind_run. simpl.
  destruct (cv_solvePnP _ _ (cv_ci_ sam)) as [rvec tvec]. simpl.
  unfold Values_insert. rewrite lookup_empty. simpl.
  rewrite !bind_run. simpl.
  match goal with
  | |- context [optimize ?g ?i] =>
    destruct (Hopt g i) as (result & Hres & Hkeys);
    rewrite (bind_Ok _ _ _ _ _ (optimize_run g i result _ Hres));
    destruct (Hkeys camera_key_) as [sam_pose Hpose];
    [rewrite lookup_insert_eq; eauto|];
    destruct (Hmar g result camera_key_) as [sam_cov Hcov];
    rewrite (extract_run g result camera_key_ sam_pose sam_cov _ Hpose Hcov)
  end.
  eauto.
Qed.

Lemma load_graph_step_returns (sam : SamFiducialMath) (t : TransformWithCovariance)
    (ck : Key) (add : bool) (g : NonlinearFactorGraph) (init : Values)
    (o : Observation) (s : State) (m : Map) :
  optimizer_answers -> marginals_answer ->
  map_ s = Some m -> init !! marker_key_of o = None ->
  exists g' init' s', load_graph_step sam t ck add (g, init) o s = (Ok (g', init'), s').
Proof.
  intros Hopt Hmar Hm Hfresh. unfold load_graph_step.
  rewrite (bind_Ok _ _ _ _ _ (get_map_run s m Hm)).
  destruct (solve_camera_f_marker_returns sam o (marker_length m) s Hopt Hmar)
    as (cfm & s1 & Hsolve).
  destruct (Map_find_marker m (obs_id o)) as [marker|]; [|destruct add].
  - rewrite (bind_Ok _ _ _ _ _ Hsolve). unfold Values_insert. rewrite Hfresh.
    rewrite bind_run. simpl. eauto.
  - rewrite (bind_Ok _ _ _ _ _ Hsolve). unfold Values_insert. rewrite Hfresh.
    rewrite bind_run. simpl. eauto.
  - simpl. eauto.
Qed.

Lemma load_graph_loop_returns (sam : SamFiducialMath) (t : TransformWithCovariance)
    (ck : Key) (add : bool) (observations : Observations) (m : Map) :
  optimizer_answers -> marginals_answer ->
  NoDup (map marker_key_of observations) ->
  forall (g : NonlinearFactorGraph) (init : Values) (s : State),
  map_ s = Some m ->
  (forall o, o ∈ observations -> init !! marker_key_of o = None) ->
  init !! ck = None -> fst ck <> chr_m ->
  exists g' init' s',
    foldM (load_graph_step sam t ck add) observations (g, init) s = (Ok (g', init'), s') /\
    init' !! ck = None.
Proof.
  intros Hopt Hmar Hnd.
  induction observations as [|o obs IH]; intros g init s Hm Hfresh Hck Hchr; simpl.
  - eauto.
  - apply NoDup_cons in Hnd as [Hnotin Hnd].
    destruct (load_graph_step_returns sam t ck add g init o s m Hopt Hmar Hm)
      as (g1 & init1 & s1 & Hstep).
    { apply Hfresh. left. }
    rewrite (bind_Ok _ _ _ _ _ Hstep).
    destruct (load_graph_step_Ok sam t ck add g g1 init init1 o s s1 m Hm Hstep)
      as (Hm1 & _ & _ & Hother).
    apply (IH Hnd g1 init1 s1 Hm1).
    + intros o' Ho'. rewrite Hother.
      * apply Hfresh. right. exact Ho'.
      * intros Heq. apply Hnotin. rewrite <- Heq.
        apply list_elem_of_fmap. exists o'. split; [reflexivity|exact Ho'].
    + rewrite Hother; [exact Hck|].
      intros ->. apply Hchr. reflexivity.
    + exact Hchr.
Qed.

(** [load_graph_from_observations] returns a graph when the observations are of
    distinct markers and GTSAM answers. *)
Lemma load_graph_from_observations_returns (sam : SamFiducialMath)
    (t : TransformWithCovariance) (observations : Observations) (ck : Key) (add : bool)
    (m : Map) (s : State) :
  optimizer_answers -> marginals_answer ->
  NoDup (map marker_key_of observations) ->
  map_ s = Some m -> fst ck <> chr_m ->
  exists g init s',
    load_graph_from_observations sam t observations ck add s = (Ok (g, init), s').
Proof.
  intros Hopt Hmar Hnd Hm Hchr. unfold load_graph_from_observations.
  destruct (load_graph_loop_returns sam t ck add observations m Hopt Hmar Hnd [] ∅ s Hm)
    as (g & init & s1 & Hloop & Hck); [intros; apply lookup_empty|apply lookup_empty|exact Hchr|].
  rewrite (bind_Ok _ _ _ _ _ Hloop). simpl.
  unfold Values_insert. rewrite Hck. rewrite bind_run. simpl. eauto.
Qed.

End LoadGraph.

Section PriorNoise.
Context `{External}.

(** C2, amended: the prior of a known marker is constrained exactly when the
    marker is fixed, or the style of the map is [pose], or the stored
    covariance, once converted to the order of the factor graph, is zero at
    (0,0), which is entry (3,3) of the stored covariance (index 21, the variance
    of roll); otherwise it is Gaussian with the converted stored covariance.
    Each observation of a known marker contributes one such prior, and the
    graph has no other prior. *)
Theorem prior_noise_model_of_known_markers (sam : SamFiducialMath)
    (t_map_camera : TransformWithCovariance) (observations : Observations)
    (camera_key : Key) (add_unknown_markers : bool) (m : Map)
    (g : NonlinearFactorGraph) (init : Values) (s s' : State) :
  map_ s = Some m ->
  load_graph_from_observations sam t_map_camera observations camera_key add_unknown_markers s
    = (Ok (g, init), s') ->
  List.filter is_prior g
    = flat_map (fun o => match Map_find_marker m (obs_id o) with
                         | Some marker =>
                           [PriorFactor (marker_key_of o)
                                        (to_pose3 (transform (t_map_marker marker)))
                                        (prior_noise_model m marker)]
                         | None => []
                         end) observations /\
  (forall marker,
     Matrix6_get (to_cov_sam (cov (t_map_marker marker))) 0 0
       = cov_at (cov (t_map_marker marker)) 21 /\
     (prior_noise_model m marker = Constrained_MixedSigmas Z_6x1 <->
      is_fixed marker = true \/ map_style m = pose \/
      PrimFloat.eqb (cov_at (cov (t_map_marker marker)) 21) dzero = true) /\
     (prior_noise_model m marker <> Constrained_MixedSigmas Z_6x1 ->
      prior_noise_model m marker = Gaussian_Covariance (to_cov_sam (cov (t_map_marker marker))))).
Proof.
  intros Hm Hrun.
  destruct (load_graph_from_observations_Ok sam t_map_camera observations camera_key
              add_unknown_markers m g init s s' Hm Hrun) as (_ & Hp & _ & _).
  split; [exact Hp|].
  intros marker. split; [apply to_cov_sam_0_0|].
  unfold prior_noise_model.
  destruct (is_fixed marker || MapStyles_eqb (map_style m) pose ||
            PrimFloat.eqb (cov_at (cov (t_map_marker marker)) 21) dzero) eqn:Hc.
  - split; [|intros Hne; congruence].
    split; [intros _|reflexivity].
    apply orb_true_iff in Hc as [Hc|Hc]; [|auto].
    apply orb_true_iff in Hc as [Hc|Hc]; [auto|].
    right. left. destruct (map_style m); simpl in Hc; congruence.
  - split; [|reflexivity].
    split; [discriminate|].
    apply orb_false_iff in Hc as [Hc Hc3].
    apply orb_false_iff in Hc as [Hc1 Hc2].
    intros [Hf|[Hs|Hz]]; [congruence| |congruence].
    rewrite Hs in Hc2. discriminate Hc2.
Qed.

End PriorNoise.

(** C2 as stated fails: marker 1 is not fixed, the style of the map is
    [covariance] and its stored covariance is zero at (0,0), so a test of that
    entry would choose the constrained model; the prior in the graph is
    Gaussian, because entry (3,3) is not zero. *)
Lemma prior_noise_model_counterexample :
  is_fixed marker_roll_only = false /\
  map_style map_roll_only = covariance /\
  cov_at (cov (t_map_marker marker_roll_only)) 0 = dzero /\
  prior_noise_model_entry_0_0 map_roll_only marker_roll_only = Constrained_MixedSigmas Z_6x1 /\
  List.filter is_prior
    (graph_of (load_graph_from_observations (H := stand_in) sam_600 identity_pose
                 [observation_at 1 260%float 180%float] (Symbol chr_c 0) true
                 (mkState (Some map_roll_only) 0 [])))
  = [PriorFactor (Symbol chr_m 1) (mkPose3 (mkRot3 Matrix3x3_identity) Vector3_zero)
                 (Gaussian_Covariance (to_cov_sam cov_roll_only))].
Proof. vm_compute. repeat split. Qed.

Lemma prior_noise_model_of_known_markers_witness :
  List.filter is_prior
    (graph_of (load_graph_from_observations (H := stand_in) sam_600 identity_pose
                 [observation_at 0 260%float 180%float; observation_at 7 380%float 180%float]
                 (Symbol chr_c 0) true (mkState (Some map_with_marker_0) 0 [])))
  = [PriorFactor (Symbol chr_m 0) (mkPose3 (mkRot3 Matrix3x3_identity) Vector3_zero)
                 (Constrained_MixedSigmas Z_6x1)].
Proof.
  destruct (load_graph_from_observations (H := stand_in) sam_600 identity_pose
              [observation_at 0 260%float 180%float; observation_at 7 380%float 180%float]
              (Symbol chr_c 0) true (mkState (Some map_with_marker_0) 0 []))
    as [[[g init]|f] s'] eqn:Hrun.
  - unfold graph_of. simpl.
    rewrite (proj1 (prior_noise_model_of_known_markers (H := stand_in) sam_600 identity_pose
                      [observation_at 0 260%float 180%float; observation_at 7 380%float 180%float]
                      (Symbol chr_c 0) true map_with_marker_0 g init
                      (mkState (Some map_with_marker_0) 0 []) s' eq_refl Hrun)).
    vm_compute. reflexivity.
  - vm_compute in Hrun. discriminate Hrun.
Defined.

(* ====================================================================== *)
(** ** The graph of the factor-graph localisation *)
(* ====================================================================== *)

Lemma filter_is_resectioning_nil (g : NonlinearFactorGraph) :
  Forall (fun sh => shape_is_resectioning sh = false) (map factor_shape g) ->
  List.filter is_resectioning g = [].
Proof.
  induction g as [|f g IH]; simpl; intros Hall.
  - reflexivity.
  - inversion Hall as [|sh l Hf Hg]; subst.
    destruct f; simpl in *; try discriminate Hf; apply IH; exact Hg.
Qed.

Section SamLocalize.
Context `{External}.

Lemma shapes_of_not_resectioning (m : Map) (ck : Key) (observations : Observations) :
  Forall (fun sh => shape_is_resectioning sh = false) (flat_map (shapes_of m ck) observations).
Proof.
  induction observations as [|o obs IH]; simpl.
  - constructor.
  - apply Forall_app. split; [|exact IH].
    unfold shapes_of. destruct (Map_find_marker m (obs_id o)); repeat constructor.
Qed.

(** The graph of [solve_t_map_camera_sfm], the method that nothing calls, is
    the one with four resectioning factors on the camera variable for each
    observation of a marker with a valid pose in the map. *)
Lemma sfm_graph_shape (sam : SamFiducialMath) (m : Map) (observations : Observations) :
  map factor_shape
    (sfm_graph sam (marker_length m) observations (Map_find_t_map_markers m observations))
  = flat_map (fun o => match Map_find_marker m (obs_id o) with
                       | Some marker =>
                         if is_valid (t_map_marker marker)
                         then repeat (ShResectioning camera_key_) 4
                         else []
                       | None => []
                       end) observations.
Proof.
  unfold sfm_graph, Map_find_t_map_markers.
  change (@nil FactorShape) with (map factor_shape []) at 1.
  assert (Hgen : forall g : NonlinearFactorGraph,
    map factor_shape
      (fold_left
         (fun graph (ot : Observation * TransformWithCovariance) =>
            let '(observation, t_map_marker) := ot in
            if is_valid t_map_marker then
              resectioning_factors sam camera_key_ (append_corners_f_image observation [])
                (append_corners_f_map t_map_marker (marker_length m) []) graph
            else graph)
         (combine observations
            (map (fun o => match Map_find_marker m (obs_id o) with
                           | Some mk => t_map_marker mk
                           | None => TWC_default
                           end) observations)) g)
    = map factor_shape g ++
      flat_map (fun o => match Map_find_marker m (obs_id o) with
                         | Some marker =>
                           if is_valid (t_map_marker marker)
                           then repeat (ShResectioning camera_key_) 4
                           else []
                         | None => []
                         end) observations).
  { induction observations as [|o obs IH]; intros g; simpl.
    - rewrite app_nil_r. reflexivity.
    - rewrite IH. destruct (Map_find_marker m (obs_id o)) as [mk|]; simpl.
      + destruct (is_valid (t_map_marker mk)); simpl.
        * unfold resectioning_factors. rewrite map_app, <- app_assoc. reflexivity.
        * reflexivity.
      + reflexivity. }
  apply (Hgen []).
Qed.

Lemma cv_solve_t_map_camera_returns (ci : CvCameraInfo) (observations : Observations)
    (m : Map) (n : Z) (tr : list Event) :
  exists est s1, cv_solve_t_map_camera ci observations (mkState (Some m) n tr) = (Ok est, s1).
Proof.
  unfold cv_solve_t_map_camera. rewrite bind_run. simpl.
  destruct (all_corners _ _ _) as [c3 c2].
  destruct c3 as [|P c3]; [simpl; eauto|].
  rewrite !bind_run. simpl.
  destruct ((4 <? length c2)%nat && (length c2 <? 16)%nat); simpl.
  - rewrite !bind_run. simpl.
    destruct (very_different _ _); simpl.
    + destruct (cv_solvePnPRansac (P :: c3) c2 ci). simpl. eauto.
    + destruct (cv_solvePnP (P :: c3) c2 ci). simpl. eauto.
  - simpl. destruct (cv_solvePnP (P :: c3) c2 ci). simpl. eauto.
Qed.

(** The factor-graph localisation returns a pose when the observations are of
    distinct markers and GTSAM answers. *)
Lemma sam_solve_t_map_camera_returns (sam : SamFiducialMath) (observations : Observations)
    (m : Map) (n : Z) (tr : list Event) :
  optimizer_answers -> marginals_answer ->
  NoDup (map marker_key_of observations) ->
  exists twc s', sam_solve_t_map_camera sam observations (mkState (Some m) n tr) = (Ok twc, s').
Proof.
  intros Hopt Hmar Hnd.
  destruct (cv_solve_t_map_camera_returns (cv_ci_ sam) observations m n tr) as (est & s1 & Hcv).
  unfold sam_solve_t_map_camera. rewrite (bind_Ok _ _ _ _ _ Hcv).
  destruct (is_valid est); simpl; [|eauto].
  pose proof (keeps_cv_solve_t_map_camera (cv_ci_ sam) observations (mkState (Some m) n tr))
    as [Hm1 _].
  rewrite Hcv in Hm1. simpl in Hm1.
  destruct (load_graph_from_observations_returns sam est observations camera_key_ false m s1
              Hopt Hmar Hnd Hm1) as (g & init & s2 & Hload); [discriminate|].
  rewrite (bind_Ok _ _ _ _ _ Hload).
  destruct (load_graph_from_observations_Ok sam est observations camera_key_ false m g init
              s1 s2 Hm1 Hload) as (_ & _ & _ & Hinit).
  destruct (Hopt g init) as (result & Hres & Hkeys).
  rewrite (bind_Ok _ _ _ _ _ (optimize_run g init result s2 Hres)).
  destruct (Hkeys camera_key_) as [sam_pose Hpose]; [rewrite Hinit; eauto|].
  destruct (Hmar g result camera_key_) as [sam_cov Hcov].
  rewrite (extract_run g result camera_key_ sam_pose sam_cov _ Hpose Hcov).
  eauto.
Qed.

(** C1, amended: when the geometric estimate is valid, the graph that the
    factor-graph [solve_t_map_camera] optimises is the one of
    [load_graph_from_observations] without unknown markers: for each observation
    of a known marker, in order, a between factor from the variable of the
    marker to the camera variable and a prior on the variable of the marker, and
    no resectioning factor.  The camera variable starts at the geometric
    estimate, and what is returned is the optimised camera pose with its
    marginal covariance. *)
Theorem sam_solve_t_map_camera_graph (sam : SamFiducialMath) (observations : Observations)
    (m : Map) (n : Z) (tr : list Event) (cv_t_map_camera : TransformWithCovariance)
    (s1 : State) :
  cv_solve_t_map_camera (cv_ci_ sam) observations (mkState (Some m) n tr)
    = (Ok cv_t_map_camera, s1) ->
  is_valid cv_t_map_camera = true ->
  forall (g : NonlinearFactorGraph) (init : Values) (s2 : State),
  load_graph_from_observations sam cv_t_map_camera observations camera_key_ false s1
    = (Ok (g, init), s2) ->
  map factor_shape g
    = flat_map (fun o => match Map_find_marker m (obs_id o) with
                         | Some _ => [ShBetween (marker_key_of o) camera_key_;
                                      ShPrior (marker_key_of o)]
                         | None => []
                         end) observations /\
  List.filter is_resectioning g = [] /\
  init !! camera_key_ = Some (to_pose3 (transform cv_t_map_camera)) /\
  sam_solve_t_map_camera sam observations (mkState (Some m) n tr)
    = (result <- optimize g init ;;
       extract_transform_with_covariance g result camera_key_) s2 /\
  (forall (result : Values) (sam_pose : Pose3) (sam_cov : Matrix6),
     gtsam_optimize g init = Some result ->
     result !! camera_key_ = Some sam_pose ->
     gtsam_marginalCovariance g result camera_key_ = Some sam_cov ->
     sam_solve_t_map_camera sam observations (mkState (Some m) n tr)
     = (Ok (to_transform_with_covariance sam_pose sam_cov),
        mkState (Some m) n
          (trace s2 ++ [EvOptimize g init; EvMarginals g result camera_key_]))).
Proof.
  intros Hcv Hvalid g init s2 Hload.
  pose proof (keeps_cv_solve_t_map_camera (cv_ci_ sam) observations (mkState (Some m) n tr))
    as [Hm1 Hn1].
  rewrite Hcv in Hm1, Hn1. simpl in Hm1, Hn1.
  destruct (load_graph_from_observations_Ok sam cv_t_map_camera observations camera_key_
              false m g init s1 s2 Hm1 Hload) as (Hm2 & _ & Hshape & Hinit).
  pose proof (keeps_load_graph_from_observations sam cv_t_map_camera observations camera_key_
                false s1) as [_ Hn2].
  rewrite Hload in Hn2. simpl in Hn2.
  assert (Hrun : sam_solve_t_map_camera sam observations (mkState (Some m) n tr)
                 = (result <- optimize g init ;;
                    extract_transform_with_covariance g result camera_key_) s2).
  { unfold sam_solve_t_map_camera.
    rewrite (bind_Ok _ _ _ _ _ Hcv). rewrite Hvalid. simpl.
    rewrite (bind_Ok _ _ _ _ _ Hload). reflexivity. }
  split; [exact (Hshape eq_refl)|].
  split.
  { apply filter_is_resectioning_nil. rewrite (Hshape eq_refl).
    apply shapes_of_not_resectioning. }
  split; [exact Hinit|].
  split; [exact Hrun|].
  intros result sam_pose sam_cov Hopt Hat Hcov.
  rewrite Hrun.
  rewrite (bind_Ok _ _ _ _ _ (optimize_run g init result s2 Hopt)).
  rewrite (extract_run g result camera_key_ sam_pose sam_cov _ Hat Hcov). simpl.
  rewrite Hm2, Hn2, Hn1, <- app_assoc. reflexivity.
Qed.

End SamLocalize.

(** C1 as stated fails: marker 0 is known and the geometric estimate is valid,
    but the graph that [solve_t_map_camera] optimises (the last one handed to
    the optimiser) holds a between factor and a prior on the variable of marker
    0 and no resectioning factor, where the claim has four of them on the camera
    variable. *)
Lemma sam_solve_t_map_camera_graph_counterexample :
  Map_find_marker map_with_marker_0 0 = Some (set_is_fixed true (Marker_new 0 identity_pose)) /\
  fst (cv_solve_t_map_camera (H := stand_in) camera_600 [observation_at 0 260%float 180%float]
         (mkState (Some map_with_marker_0) 0 []))
    = Ok (TWC_of_transform
            (mkTransform Matrix3x3_identity (mkV3 (-0)%float (-0)%float (-1)%float))) /\
  map factor_shape
    (List.last (optimized_graphs
             (trace (snd (sam_solve_t_map_camera (H := stand_in) sam_600
                            [observation_at 0 260%float 180%float]
                            (mkState (Some map_with_marker_0) 0 []))))) [])
    = [ShBetween (Symbol chr_m 0) camera_key_; ShPrior (Symbol chr_m 0)] /\
  length (List.filter is_resectioning
    (List.last (optimized_graphs
             (trace (snd (sam_solve_t_map_camera (H := stand_in) sam_600
                            [observation_at 0 260%float 180%float]
                            (mkState (Some map_with_marker_0) 0 []))))) []))
    <> 4%nat.
Proof. vm_compute. repeat split. discriminate. Qed.

Lemma sam_solve_t_map_camera_graph_witness :
  fst (sam_solve_t_map_camera (H := stand_in) sam_600 [observation_at 0 260%float 180%float]
         (mkState (Some map_with_marker_0) 0 []))
  = Ok (to_transform_with_covariance (H := stand_in)
          (mkPose3 (mkRot3 Matrix3x3_identity) (mkV3 (-0)%float (-0)%float (-1)%float))
          (repeat 1%float 36)).
Proof.
  destruct (cv_solve_t_map_camera (H := stand_in) (cv_ci_ sam_600)
              [observation_at 0 260%float 180%float] (mkState (Some map_with_marker_0) 0 []))
    as [[est|f] s1] eqn:Hcv; [|vm_compute in Hcv; discriminate Hcv].
  assert (Hest : est = TWC_of_transform
            (mkTransform Matrix3x3_identity (mkV3 (-0)%float (-0)%float (-1)%float))).
  { vm_compute in Hcv. injection Hcv as <- _. reflexivity. }
  destruct (load_graph_from_observations (H := stand_in) sam_600 est
              [observation_at 0 260%float 180%float] camera_key_ false s1)
    as [[[g init]|f] s2] eqn:Hload.
  - assert (Hvalid : is_valid est = true) by (rewrite Hest; reflexivity).
    destruct (sam_solve_t_map_camera_graph (H := stand_in) sam_600
                [observation_at 0 260%float 180%float] map_with_marker_0 0 [] est s1
                Hcv Hvalid g init s2 Hload) as (_ & _ & Hinit & _ & Hret).
    rewrite (Hret init _ (repeat 1%float 36) eq_refl Hinit eq_refl).
    rewrite Hest. reflexivity.
  - assert (Hs1 : s1 = mkState (Some map_with_marker_0) 0
                         (trace s1)).
    { vm_compute in Hcv. injection Hcv as _ <-. reflexivity. }
    rewrite Hest, Hs1 in Hload. vm_compute in Hload. discriminate Hload.
Defined.

(* ====================================================================== *)
(** ** Map initialisation *)
(* ====================================================================== *)

Section MapInitialisation.
Context `{External}.
Context `{YamlExternal}.

(** With style 2, when a map is being made, [initialize_map] returns the null
    pointer; the file is not read. *)
Lemma initialize_map_style_2 (cxt_ : VmapContext) (filename : string)
    (file file' : option YamlDocument) :
  cxt_make_not_use_map_ cxt_ = true -> cxt_map_init_style_ cxt_ = 2 ->
  initialize_map cxt_ filename file file' = YamlOk None.
Proof. intros Hmake Hstyle. unfold initialize_map. rewrite Hmake, Hstyle. reflexivity. Qed.

(** With style 1 the marker of the configuration is inserted as a fixed
    marker; the file is not read. *)
Lemma initialize_map_style_1 (cxt_ : VmapContext) (filename : string)
    (file file' : option YamlDocument) :
  cxt_make_not_use_map_ cxt_ = true -> cxt_map_init_style_ cxt_ = 1 ->
  exists m, initialize_map cxt_ filename file file' = YamlOk (Some m) /\
            markers m !! cxt_map_init_id_ cxt_
            = Some (mkMarker (cxt_map_init_id_ cxt_) (cxt_map_init_transform_ cxt_) true 1).
Proof.
  intros Hmake Hstyle. unfold initialize_map. rewrite Hmake, Hstyle. simpl.
  eexists. split; [reflexivity|].
  unfold Map_add_marker, Map_new, set_is_fixed, Marker_new. simpl.
  rewrite lookup_empty. simpl. apply lookup_insert_eq.
Qed.

(** [initialize_map_from_observations] never allocates the map: called with the
    null [map_], as the callback calls it, it ends in a fault. *)
Lemma initialize_map_from_observations_null (cxt_ : VmapContext) (observations : Observations)
    (fm : FiducialMath) (n : Z) (tr : list Event) :
  exists f s', initialize_map_from_observations cxt_ observations fm (mkState None n tr)
               = (Raise f, s') /\ map_ s' = None.
Proof.
  unfold initialize_map_from_observations.
  destruct (find_min_obs observations) as [min_id [o|]].
  - rewrite bind_run. simpl. rewrite bind_run.
    pose proof (keeps_cv_solve_t_camera_marker (cv_ fm) o (cxt_marker_length_ cxt_)
                  (mkState None n tr)) as [Hm _].
    unfold solve_t_camera_marker.
    destruct (cv_solve_t_camera_marker (cv_ fm) o (cxt_marker_length_ cxt_) (mkState None n tr))
      as [[t|f] s1]; simpl in Hm.
    + unfold modify_map. rewrite Hm. eauto.
    + eauto.
  - rewrite bind_run. simpl. eauto.
Qed.

(** Given a map, the marker that [initialize_map_from_observations] inserts is
    not fixed: nothing in it calls [set_is_fixed]. *)
Lemma initialize_map_from_observations_not_fixed (cxt_ : VmapContext)
    (observations : Observations) (fm : FiducialMath) (m : Map) (n : Z) (tr : list Event)
    (s' : State) (i : Z) (mk : Marker) :
  initialize_map_from_observations cxt_ observations fm (mkState (Some m) n tr) = (Ok tt, s') ->
  marker_in (mkState (Some m) n tr) i = None ->
  marker_in s' i = Some mk ->
  i = fst (find_min_obs observations) /\ is_fixed mk = false /\ update_count mk = 1.
Proof.
  unfold initialize_map_from_observations.
  destruct (find_min_obs observations) as [min_id [o|]]; simpl.
  - intros Hrun Hold Hnew.
    apply bind_Ok_inv in Hrun as (o' & s0 & Ho & Hrun).
    injection Ho as <- <-.
    apply bind_Ok_inv in Hrun as (t & s1 & Hsolve & Hrun).
    pose proof (keeps_cv_solve_t_camera_marker (cv_ fm) o (cxt_marker_length_ cxt_)
                  (mkState (Some m) n tr)) as [Hm _].
    unfold solve_t_camera_marker in Hsolve. rewrite Hsolve in Hm. simpl in Hm.
    unfold modify_map in Hrun. rewrite Hm in Hrun. injection Hrun as <-.
    unfold marker_in, Map_find_marker in *. simpl in *.
    unfold Map_add_marker in Hnew. simpl in Hnew.
    destruct (markers m !! min_id) eqn:Hmin; [congruence|].
    simpl in Hnew.
    destruct (decide (i = min_id)) as [->|Hne].
    + rewrite lookup_insert_eq in Hnew. injection Hnew as <-. auto.
    + rewrite lookup_insert_ne in Hnew by congruence. congruence.
  - intros Hrun. rewrite bind_run in Hrun. simpl in Hrun. discriminate Hrun.
Qed.

End MapInitialisation.

(** C4 on the code: with style 2 the node starts without a map; the first
    batch (markers 5 and 3) makes the callback solve [t_camera_marker] for the
    lowest id, 3, and then write through the null [map_]; and on a map that
    exists, [initialize_map_from_observations] inserts marker 3 at the configured
    camera pose composed with [t_camera_marker], but not as a fixed marker. *)
Theorem map_init_style_2_first_batch :
  initialize_map (H := yaml_stand_in) cxt_style_2 "map.yaml" None None = YamlOk None /\
  observations_callback (H := stand_in) cxt_style_2 first_batch (mkState None 0 [])
  = (Raise NullPointerDereference,
     mkState None 1
       [EvSolvePnP (append_corners_f_marker 0.125%float [])
          (append_corners_f_image (H := stand_in) (observation_at 3 260%float 180%float) [])]) /\
  find_min_obs (msg_observations first_batch) = (3, Some (observation_at 3 260%float 180%float)) /\
  map_ (snd (initialize_map_from_observations (H := stand_in) cxt_style_2
               (msg_observations first_batch)
               (FiducialMath_new false 0.5%float camera_600)
               (mkState (Some (Map_new pose 0.125%float)) 0 [])))
  = Some (Map_add_marker
            (mkMarker 3 (TWC_of_transform
                           (@tf2_mul stand_in (transform identity_pose)
                              (mkTransform Matrix3x3_identity (mkV3 dzero dzero 1%float))))
                      false 1)
            (Map_new pose 0.125%float)).
Proof. vm_compute. repeat split. Qed.

(* ====================================================================== *)
(** * Further properties of the modelled code *)
(* ====================================================================== *)

(* ====================================================================== *)
(** ** Covariance conversions, the other way round *)
(* ====================================================================== *)

(** X1: converting a 6x6 matrix of the factor graph to the stored order with
    [to_cov_type] and back with [to_cov_sam] gives the matrix back exactly. *)
Theorem to_cov_sam_to_cov_type (M6 : Matrix6) (sam_pose : Pose3) :
  length M6 = 36%nat -> to_cov_sam (to_cov_type sam_pose M6) = M6.
Proof.
  intros HM. destruct (length_36_inv M6 HM) as
    (a0&a1&a2&a3&a4&a5&a6&a7&a8&a9&a10&a11&a12&a13&a14&a15&a16&a17&a18&a19&a20&a21&a22&a23&
     a24&a25&a26&a27&a28&a29&a30&a31&a32&a33&a34&a35&->).
  reflexivity.
Qed.

Lemma to_cov_sam_to_cov_type_witness :
  to_cov_sam (to_cov_type (mkPose3 (mkRot3 Matrix3x3_identity) Vector3_zero) (repeat 1%float 36))
  = repeat 1%float 36.
Proof. apply to_cov_sam_to_cov_type. reflexivity. Defined.

Lemma ro_at_involutive (i : nat) : (i < 6)%nat -> ro_at (ro_at i) = i /\ (ro_at i < 6)%nat.
Proof.
  intros Hi. do 6 (destruct i as [|i]; [split; [reflexivity|unfold ro_at; simpl; lia]|]). lia.
Qed.

(** X2: [to_cov_sam] swaps the position block and the rotation block: entry
    (r, c) of the stored covariance is entry (ro[r], ro[c]) of the result, and a
    symmetric stored covariance gives a symmetric matrix. *)
Theorem to_cov_sam_blocks (c : cov_type) :
  (forall r k, (r < 6)%nat -> (k < 6)%nat ->
     Matrix6_get (to_cov_sam c) (ro_at r) (ro_at k) = cov_at c (r * 6 + k)) /\
  ((forall r k, (r < 6)%nat -> (k < 6)%nat -> cov_at c (r * 6 + k) = cov_at c (k * 6 + r)) ->
   forall i j, (i < 6)%nat -> (j < 6)%nat ->
     Matrix6_get (to_cov_sam c) i j = Matrix6_get (to_cov_sam c) j i).
Proof.
  split; [apply to_cov_sam_entry|].
  intros Hsym i j Hi Hj.
  destruct (ro_at_involutive i Hi) as [Hii Hri], (ro_at_involutive j Hj) as [Hjj Hrj].
  rewrite <- Hii at 1. rewrite <- Hjj at 1.
  rewrite <- Hii at 2. rewrite <- Hjj at 2.
  rewrite !to_cov_sam_entry by assumption.
  apply Hsym; assumption.
Qed.

Lemma to_cov_sam_blocks_witness :
  Matrix6_get (to_cov_sam cov_roll_only) 0 3 = Matrix6_get (to_cov_sam cov_roll_only) 3 0.
Proof.
  apply (proj2 (to_cov_sam_blocks cov_roll_only)); [|lia|lia].
  intros r k Hr Hk.
  do 6 (destruct r as [|r]; [do 6 (destruct k as [|k]; [reflexivity|]); lia|]); lia.
Defined.

(* ====================================================================== *)
(** ** The geometric localisation *)
(* ====================================================================== *)

Section CvLocalize.
Context `{External}.

Lemma all_corners_acc_count (m : Map) (L : double) (observations : Observations)
    (acc : list Vector3 * list Point2) :
  length (fst (fold_left
    (fun acc ot =>
       let '(all_corners_f_map, all_corners_f_image) := acc in
       let '(observation, t_map_marker) := ot in
       if is_valid t_map_marker
       then (append_corners_f_map t_map_marker L all_corners_f_map,
             append_corners_f_image observation all_corners_f_image)
       else acc)
    (combine observations (Map_find_t_map_markers m observations)) acc))
  = (length (fst acc) + 4 * length (List.filter (known_valid m) observations))%nat /\
  length (snd (fold_left
    (fun acc ot =>
       let '(all_corners_f_map, all_corners_f_image) := acc in
       let '(observation, t_map_marker) := ot in
       if is_valid t_map_marker
       then (append_corners_f_map t_map_marker L all_corners_f_map,
             append_corners_f_image observation all_corners_f_image)
       else acc)
    (combine observations (Map_find_t_map_markers m observations)) acc))
  = (length (snd acc) + 4 * length (List.filter (known_valid m) observations))%nat.
Proof.
  revert acc. induction observations as [|o obs IH]; intros [c3 c2]; simpl.
  - split; lia.
  - unfold known_valid, Map_find_marker in *.
    destruct (markers m !! obs_id o) as [mk|]; simpl.
    + destruct (is_valid (t_map_marker mk)); simpl.
      * destruct (IH (append_corners_f_map (t_map_marker mk) L c3,
                      append_corners_f_image o c2)) as [IH1 IH2].
        rewrite IH1, IH2. simpl.
        unfold append_corners_f_map, append_corners_f_image.
        rewrite !length_app. simpl. split; lia.
      * apply (IH (c3, c2)).
    + apply (IH (c3, c2)).
Qed.

(** X3: the correspondences that the geometric [solve_t_map_camera] hands to
    PnP are four per observation of a marker known with a valid pose: N is four
    times the number of those observations, for the 3D and the 2D list alike. *)
Theorem all_corners_count (m : Map) (observations : Observations) :
  length (fst (all_corners (marker_length m) observations
                 (Map_find_t_map_markers m observations)))
    = (4 * length (List.filter (known_valid m) observations))%nat /\
  length (snd (all_corners (marker_length m) observations
                 (Map_find_t_map_markers m observations)))
    = (4 * length (List.filter (known_valid m) observations))%nat.
Proof.
  unfold all_corners.
  exact (all_corners_acc_count m (marker_length m) observations ([], [])).
Qed.

Lemma cv_solve_t_map_camera_cases (ci : CvCameraInfo) (observations : Observations)
    (m : Map) (n : Z) (tr : list Event) :
  match fst (all_corners (marker_length m) observations
               (Map_find_t_map_markers m observations)) with
  | [] => cv_solve_t_map_camera ci observations (mkState (Some m) n tr)
          = (Ok TWC_default, mkState (Some m) n tr)
  | _ :: _ => exists twc ev,
      cv_solve_t_map_camera ci observations (mkState (Some m) n tr)
      = (Ok twc, mkState (Some m) n (tr ++ ev)) /\ is_valid twc = true /\ ev <> [] /\
      cov twc = cov_zero
  end.
Proof.
  unfold cv_solve_t_map_camera. rewrite bind_run. simpl.
  destruct (all_corners _ _ _) as [c3 c2]. simpl.
  destruct c3 as [|P c3]; [reflexivity|].
  rewrite !bind_run. simpl.
  destruct ((4 <? length c2)%nat && (length c2 <? 16)%nat); simpl.
  - rewrite !bind_run. simpl. rewrite <- app_assoc. simpl.
    destruct (very_different _ _); simpl.
    + destruct (cv_solvePnPRansac (P :: c3) c2 ci). simpl.
      eexists _, _. split; [reflexivity|]. repeat split. discriminate.
    + destruct (cv_solvePnP (P :: c3) c2 ci). simpl.
      eexists _, _. split; [reflexivity|]. repeat split. discriminate.
  - destruct (cv_solvePnP (P :: c3) c2 ci). simpl.
    eexists _, _. split; [reflexivity|]. repeat split. discriminate.
Qed.

Lemma filter_nil_existsb {A} (f : A -> bool) (l : list A) :
  existsb f l = negb (Nat.eqb (length (List.filter f l)) 0).
Proof.
  induction l as [|a l IH]; simpl; [reflexivity|].
  destruct (f a); simpl; [reflexivity|exact IH].
Qed.

(** X4: the geometric [solve_t_map_camera] always returns, and the pose it
    returns is valid exactly when some observation is of a marker known with a
    valid pose (what the PnP solver reports is not looked at); the valid pose
    has the zero covariance, and when the pose is invalid no solver has run. *)
Theorem cv_solve_t_map_camera_valid_iff (ci : CvCameraInfo) (observations : Observations)
    (m : Map) (n : Z) (tr : list Event) :
  exists twc ev,
    cv_solve_t_map_camera ci observations (mkState (Some m) n tr)
      = (Ok twc, mkState (Some m) n (tr ++ ev)) /\
    is_valid twc = existsb (known_valid m) observations /\
    (is_valid twc = true -> cov twc = cov_zero) /\
    (is_valid twc = false <-> ev = []).
Proof.
  pose proof (cv_solve_t_map_camera_cases ci observations m n tr) as Hc.
  destruct (all_corners_count m observations) as [Hlen _].
  rewrite filter_nil_existsb.
  destruct (fst (all_corners (marker_length m) observations
                   (Map_find_t_map_markers m observations))) as [|P c3].
  - exists TWC_default, []. rewrite app_nil_r. split; [exact Hc|].
    simpl in Hlen.
    destruct (length (List.filter (known_valid m) observations)); [|lia].
    simpl. repeat split; try discriminate; reflexivity.
  - destruct Hc as (twc & ev & Hrun & Hv & Hev & Hcov).
    exists twc, ev. split; [exact Hrun|].
    simpl in Hlen.
    destruct (length (List.filter (known_valid m) observations)); [lia|].
    simpl. rewrite Hv. repeat split; intros; congruence.
Qed.

(** X5: localisation, with either backend, only reads the map: whatever it
    returns or throws, [map_] is what it was. *)
Theorem solve_t_map_camera_reads_only (fm : FiducialMath) (observations : Observations)
    (s : State) :
  map_ (snd (solve_t_map_camera fm observations s)) = map_ s /\
  callbacks_processed_ (snd (solve_t_map_camera fm observations s)) = callbacks_processed_ s.
Proof. exact (keeps_solve_t_map_camera fm observations s). Qed.

End CvLocalize.

(* ====================================================================== *)
(** ** What a map update keeps *)
(* ====================================================================== *)

#[local] Instance map_grows_preorder : PreOrder map_grows.
Proof.
  split.
  - intros s m Hm. exists m. repeat split; try assumption. intros i mk Hi. eauto.
  - intros a b c Hab Hbc m Hm.
    destruct (Hab m Hm) as (m1 & Hm1 & Hs1 & Hl1 & Hk1).
    destruct (Hbc m1 Hm1) as (m2 & Hm2 & Hs2 & Hl2 & Hk2).
    exists m2. repeat split; try congruence.
    intros i mk Hi.
    destruct (Hk1 i mk Hi) as (mk1 & Hi1 & Hid1 & Hf1).
    destruct (Hk2 i mk1 Hi1) as (mk2 & Hi2 & Hid2 & Hf2).
    exists mk2. repeat split; congruence.
Qed.

Lemma same_map_map_grows (s s' : State) : same_map s s' -> map_grows s s'.
Proof.
  intros [Hm _] m Hs. exists m. repeat split; try congruence. intros i mk Hi. eauto.
Qed.

Lemma keeps_same_map_map_grows {A} (c : M A) : keeps same_map c -> keeps map_grows c.
Proof. intros Hc s. apply same_map_map_grows, Hc. Qed.

(** A change of the map that keeps style, length, and every marker's presence,
    id and fixed flag. *)
Definition grows_fn (g : Map -> Map) : Prop :=
  forall m, map_style (g m) = map_style m /\
            marker_length (g m) = marker_length m /\
            forall i mk, markers m !! i = Some mk ->
              exists mk', markers (g m) !! i = Some mk' /\
                          marker_id mk' = marker_id mk /\ is_fixed mk' = is_fixed mk.

Lemma keeps_modify_map_grows (g : Map -> Map) : grows_fn g -> keeps map_grows (modify_map g).
Proof.
  intros Hg s m Hm. unfold modify_map. rewrite Hm. simpl.
  exists (g m). destruct (Hg m) as (Hs & Hl & Hk). auto.
Qed.

Lemma grows_fn_add (new : Marker) : grows_fn (Map_add_marker new).
Proof.
  intros m. unfold Map_add_marker.
  destruct (markers m !! marker_id new) eqn:Hnew; simpl.
  - repeat split. intros i mk Hi. eauto.
  - repeat split. intros i mk Hi. exists mk. repeat split.
    rewrite lookup_insert_ne; [exact Hi|]. intros Heq. rewrite Heq in Hnew. congruence.
Qed.

Lemma grows_fn_update (key : Z) (u : Z) (t : TransformWithCovariance) :
  grows_fn (Map_update_marker key (fun mk => set_update_count u (set_t_map_marker t mk))).
Proof.
  intros m. unfold Map_update_marker. simpl. repeat split.
  intros i mk Hi. destruct (decide (i = key)) as [->|Hne].
  - rewrite lookup_alter_eq, Hi. simpl. eauto.
  - rewrite lookup_alter_ne by congruence. eauto.
Qed.

Lemma grows_fn_update_count (key : Z) (t : TransformWithCovariance) :
  grows_fn (Map_update_marker key
              (fun mk => set_update_count (wrap_int (update_count mk + 1))
                           (set_t_map_marker t mk))).
Proof.
  intros m. unfold Map_update_marker. simpl. repeat split.
  intros i mk Hi. destruct (decide (i = key)) as [->|Hne].
  - rewrite lookup_alter_eq, Hi. simpl. eauto.
  - rewrite lookup_alter_ne by congruence. eauto.
Qed.

Section UpdateKeeps.
Context `{External}.

Lemma keeps_grows_cv_update_map (ci : CvCameraInfo) (t_map_camera : TransformWithCovariance)
    (observations : Observations) :
  keeps map_grows (cv_update_map ci t_map_camera observations).
Proof.
  unfold cv_update_map. apply keeps_forM_; [exact _|]. intros o _.
  apply keeps_bind; [exact _|apply keeps_same_map_map_grows, keeps_get_map|]. intros m.
  apply keeps_bind; [exact _|apply keeps_same_map_map_grows, keeps_cv_solve_t_camera_marker|].
  intros t. destruct (Map_find_marker m (obs_id o)) as [marker|].
  - unfold update_marker_simple_average. destruct (negb (is_fixed marker)).
    + apply keeps_modify_map_grows, grows_fn_update.
    + apply keeps_ret. exact _.
  - apply keeps_modify_map_grows, grows_fn_add.
Qed.

Lemma keeps_grows_sam_update_map (sam : SamFiducialMath)
    (t_map_camera : TransformWithCovariance) (observations : Observations) :
  keeps map_grows (sam_update_map sam t_map_camera observations).
Proof.
  unfold sam_update_map.
  destruct (negb (is_valid t_map_camera) || (length observations <? 2)%nat).
  - apply keeps_ret. exact _.
  - apply keeps_bind; [exact _| |].
    + apply keeps_same_map_map_grows, keeps_load_graph_from_observations.
    + intros [graph initial]. apply keeps_bind; [exact _| |].
      * apply keeps_same_map_map_grows, keeps_optimize.
      * intros result. unfold sam_write_back. apply keeps_forM_; [exact _|]. intros o _.
        apply keeps_bind; [exact _|apply keeps_same_map_map_grows, keeps_extract|]. intros t.
        apply keeps_bind; [exact _|apply keeps_same_map_map_grows, keeps_get_map|]. intros m.
        destruct (Map_find_marker m (obs_id o)) as [marker|].
        -- destruct (negb (is_fixed marker)).
           ++ apply keeps_modify_map_grows, grows_fn_update_count.
           ++ apply keeps_ret. exact _.
        -- apply keeps_modify_map_grows, grows_fn_add.
Qed.

(** X6: no sequence of [update_map] calls, on either backend, removes a marker
    or changes the style of the map, its marker length, or the id or the fixed
    flag of a marker that is in the map; this holds too when a call ends in an
    exception. *)
Theorem update_map_calls_grow
    (calls : list (FiducialMath * TransformWithCovariance * Observations))
    (m : Map) (n : Z) (tr : list Event) :
  exists m',
    map_ (snd (update_map_calls calls (mkState (Some m) n tr))) = Some m' /\
    map_style m' = map_style m /\
    marker_length m' = marker_length m /\
    forall i mk, markers m !! i = Some mk ->
      exists mk', markers m' !! i = Some mk' /\
                  marker_id mk' = marker_id mk /\ is_fixed mk' = is_fixed mk.
Proof.
  assert (Hk : keeps map_grows (update_map_calls calls)).
  { unfold update_map_calls. apply keeps_forM_; [exact _|]. intros call _.
    unfold update_map. destruct (sam_not_cv_ (fst (fst call))).
    - apply keeps_grows_sam_update_map.
    - apply keeps_grows_cv_update_map. }
  exact (Hk (mkState (Some m) n tr) m eq_refl).
Qed.

(** X7: an update with no observation changes nothing, on either backend and
    with any camera pose, valid or not. *)
Theorem update_map_empty_batch (fm : FiducialMath) (t_map_camera : TransformWithCovariance)
    (s : State) :
  update_map fm t_map_camera [] s = (Ok tt, s).
Proof.
  unfold update_map. destruct (sam_not_cv_ fm).
  - apply sam_update_map_guard. simpl. apply orb_true_r.
  - reflexivity.
Qed.

Lemma forM__app {A} (l1 l2 : list A) (body : A -> M unit) (s : State) :
  forM_ (l1 ++ l2) body s = (forM_ l1 body ;; forM_ l2 body) s.
Proof.
  revert s. induction l1 as [|a l1 IH]; intros s; simpl.
  - reflexivity.
  - rewrite !bind_run. destruct (body a s) as [[[]|f] s1]; [|reflexivity].
    rewrite IH. reflexivity.
Qed.

(** X8: the geometric [update_map] treats the observations one after the
    other: updating with a batch that is the concatenation of two batches is
    updating with the first and then, unless that threw, with the second. *)
Theorem cv_update_map_app (ci : CvCameraInfo) (t_map_camera : TransformWithCovariance)
    (batch1 batch2 : Observations) (s : State) :
  cv_update_map ci t_map_camera (batch1 ++ batch2) s
  = (cv_update_map ci t_map_camera batch1 ;; cv_update_map ci t_map_camera batch2) s.
Proof. unfold cv_update_map. apply forM__app. Qed.

End UpdateKeeps.

(* ====================================================================== *)
(** ** What the geometric update writes *)
(* ====================================================================== *)

Section CvUpdate.
Context `{External}.

(** The pose in the map frame that the geometric update computes for an
    observation: the given camera pose composed with the PnP solution. *)
Definition observed_t_map_marker (ci : CvCameraInfo) (t_map_camera : TransformWithCovariance)
    (L : double) (o : Observation) : TransformWithCovariance :=
  let sol := cv_solvePnP (append_corners_f_marker L []) (append_corners_f_image o []) ci in
  TWC_of_transform (tf2_mul (transform t_map_camera) (to_tf2_transform (fst sol) (snd sol))).

(** The map after the geometric update has treated one observation. *)
Definition cv_written (ci : CvCameraInfo) (t_map_camera : TransformWithCovariance)
    (o : Observation) (m : Map) : Map :=
  let observed := observed_t_map_marker ci t_map_camera (marker_length m) o in
  match Map_find_marker m (obs_id o) with
  | Some marker =>
    if is_fixed marker then m
    else Map_update_marker (obs_id o)
           (fun mk => set_update_count (wrap_int (update_count marker + 1))
                        (set_t_map_marker
                           (update_simple_average (t_map_marker marker) observed
                              (update_count marker)) mk)) m
  | None => Map_add_marker (Marker_new (obs_id o) observed) m
  end.

Lemma cv_update_map_cons (ci : CvCameraInfo) (t_map_camera : TransformWithCovariance)
    (o : Observation) (rest : Observations) (m : Map) (n : Z) (tr : list Event) :
  cv_update_map ci t_map_camera (o :: rest) (mkState (Some m) n tr)
  = cv_update_map ci t_map_camera rest
      (mkState (Some (cv_written ci t_map_camera o m)) n
         (tr ++ [EvSolvePnP (append_corners_f_marker (marker_length m) [])
                            (append_corners_f_image o [])])).
Proof.
  unfold cv_update_map at 1. simpl forM_. fold (cv_update_map ci t_map_camera rest).
  unfold cv_written, observed_t_map_marker, cv_solve_t_camera_marker,
    update_marker_simple_average, solvePnP.
  rewrite !bind_run. simpl.
  destruct (cv_solvePnP (append_corners_f_marker (marker_length m) [])
              (append_corners_f_image o []) ci) as [rvec tvec]. simpl.
  destruct (Map_find_marker m (obs_id o)) as [marker|]; simpl.
  - destruct (is_fixed marker); reflexivity.
  - reflexivity.
Qed.

(** X9: what the geometric [update_map] does with one observation.  It runs
    the PnP solver once and returns; a marker that the map does not know is
    inserted under the id of the observation, not fixed, with update count 1 and
    the pose [t_map_camera * t_camera_marker]; a known marker that is not fixed
    gets the simple average of its pose with that pose and its update count
    plus one; every other marker is left as it was. *)
Theorem cv_update_map_one_observation (ci : CvCameraInfo)
    (t_map_camera : TransformWithCovariance) (o : Observation) (m : Map) (n : Z)
    (tr : list Event) :
  exists m',
    cv_update_map ci t_map_camera [o] (mkState (Some m) n tr)
    = (Ok tt, mkState (Some m') n
                (tr ++ [EvSolvePnP (append_corners_f_marker (marker_length m) [])
                                   (append_corners_f_image o [])])) /\
    (forall j, j <> obs_id o -> markers m' !! j = markers m !! j) /\
    markers m' !! obs_id o
    = match markers m !! obs_id o with
      | None =>
        Some (mkMarker (obs_id o)
                (observed_t_map_marker ci t_map_camera (marker_length m) o) false 1)
      | Some marker =>
        if is_fixed marker then Some marker
        else Some (mkMarker (marker_id marker)
                     (update_simple_average (t_map_marker marker)
                        (observed_t_map_marker ci t_map_camera (marker_length m) o)
                        (update_count marker))
                     false (wrap_int (update_count marker + 1)))
      end.
Proof.
  exists (cv_written ci t_map_camera o m).
  split; [rewrite cv_update_map_cons; reflexivity|].
  unfold cv_written, Map_find_marker.
  destruct (markers m !! obs_id o) as [marker|] eqn:Hfind.
  - destruct (is_fixed marker) eqn:Hfix.
    + split; [reflexivity|exact Hfind].
    + unfold Map_update_marker. simpl. split.
      * intros j Hj. apply lookup_alter_ne. congruence.
      * rewrite lookup_alter_eq, Hfind. simpl.
        unfold set_update_count, set_t_map_marker. simpl. rewrite Hfix. reflexivity.
  - unfold Map_add_marker. simpl. rewrite Hfind. simpl. split.
    + intros j Hj. apply lookup_insert_ne. congruence.
    + apply lookup_insert_eq.
Qed.

(** X10: when one batch holds two observations of the same marker and the map
    does not know it, the geometric [update_map] inserts it from the first
    observation and averages in the second: the marker ends with update count
    2 and the simple average of the two poses, and is not fixed. *)
Theorem cv_update_map_same_marker_twice (ci : CvCameraInfo)
    (t_map_camera : TransformWithCovariance) (o1 o2 : Observation) (m : Map) (n : Z)
    (tr : list Event) :
  obs_id o2 = obs_id o1 -> markers m !! obs_id o1 = None ->
  exists m',
    map_ (snd (cv_update_map ci t_map_camera [o1; o2] (mkState (Some m) n tr))) = Some m' /\
    markers m' !! obs_id o1
    = Some (mkMarker (obs_id o1)
              (update_simple_average
                 (observed_t_map_marker ci t_map_camera (marker_length m) o1)
                 (observed_t_map_marker ci t_map_camera (marker_length m) o2) 1)
              false 2).
Proof.
  intros Hid Hnew.
  rewrite cv_update_map_cons, cv_update_map_cons. simpl.
  eexists. split; [reflexivity|].
  assert (H1 : cv_written ci t_map_camera o1 m
               = Map_add_marker (Marker_new (obs_id o1)
                   (observed_t_map_marker ci t_map_camera (marker_length m) o1)) m).
  { unfold cv_written, Map_find_marker. rewrite Hnew. reflexivity. }
  rewrite H1.
  unfold cv_written at 1. unfold Map_find_marker, Map_add_marker. simpl.
  rewrite Hnew. simpl. rewrite Hid, lookup_insert_eq. simpl.
  rewrite lookup_alter_eq, lookup_insert_eq. reflexivity.
Qed.

End CvUpdate.

Lemma cv_update_map_same_marker_twice_witness :
  exists m',
    map_ (snd (cv_update_map (H := stand_in) camera_600 identity_pose
                 [observation_at 5 260%float 180%float; observation_at 5 262%float 181%float]
                 (mkState (Some map_with_marker_0) 0 []))) = Some m' /\
    markers m' !! 5
    = Some (mkMarker 5
              (update_simple_average (External := stand_in)
                 (observed_t_map_marker (H := stand_in) camera_600 identity_pose
                    (marker_length map_with_marker_0) (observation_at 5 260%float 180%float))
                 (observed_t_map_marker (H := stand_in) camera_600 identity_pose
                    (marker_length map_with_marker_0) (observation_at 5 262%float 181%float)) 1)
              false 2).
Proof.
  apply (cv_update_map_same_marker_twice (H := stand_in) camera_600 identity_pose
           (observation_at 5 260%float 180%float) (observation_at 5 262%float 181%float));
    reflexivity.
Defined.

(* ====================================================================== *)
(** ** What the factor-graph update does before and when it writes *)
(* ====================================================================== *)

Section SamUpdate.
Context `{External}.

(** With unknown markers added, every observation inserts the variable of its
    marker: a turn of the loop that returns found the key free. *)
Lemma load_graph_step_add_key (sam : SamFiducialMath) (t : TransformWithCovariance)
    (ck : Key) (g g' : NonlinearFactorGraph) (init init' : Values)
    (o : Observation) (s s' : State) :
  load_graph_step sam t ck true (g, init) o s = (Ok (g', init'), s') ->
  init !! marker_key_of o = None /\ is_Some (init' !! marker_key_of o) /\
  (forall k, k <> marker_key_of o -> init' !! k = init !! k).
Proof.
  unfold load_graph_step. intros Hrun.
  apply bind_Ok_inv in Hrun as (m & s0 & _ & Hrun).
  destruct (Map_find_marker m (obs_id o)) as [marker|].
  - apply bind_Ok_inv in Hrun as (cfm & s1 & _ & Hrun).
    apply bind_Ok_inv in Hrun as (init1 & s2 & Hins & Hrun).
    apply Values_insert_Ok_inv in Hins as (Hfresh & -> & ->).
    injection Hrun as <- <- <-. split; [exact Hfresh|]. split.
    + rewrite lookup_insert_eq. eauto.
    + intros k Hk. apply lookup_insert_ne. congruence.
  - apply bind_Ok_inv in Hrun as (cfm & s1 & _ & Hrun).
    apply bind_Ok_inv in Hrun as (init1 & s2 & Hins & Hrun).
    apply Values_insert_Ok_inv in Hins as (Hfresh & -> & ->).
    injection Hrun as <- <- <-. split; [exact Hfresh|]. split.
    + rewrite lookup_insert_eq. eauto.
    + intros k Hk. apply lookup_insert_ne. congruence.
Qed.

Lemma load_graph_loop_add_NoDup (sam : SamFiducialMath) (t : TransformWithCovariance)
    (ck : Key) (observations : Observations) :
  forall (g g' : NonlinearFactorGraph) (init init' : Values) (s s' : State),
  foldM (load_graph_step sam t ck true) observations (g, init) s = (Ok (g', init'), s') ->
  NoDup (map marker_key_of observations) /\
  (forall o, o ∈ observations -> init !! marker_key_of o = None).
Proof.
  induction observations as [|o obs IH]; intros g g' init init' s s' Hrun; simpl in *.
  - split; [constructor|]. intros o Ho. inversion Ho.
  - apply bind_Ok_inv in Hrun as ([g1 init1] & s1 & Hstep & Hrest).
    destruct (load_graph_step_add_key sam t ck g g1 init init1 o s s1 Hstep)
      as (Hfresh & Hin & Hother).
    destruct (IH g1 g' init1 init' s1 s' Hrest) as (Hnd & Hfree).
    assert (Hnotin : marker_key_of o ∉ map marker_key_of obs).
    { intros Hmem. apply list_elem_of_fmap in Hmem as (o' & Heq & Ho').
      specialize (Hfree o' Ho'). rewrite <- Heq in Hfree. rewrite Hfree in Hin.
      destruct Hin as [? Hin]. discriminate Hin. }
    split; [constructor; assumption|].
    intros o' Ho'. apply elem_of_cons in Ho' as [->|Ho']; [exact Hfresh|].
    rewrite <- Hother.
    + apply Hfree. exact Ho'.
    + intros Heq. apply Hnotin. rewrite <- Heq.
      apply list_elem_of_fmap. eauto.
Qed.

Lemma NoDup_keys_ids (observations : Observations) :
  NoDup (map marker_key_of observations) -> NoDup (map obs_id observations).
Proof.
  intros Hnd.
  change (map marker_key_of observations)
    with ((fun o => Symbol chr_m (to_uint64 (obs_id o))) <$> observations) in Hnd.
  apply (NoDup_fmap_1 (fun i => Symbol chr_m (to_uint64 i))).
  rewrite <- list_fmap_compose. exact Hnd.
Qed.

Lemma sam_update_map_load_raise (sam : SamFiducialMath)
    (t_map_camera : TransformWithCovariance) (observations : Observations)
    (s s1 : State) (f : Fault) :
  is_valid t_map_camera = true -> (2 <= length observations)%nat ->
  load_graph_from_observations sam t_map_camera observations (Symbol chr_c 0) true s
    = (Raise f, s1) ->
  sam_update_map sam t_map_camera observations s = (Raise f, s1) /\ map_ s1 = map_ s.
Proof.
  intros Hv Hl Hload. unfold sam_update_map. rewrite Hv.
  apply Nat.ltb_ge in Hl. rewrite Hl. simpl.
  rewrite (bind_Raise _ _ _ _ _ Hload). split; [reflexivity|].
  pose proof (keeps_load_graph_from_observations sam t_map_camera observations
                (Symbol chr_c 0) true s) as [Hm _].
  rewrite Hload in Hm. exact Hm.
Qed.

(** X11: a batch that holds two observations of one marker makes the
    factor-graph [update_map] throw before anything is written (GTSAM refuses
    the second insertion of the variable of the marker): the call ends in an
    exception and the map is what it was. *)
Theorem sam_update_map_duplicate_marker (sam : SamFiducialMath)
    (t_map_camera : TransformWithCovariance) (observations : Observations) (s : State) :
  is_valid t_map_camera = true -> (2 <= length observations)%nat ->
  ~ NoDup (map obs_id observations) ->
  exists f s', sam_update_map sam t_map_camera observations s = (Raise f, s') /\
               map_ s' = map_ s.
Proof.
  intros Hv Hl Hdup.
  destruct (load_graph_from_observations sam t_map_camera observations (Symbol chr_c 0) true s)
    as [[[g init]|f] s1] eqn:Hload.
  - exfalso. apply Hdup. apply NoDup_keys_ids.
    unfold load_graph_from_observations in Hload.
    apply bind_Ok_inv in Hload as ([g1 init1] & s2 & Hloop & _).
    exact (proj1 (load_graph_loop_add_NoDup sam t_map_camera (Symbol chr_c 0) observations
                    [] g1 ∅ init1 s s2 Hloop)).
  - exists f, s1. exact (sam_update_map_load_raise sam t_map_camera observations s s1 f
                           Hv Hl Hload).
Qed.

(** X12: the factor-graph [update_map] writes the map only after the joint
    graph has been optimised: when building the graph throws, or when the
    optimiser throws on the joint graph, the call ends in that exception and the
    map is what it was. *)
Theorem sam_update_map_writes_last (sam : SamFiducialMath)
    (t_map_camera : TransformWithCovariance) (observations : Observations) (s : State) :
  is_valid t_map_camera = true -> (2 <= length observations)%nat ->
  (forall f s1,
     load_graph_from_observations sam t_map_camera observations (Symbol chr_c 0) true s
       = (Raise f, s1) ->
     sam_update_map sam t_map_camera observations s = (Raise f, s1) /\ map_ s1 = map_ s) /\
  (forall g init s1,
     load_graph_from_observations sam t_map_camera observations (Symbol chr_c 0) true s
       = (Ok (g, init), s1) ->
     gtsam_optimize g init = None ->
     sam_update_map sam t_map_camera observations s
       = (Raise OptimizerException,
          mkState (map_ s) (callbacks_processed_ s) (trace s1 ++ [EvOptimize g init]))).
Proof.
  intros Hv Hl. split.
  - intros f s1. apply sam_update_map_load_raise; assumption.
  - intros g init s1 Hload Hopt.
    pose proof (keeps_load_graph_from_observations sam t_map_camera observations
                  (Symbol chr_c 0) true s) as [Hm Hn].
    rewrite Hload in Hm, Hn. simpl in Hm, Hn.
    unfold sam_update_map. rewrite Hv.
    apply Nat.ltb_ge in Hl. rewrite Hl. simpl.
    rewrite (bind_Ok _ _ _ _ _ Hload). unfold optimize.
    rewrite !bind_run. simpl. rewrite Hopt. simpl. rewrite Hm, Hn. reflexivity.
Qed.

End SamUpdate.

Section SamWrite.
Context `{External}.

(** What the write loop of the factor-graph update leaves under the id of an
    observation, given what the map held there and the pose extracted for it. *)
Definition sam_written_marker (o : Observation) (twc : TransformWithCovariance)
    (before : option Marker) : option Marker :=
  match before with
  | None => Some (mkMarker (obs_id o) twc false 1)
  | Some marker =>
    if is_fixed marker then Some marker
    else Some (mkMarker (marker_id marker) twc false (wrap_int (update_count marker + 1)))
  end.

Lemma extract_Ok_valid (g : NonlinearFactorGraph) (result : Values) (key : Key)
    (twc : TransformWithCovariance) (s s' : State) :
  extract_transform_with_covariance g result key s = (Ok twc, s') ->
  is_valid twc = true /\ map_ s' = map_ s.
Proof.
  intros Hrun.
  pose proof (keeps_extract g result key s) as [Hm _]. rewrite Hrun in Hm. simpl in Hm.
  split; [|exact Hm].
  unfold extract_transform_with_covariance in Hrun.
  apply bind_Ok_inv in Hrun as ([] & s0 & _ & Hrun).
  apply bind_Ok_inv in Hrun as (sam_pose & s1 & _ & Hrun).
  destruct (gtsam_marginalCovariance g result key); [|discriminate Hrun].
  injection Hrun as <- _. reflexivity.
Qed.

Lemma extract_Ok_inv (g : NonlinearFactorGraph) (result : Values) (key : Key)
    (twc : TransformWithCovariance) (s s' : State) :
  extract_transform_with_covariance g result key s = (Ok twc, s') ->
  exists sam_pose sam_cov,
    result !! key = Some sam_pose /\
    gtsam_marginalCovariance g result key = Some sam_cov /\
    twc = to_transform_with_covariance sam_pose sam_cov.
Proof.
  intros Hrun. unfold extract_transform_with_covariance in Hrun.
  apply bind_Ok_inv in Hrun as ([] & s0 & _ & Hrun).
  apply bind_Ok_inv in Hrun as (sam_pose & s1 & Hat & Hrun).
  unfold Values_at in Hat.
  destruct (result !! key) as [p|] eqn:Hp; [|discriminate Hat].
  injection Hat as -> _.
  destruct (gtsam_marginalCovariance g result key) as [sam_cov|] eqn:Hc; [|discriminate Hrun].
  injection Hrun as <- _. exists sam_pose, sam_cov. auto.
Qed.

Lemma sam_write_back_Ok (graph : NonlinearFactorGraph) (result : Values)
    (observations : Observations) :
  forall (s s' : State) (m : Map),
  NoDup (map obs_id observations) ->
  map_ s = Some m ->
  sam_write_back graph result observations s = (Ok tt, s') ->
  exists m',
    map_ s' = Some m' /\
    (forall j, j ∉ map obs_id observations -> markers m' !! j = markers m !! j) /\
    (forall o, o ∈ observations ->
       exists sam_pose sam_cov,
         result !! marker_key_of o = Some sam_pose /\
         gtsam_marginalCovariance graph result (marker_key_of o) = Some sam_cov /\
         is_valid (to_transform_with_covariance sam_pose sam_cov) = true /\
         markers m' !! obs_id o
         = sam_written_marker o (to_transform_with_covariance sam_pose sam_cov)
                              (markers m !! obs_id o)).
Proof.
  induction observations as [|o obs IH]; intros s s' m Hnd Hm Hrun.
  - injection Hrun as <-. exists m. split; [exact Hm|]. split; [reflexivity|].
    intros o Ho. inversion Ho.
  - simpl in Hnd. apply NoDup_cons in Hnd as [Hnotin Hnd].
    unfold sam_write_back in Hrun. simpl in Hrun.
    fold (sam_write_back graph result obs) in Hrun.
    apply bind_Ok_inv in Hrun as ([] & s1 & Hbody & Hrest).
    apply bind_Ok_inv in Hbody as (twc & s0 & Hext & Hbody).
    destruct (extract_Ok_valid _ _ _ _ _ _ Hext) as [Hvalid Hm0].
    destruct (extract_Ok_inv _ _ _ _ _ _ Hext) as (sam_pose & sam_cov & Hat & Hcov & Htwc).
    rewrite Hm in Hm0.
    rewrite (bind_Ok _ _ _ _ _ (get_map_run s0 m Hm0)) in Hbody.
    assert (Hstep : exists m1, map_ s1 = Some m1 /\
              (forall j, j <> obs_id o -> markers m1 !! j = markers m !! j) /\
              markers m1 !! obs_id o = sam_written_marker o twc (markers m !! obs_id o)).
    { unfold Map_find_marker in Hbody. unfold sam_written_marker.
      destruct (markers m !! obs_id o) as [marker|] eqn:Hfind.
      - destruct (is_fixed marker) eqn:Hfix; simpl in Hbody.
        + injection Hbody as <-. exists m. rewrite Hm0. auto.
        + unfold modify_map in Hbody. rewrite Hm0 in Hbody. injection Hbody as <-.
          eexists. split; [reflexivity|]. unfold Map_update_marker. simpl. split.
          * intros j Hj. apply lookup_alter_ne. congruence.
          * rewrite lookup_alter_eq, Hfind. simpl.
            unfold set_update_count, set_t_map_marker. simpl. rewrite Hfix. reflexivity.
      - unfold modify_map in Hbody. rewrite Hm0 in Hbody. injection Hbody as <-.
        eexists. split; [reflexivity|]. unfold Map_add_marker. simpl. rewrite Hfind. simpl.
        split.
        + intros j Hj. apply lookup_insert_ne. congruence.
        + apply lookup_insert_eq. }
    destruct Hstep as (m1 & Hm1 & Hother & Hhere).
    destruct (IH s1 s' m1 Hnd Hm1 Hrest) as (m' & Hm' & Hout & Hin).
    exists m'. split; [exact Hm'|]. split.
    + intros j Hj. simpl in Hj. apply not_elem_of_cons in Hj as [Hne Hj].
      rewrite (Hout j Hj). apply Hother. exact Hne.
    + intros o' Ho'. apply elem_of_cons in Ho' as [->|Ho'].
      * exists sam_pose, sam_cov. rewrite <- Htwc.
        split; [exact Hat|]. split; [exact Hcov|]. split; [exact Hvalid|].
        rewrite (Hout _ Hnotin). exact Hhere.
      * destruct (Hin o' Ho') as (sam_pose' & sam_cov' & Hat' & Hcov' & Hv' & Hw').
        exists sam_pose', sam_cov'.
        split; [exact Hat'|]. split; [exact Hcov'|]. split; [exact Hv'|]. rewrite Hw'. f_equal.
        apply Hother. intros Heq. apply Hnotin. rewrite <- Heq.
        apply list_elem_of_fmap. eauto.
Qed.

(** X13: when the factor-graph [update_map] returns, the joint graph was
    loaded and optimised, and the map holds a marker for every observation of
    the batch, whose pose is the one extracted from the result of that
    optimisation: the value of the marker's variable in the result, with its
    marginal covariance in the graph.  A marker that was not in the map is
    there under the id of the observation, not fixed, with update count 1; a
    known marker that is not fixed has the new pose and its update count plus
    one; a fixed marker is as it was; the poses written are valid; and the
    markers that the batch does not observe are as they were. *)
Theorem sam_update_map_written (sam : SamFiducialMath)
    (t_map_camera : TransformWithCovariance) (observations : Observations)
    (m : Map) (n : Z) (tr : list Event) (s' : State) :
  is_valid t_map_camera = true -> (2 <= length observations)%nat ->
  sam_update_map sam t_map_camera observations (mkState (Some m) n tr) = (Ok tt, s') ->
  exists graph initial s1 result m',
    load_graph_from_observations sam t_map_camera observations (Symbol chr_c 0) true
      (mkState (Some m) n tr) = (Ok (graph, initial), s1) /\
    gtsam_optimize graph initial = Some result /\
    map_ s' = Some m' /\
    (forall j, j ∉ map obs_id observations -> markers m' !! j = markers m !! j) /\
    (forall o, o ∈ observations ->
       exists sam_pose sam_cov,
         result !! marker_key_of o = Some sam_pose /\
         gtsam_marginalCovariance graph result (marker_key_of o) = Some sam_cov /\
         is_valid (to_transform_with_covariance sam_pose sam_cov) = true /\
         markers m' !! obs_id o
         = sam_written_marker o (to_transform_with_covariance sam_pose sam_cov)
                              (markers m !! obs_id o)).
Proof.
  intros Hv Hl Hrun. unfold sam_update_map in Hrun. rewrite Hv in Hrun.
  apply Nat.ltb_ge in Hl. rewrite Hl in Hrun. simpl in Hrun.
  apply bind_Ok_inv in Hrun as ([g init] & s1 & Hload & Hrun).
  apply bind_Ok_inv in Hrun as (result & s2 & Hopt & Hrun).
  pose proof (keeps_load_graph_from_observations sam t_map_camera observations
                (Symbol chr_c 0) true (mkState (Some m) n tr)) as [Hm1 _].
  rewrite Hload in Hm1. simpl in Hm1.
  pose proof (keeps_optimize g init s1) as [Hm2 _].
  rewrite Hopt in Hm2. simpl in Hm2. rewrite Hm1 in Hm2.
  assert (Hresult : gtsam_optimize g init = Some result).
  { unfold optimize in Hopt. apply bind_Ok_inv in Hopt as ([] & s0 & _ & Hopt).
    destruct (gtsam_optimize g init) as [r|]; [|discriminate Hopt].
    injection Hopt as -> _. reflexivity. }
  destruct (sam_write_back_Ok g result observations s2 s' m) as (m' & Hm' & Hout & Hin);
    [|exact Hm2|exact Hrun|].
  - apply NoDup_keys_ids.
    unfold load_graph_from_observations in Hload.
    apply bind_Ok_inv in Hload as ([g1 init1] & s3 & Hloop & _).
    exact (proj1 (load_graph_loop_add_NoDup sam t_map_camera (Symbol chr_c 0) observations
                    [] g1 ∅ init1 _ s3 Hloop)).
  - exists g, init, s1, result, m'.
    split; [exact Hload|]. split; [exact Hresult|]. split; [exact Hm'|].
    split; [exact Hout|exact Hin].
Qed.

End SamWrite.

Lemma sam_update_map_duplicate_marker_witness :
  exists f s',
    sam_update_map (H := stand_in) sam_600 identity_pose
      [observation_at 5 260%float 180%float; observation_at 5 262%float 181%float]
      (mkState (Some map_with_marker_0) 0 []) = (Raise f, s') /\
    map_ s' = Some map_with_marker_0.
Proof.
  apply (sam_update_map_duplicate_marker (H := stand_in) sam_600 identity_pose
           [observation_at 5 260%float 180%float; observation_at 5 262%float 181%float]
           (mkState (Some map_with_marker_0) 0 [])).
  - reflexivity.
  - simpl. lia.
  - simpl. intros Hnd. apply NoDup_cons in Hnd as [Hnotin _]. apply Hnotin. left.
Defined.

Lemma sam_update_map_writes_last_witness :
  fst (sam_update_map (H := stand_in_joint_failure) sam_600 identity_pose
         [observation_at 0 260%float 180%float; observation_at 7 380%float 180%float]
         (mkState (Some map_with_marker_0) 0 []))
  = Raise OptimizerException.
Proof.
  destruct (load_graph_from_observations (H := stand_in_joint_failure) sam_600 identity_pose
              [observation_at 0 260%float 180%float; observation_at 7 380%float 180%float]
              (Symbol chr_c 0) true (mkState (Some map_with_marker_0) 0 []))
    as [[[g init]|f] s1] eqn:Hload.
  - rewrite (proj2 (sam_update_map_writes_last (H := stand_in_joint_failure) sam_600
                      identity_pose
                      [observation_at 0 260%float 180%float; observation_at 7 380%float 180%float]
                      (mkState (Some map_with_marker_0) 0 []) eq_refl (le_n 2))
               g init s1 Hload).
    + reflexivity.
    + vm_compute in Hload. injection Hload as <- _ _. reflexivity.
  - vm_compute in Hload. discriminate Hload.
Defined.

Lemma sam_update_map_written_witness :
  exists m',
    map_ (snd (sam_update_map (H := stand_in) sam_600 identity_pose
                 [observation_at 0 260%float 180%float; observation_at 7 380%float 180%float]
                 (mkState (Some map_with_marker_0) 0 []))) = Some m' /\
    (forall j, j ∉ [0; 7] -> markers m' !! j = markers map_with_marker_0 !! j).
Proof.
  destruct (sam_update_map (H := stand_in) sam_600 identity_pose
              [observation_at 0 260%float 180%float; observation_at 7 380%float 180%float]
              (mkState (Some map_with_marker_0) 0 [])) as [[[]|f] s'] eqn:Hrun.
  - destruct (sam_update_map_written (H := stand_in) sam_600 identity_pose
                [observation_at 0 260%float 180%float; observation_at 7 380%float 180%float]
                map_with_marker_0 0 [] s' eq_refl (le_n 2) Hrun)
      as (g & init & s1 & result & m' & _ & _ & Hm' & Hout & _).
    exists m'. split; [exact Hm'|exact Hout].
  - vm_compute in Hrun. discriminate Hrun.
Defined.

(* ====================================================================== *)
(** ** The graphs of the single-marker solve and of the unused localisation *)
(* ====================================================================== *)

Section Graphs.
Context `{External}.

(** X14: [solve_camera_f_marker] first runs the geometric solver on the four
    canonical corners of the marker and the four image corners of the
    observation, then optimises a graph of exactly four resectioning factors,
    all on the camera variable ('c', 1), one per corner in order, starting from
    the inverse of the geometric solution; it does not touch the map. *)
Theorem solve_camera_f_marker_graph (sam : SamFiducialMath) (o : Observation)
    (L : double) (s : State) :
  let corners_f_marker := append_corners_f_marker L [] in
  let corners_f_image := append_corners_f_image o [] in
  let sol := cv_solvePnP corners_f_marker corners_f_image (cv_ci_ sam) in
  let graph :=
    map (fun pP : Point2 * Vector3 =>
           ResectioningFactor (corner_measurement_noise_ sam) camera_key_ (cal3ds2_ sam)
                              (fst pP) (snd pP))
        (combine corners_f_image corners_f_marker) in
  let initial : Values :=
    <[camera_key_ := to_pose3 (tf2_inverse (to_tf2_transform (fst sol) (snd sol)))]> ∅ in
  length graph = 4%nat /\
  map_ (snd (solve_camera_f_marker sam o L s)) = map_ s /\
  exists rest,
    trace (snd (solve_camera_f_marker sam o L s))
    = trace s ++ [EvSolvePnP corners_f_marker corners_f_image; EvOptimize graph initial] ++ rest.
Proof.
  intros corners_f_marker corners_f_image sol graph initial.
  split; [reflexivity|]. split; [apply keeps_solve_camera_f_marker|].
  unfold solve_camera_f_marker, cv_solve_t_camera_marker, solvePnP, optimize.
  rewrite !bind_run. simpl.
  fold corners_f_marker corners_f_image. fold sol.
  destruct sol as [rvec tvec] eqn:Hsol. simpl.
  unfold Values_insert. rewrite lookup_empty. simpl.
  rewrite !bind_run. simpl.
  change (resectioning_factors sam camera_key_ corners_f_image corners_f_marker [])
    with graph.
  subst initial. simpl.
  destruct (gtsam_optimize graph _) as [result|]; simpl.
  - unfold extract_transform_with_covariance. rewrite !bind_run. simpl.
    unfold Values_at.
    destruct (result !! camera_key_) as [sam_pose|]; simpl.
    + destruct (gtsam_marginalCovariance graph result camera_key_); simpl;
        rewrite <- ?app_assoc; simpl; eexists; reflexivity.
    + rewrite <- ?app_assoc; simpl; eexists; reflexivity.
  - rewrite <- ?app_assoc. simpl. exists []. reflexivity.
Qed.

Lemma resectioning_factors_eq (sam : SamFiducialMath) (key : Key)
    (corners_f_image : list Point2) (corners_3d : list Vector3) (g : NonlinearFactorGraph) :
  resectioning_factors sam key corners_f_image corners_3d g
  = g ++ map (fun pP : Point2 * Vector3 =>
                ResectioningFactor (corner_measurement_noise_ sam) key (cal3ds2_ sam)
                                   (fst pP) (snd pP))
             (combine corners_f_image corners_3d).
Proof.
  unfold resectioning_factors. f_equal. apply map_ext.
  intros [[x y] [a b c]]. reflexivity.
Qed.

Lemma sfm_graph_acc (sam : SamFiducialMath) (m : Map) (L : double)
    (observations : Observations) (g : NonlinearFactorGraph) :
  fold_left
    (fun graph (ot : Observation * TransformWithCovariance) =>
       let '(observation, t_map_marker) := ot in
       if is_valid t_map_marker then
         resectioning_factors sam camera_key_ (append_corners_f_image observation [])
           (append_corners_f_map t_map_marker L []) graph
       else graph)
    (combine observations (Map_find_t_map_markers m observations)) g
  = g ++
    flat_map
      (fun o =>
         match Map_find_marker m (obs_id o) with
         | Some marker =>
           if is_valid (t_map_marker marker) then
             map (fun pP : Point2 * Vector3 =>
                    ResectioningFactor (corner_measurement_noise_ sam) camera_key_
                                       (cal3ds2_ sam) (fst pP) (snd pP))
                 (combine (append_corners_f_image o [])
                          (map (tf2_apply (transform (t_map_marker marker)))
                               (append_corners_f_marker L [])))
           else []
         | None => []
         end) observations.
Proof.
  revert g. induction observations as [|o obs IH]; intros g; simpl.
  - rewrite app_nil_r. reflexivity.
  - rewrite IH. destruct (Map_find_marker m (obs_id o)) as [mk|]; simpl.
    + destruct (is_valid (t_map_marker mk)); simpl.
      * rewrite resectioning_factors_eq, <- app_assoc. reflexivity.
      * reflexivity.
    + reflexivity.
Qed.

(** X15: the graph of [solve_t_map_camera_sfm] (the localisation that nothing
    calls) holds, for each observation of a marker known with a valid pose and
    in the order of the observations, four resectioning factors on the camera
    variable whose image points are the corners of the observation and whose 3D
    points are the canonical corners of the marker transformed by the pose of
    the marker in the map; other observations contribute nothing. *)
Theorem sfm_graph_factors (sam : SamFiducialMath) (m : Map) (observations : Observations) :
  sfm_graph sam (marker_length m) observations (Map_find_t_map_markers m observations)
  = flat_map
      (fun o =>
         match Map_find_marker m (obs_id o) with
         | Some marker =>
           if is_valid (t_map_marker marker) then
             map (fun pP : Point2 * Vector3 =>
                    ResectioningFactor (corner_measurement_noise_ sam) camera_key_
                                       (cal3ds2_ sam) (fst pP) (snd pP))
                 (combine (append_corners_f_image o [])
                          (map (tf2_apply (transform (t_map_marker marker)))
                               (append_corners_f_marker (marker_length m) [])))
           else []
         | None => []
         end) observations /\
  length (sfm_graph sam (marker_length m) observations
            (Map_find_t_map_markers m observations))
  = (4 * length (List.filter (known_valid m) observations))%nat.
Proof.
  unfold sfm_graph. rewrite sfm_graph_acc. simpl. split; [reflexivity|].
  induction observations as [|o obs IH]; simpl; [reflexivity|].
  rewrite length_app, IH. unfold known_valid.
  destruct (Map_find_marker m (obs_id o)) as [mk|]; simpl; [|reflexivity].
  destruct (is_valid (t_map_marker mk)); simpl; lia.
Qed.

End Graphs.

(* ====================================================================== *)
(** ** The node: the lowest id, the initial map, the callback without a map *)
(* ====================================================================== *)

Lemma find_min_obs_snoc (observations : Observations) (o : Observation) :
  find_min_obs (observations ++ [o])
  = (if obs_id o <? fst (find_min_obs observations)
     then (obs_id o, Some o)
     else find_min_obs observations).
Proof.
  unfold find_min_obs. rewrite fold_left_app. simpl.
  destruct (fold_left _ observations (INT_MAX, None)) as [min_id min_obs]. reflexivity.
Qed.

(** X17: the search of [initialize_map_from_observations] ends with the lowest
    id of the batch, capped by [INT_MAX]; when some id is below [INT_MAX] the
    pointer is on the first observation that has the lowest id; when none is,
    the pointer was never assigned. *)
Theorem find_min_obs_lowest (observations : Observations) :
  (forall o, o ∈ observations -> fst (find_min_obs observations) <= obs_id o) /\
  fst (find_min_obs observations) <= INT_MAX /\
  match snd (find_min_obs observations) with
  | Some o =>
    obs_id o = fst (find_min_obs observations) /\ obs_id o < INT_MAX /\
    exists before after,
      observations = before ++ o :: after /\
      forall o', o' ∈ before -> obs_id o < obs_id o'
  | None =>
    fst (find_min_obs observations) = INT_MAX /\
    forall o, o ∈ observations -> INT_MAX <= obs_id o
  end.
Proof.
  induction observations as [|o obs IH] using rev_ind.
  - simpl. split; [intros o Ho; inversion Ho|]. split; [lia|].
    split; [reflexivity|]. intros o Ho. inversion Ho.
  - rewrite find_min_obs_snoc. destruct IH as (Hlow & Hcap & Hptr).
    destruct (Z.ltb_spec (obs_id o) (fst (find_min_obs obs))) as [Hlt|Hge]; simpl.
    + split.
      { intros o' Ho'. apply elem_of_app in Ho' as [Ho'|Ho'].
        - specialize (Hlow o' Ho'). lia.
        - apply list_elem_of_singleton in Ho'. subst o'. lia. }
      split; [lia|]. split; [reflexivity|]. split; [lia|].
      exists obs, []. split; [reflexivity|].
      intros o' Ho'. specialize (Hlow o' Ho'). lia.
    + split.
      { intros o' Ho'. apply elem_of_app in Ho' as [Ho'|Ho'].
        - exact (Hlow o' Ho').
        - apply list_elem_of_singleton in Ho'. subst o'. exact Hge. }
      split; [exact Hcap|].
      destruct (snd (find_min_obs obs)) as [omin|].
      * destruct Hptr as (Hid & Hmax & before & after & Hsplit & Hbefore).
        split; [exact Hid|]. split; [exact Hmax|].
        exists before, (after ++ [o]). split; [|exact Hbefore].
        rewrite Hsplit, <- app_assoc. reflexivity.
      * destruct Hptr as (Hid & Hall). split; [exact Hid|].
        intros o' Ho'. apply elem_of_app in Ho' as [Ho'|Ho'].
        -- exact (Hall o' Ho').
        -- apply list_elem_of_singleton in Ho'. subst o'. lia.
Qed.

Section InitializeMap.
Context `{YamlExternal}.

(** X18: when the node makes a map and the style is not 2, a map that
    [initialize_map] returns has exactly one marker, which is fixed; the style
    of the map is [covariance] with the factor-graph backend and [pose] with
    the geometric one, the marker length is the configured one.  With a style
    other than 0 and 2 the file is not read: [initialize_map] returns, and the
    marker is the configured one.  With style 0 the file is read, and an
    exception that leaves [from_YAML_file] leaves [initialize_map].  When the
    node uses a map and the file is read without a message, the map of the file
    is returned as it is; an exception of [from_YAML_file] leaves
    [initialize_map] here too. *)
Theorem initialize_map_single_fixed_marker (cxt_ : VmapContext) (filename : string)
    (file file' : option YamlDocument) :
  (cxt_make_not_use_map_ cxt_ = true -> cxt_map_init_style_ cxt_ <> 2 ->
   (forall r, initialize_map cxt_ filename file file' = YamlOk r ->
      exists mk,
        r = Some (mkMap (if cxt_sam_not_cv_ cxt_ then covariance else pose)
                        (cxt_marker_length_ cxt_) {[ marker_id mk := mk ]}) /\
        is_fixed mk = true) /\
   (cxt_map_init_style_ cxt_ <> 0 ->
    initialize_map cxt_ filename file file'
    = YamlOk (Some (mkMap (if cxt_sam_not_cv_ cxt_ then covariance else pose)
                          (cxt_marker_length_ cxt_)
                          {[ cxt_map_init_id_ cxt_ :=
                               mkMarker (cxt_map_init_id_ cxt_) (cxt_map_init_transform_ cxt_)
                                        true 1 ]}))) /\
   (cxt_map_init_style_ cxt_ = 0 ->
    forall e, from_YAML_file filename file' None = YamlThrow e ->
              initialize_map cxt_ filename file file' = YamlThrow e)) /\
  (cxt_make_not_use_map_ cxt_ = false ->
   (forall m, from_YAML_file filename file None = YamlOk (""%string, Some m) ->
              initialize_map cxt_ filename file file' = YamlOk (Some m)) /\
   (forall e, from_YAML_file filename file None = YamlThrow e ->
              initialize_map cxt_ filename file file' = YamlThrow e)).
Proof.
  assert (Hadd : forall mk, Map_add_marker mk
                   (Map_new (if cxt_sam_not_cv_ cxt_ then covariance else pose)
                      (cxt_marker_length_ cxt_))
                 = mkMap (if cxt_sam_not_cv_ cxt_ then covariance else pose)
                         (cxt_marker_length_ cxt_) {[ marker_id mk := mk ]}).
  { intros mk. unfold Map_add_marker, Map_new, set_markers. simpl.
    rewrite lookup_empty. reflexivity. }
  split.
  - intros Hmake Hstyle. unfold initialize_map. rewrite Hmake. simpl.
    apply Z.eqb_neq in Hstyle. rewrite Hstyle.
    destruct (cxt_map_init_style_ cxt_ =? 0) eqn:H0.
    + split; [|split].
      * intros r.
        destruct (from_YAML_file filename file' None) as [[err_msg map_temp]|e]; simpl;
          [|discriminate].
        destruct (String.eqb err_msg ""); simpl.
        -- destruct map_temp as [map_temp|]; [|discriminate].
           destruct (Map_find_marker map_temp (cxt_map_init_id_ cxt_)) as [marker_temp|];
             intros Heq; injection Heq as <-; rewrite Hadd; eexists;
             (split; [reflexivity|reflexivity]).
        -- intros Heq. injection Heq as <-. rewrite Hadd. eexists.
           split; [reflexivity|reflexivity].
      * intros Hne. apply Z.eqb_eq in H0. contradiction.
      * intros _ e He. rewrite He. reflexivity.
    + split; [|split].
      * intros r Heq. injection Heq as <-. rewrite Hadd. eexists.
        split; [reflexivity|reflexivity].
      * intros _. rewrite Hadd. reflexivity.
      * intros H0'. apply Z.eqb_neq in H0. contradiction.
  - intros Hmake. unfold initialize_map. rewrite Hmake. simpl. split.
    + intros m Hm. rewrite Hm. reflexivity.
    + intros e He. rewrite He. reflexivity.
Qed.

End InitializeMap.

Section NoMap.
Context `{External}.

(** X19: without a map ([map_] null, as style 2 leaves it), a message with no
    observation is only counted, whatever the camera message is, and the
    callback returns when the camera message has its five distortion
    coefficients; a message with observations ends the callback in a fault
    (with a camera message that can be read, because
    [initialize_map_from_observations] writes through the null [map_]); the
    callback is counted and [map_] is still null. *)
Theorem observations_callback_without_map (cxt_ : VmapContext) (msg : ObservationsMsg)
    (n : Z) (tr : list Event) :
  (msg_observations msg = [] ->
   snd (observations_callback cxt_ msg (mkState None n tr))
     = mkState None (wrap_int (n + 1)) tr /\
   ((5 <= length (msg_d (msg_camera_info msg)))%nat ->
    fst (observations_callback cxt_ msg (mkState None n tr)) = Ok tt) /\
   ((length (msg_d (msg_camera_info msg)) < 5)%nat ->
    fst (observations_callback cxt_ msg (mkState None n tr)) = Raise OutOfRangeRead)) /\
  (msg_observations msg <> [] ->
   exists f s',
     observations_callback cxt_ msg (mkState None n tr) = (Raise f, s') /\
     map_ s' = None /\ callbacks_processed_ s' = wrap_int (n + 1)).
Proof.
  split.
  - intros Hempty. apply only_counted. callback_camera. rewrite Hempty.
    destruct (5 <=? length (msg_d (msg_camera_info msg)))%nat; reflexivity.
  - intros Hne. callback_camera.
    destruct (msg_observations msg) as [|o obs] eqn:Hobs; [congruence|].
    destruct (5 <=? length (msg_d (msg_camera_info msg)))%nat eqn:Hd.
    2:{ eexists _, _. split; [reflexivity|]. split; reflexivity. }
    cbv beta iota.
    set (fm := FiducialMath_new (cxt_sam_not_cv_ cxt_) (cxt_corner_measurement_sigma_ cxt_)
                 (CvCameraInfo_read (msg_camera_info msg))).
    set (init := initialize_map_from_observations cxt_ (o :: obs) fm).
    rewrite !bind_run. simpl. rewrite !bind_run.
    destruct (initialize_map_from_observations_null cxt_ (o :: obs) fm (wrap_int (n + 1)) tr)
      as (f & s' & Hinit & Hnull).
    fold init in Hinit. rewrite Hinit.
    exists f, s'. split; [reflexivity|]. split; [exact Hnull|].
    subst init. unfold initialize_map_from_observations in Hinit.
    destruct (find_min_obs (o :: obs)) as [min_id [omin|]].
    + rewrite bind_run in Hinit. simpl in Hinit. rewrite bind_run in Hinit.
      unfold solve_t_camera_marker in Hinit.
      pose proof (keeps_cv_solve_t_camera_marker (cv_ fm) omin (cxt_marker_length_ cxt_)
                    (mkState None (wrap_int (n + 1)) tr)) as [Hm Hn].
      destruct (cv_solve_t_camera_marker (cv_ fm) omin (cxt_marker_length_ cxt_)
                  (mkState None (wrap_int (n + 1)) tr)) as [[t|f0] s1]; simpl in *.
      * unfold modify_map in Hinit. rewrite Hm in Hinit. injection Hinit as _ <-.
        exact Hn.
      * injection Hinit as _ <-. exact Hn.
    + rewrite bind_run in Hinit. simpl in Hinit. injection Hinit as _ <-. reflexivity.
Qed.

End NoMap.

Lemma initialize_map_single_fixed_marker_witness :
  initialize_map (H := yaml_stand_in)
    (mkVmapContext true 0.5%float 0.125%float 0 0 identity_pose true) "map.yaml"
    None (Some (Loaded file_bad_length))
  = YamlThrow BadConversion /\
  initialize_map (H := yaml_stand_in)
    (mkVmapContext true 0.5%float 0.125%float 1 7 identity_pose true) "map.yaml" None None
  = YamlOk (Some (mkMap covariance 0.125%float {[ 7 := mkMarker 7 identity_pose true 1 ]})).
Proof.
  split.
  - apply (proj2 (proj2 (proj1 (initialize_map_single_fixed_marker (H := yaml_stand_in)
                    (mkVmapContext true 0.5%float 0.125%float 0 0 identity_pose true)
                    "map.yaml" None (Some (Loaded file_bad_length)))
                    eq_refl ltac:(simpl; lia)))).
    + reflexivity.
    + vm_compute. reflexivity.
  - apply (proj1 (proj2 (proj1 (initialize_map_single_fixed_marker (H := yaml_stand_in)
                    (mkVmapContext true 0.5%float 0.125%float 1 7 identity_pose true)
                    "map.yaml" None None)
                    eq_refl ltac:(simpl; lia)))).
    simpl. lia.
Defined.

Lemma observations_callback_without_map_witness :
  exists f s',
    observations_callback (H := stand_in) cxt_style_2 first_batch (mkState None 0 [])
    = (Raise f, s') /\
    map_ s' = None /\ callbacks_processed_ s' = wrap_int (0 + 1).
Proof.
  apply (proj2 (observations_callback_without_map (H := stand_in) cxt_style_2 first_batch 0 [])).
  discriminate.
Defined.

(* ====================================================================== *)
(** ** The calibration of the factor graphs *)
(* ====================================================================== *)

#[local] Instance calibrated_preorder noise cal : PreOrder (calibrated noise cal).
Proof.
  split.
  - intros s Hs. exact Hs.
  - intros a b c Hab Hbc Ha. apply Hbc, Hab, Ha.
Qed.

Section Calibration.
Context `{External}.
Variable sam : SamFiducialMath.

Abbreviation cal_of_sam := (calibrated (corner_measurement_noise_ sam) (cal3ds2_ sam)).
Abbreviation graph_ok := (Forall (resectioning_ok (corner_measurement_noise_ sam) (cal3ds2_ sam))).

Lemma calibrated_emit (e : Event) :
  event_ok (corner_measurement_noise_ sam) (cal3ds2_ sam) e -> keeps cal_of_sam (emit e).
Proof.
  intros He s Hs. simpl. apply Forall_app. split; [exact Hs|].
  constructor; [exact He|constructor].
Qed.

Lemma calibrated_get_map : keeps cal_of_sam get_map.
Proof. intros s Hs. unfold get_map. destruct (map_ s); exact Hs. Qed.

Lemma calibrated_map_is_null : keeps cal_of_sam map_is_null.
Proof. intros s Hs. exact Hs. Qed.

Lemma calibrated_modify_map (f : Map -> Map) : keeps cal_of_sam (modify_map f).
Proof. intros s Hs. unfold modify_map. destruct (map_ s); exact Hs. Qed.

Lemma calibrated_count_callback : keeps cal_of_sam count_callback.
Proof. intros s Hs. exact Hs. Qed.

Lemma calibrated_Values_insert k p v : keeps cal_of_sam (Values_insert k p v).
Proof. unfold Values_insert. keeps_tac. Qed.

Lemma calibrated_Values_at v k : keeps cal_of_sam (Values_at v k).
Proof. unfold Values_at. keeps_tac. Qed.

Lemma calibrated_solvePnP c3 c2 ci : keeps cal_of_sam (solvePnP c3 c2 ci).
Proof.
  unfold solvePnP. apply keeps_bind; [exact _|apply calibrated_emit; exact I|].
  intros _. apply keeps_ret. exact _.
Qed.

Lemma calibrated_solvePnPRansac c3 c2 ci : keeps cal_of_sam (solvePnPRansac c3 c2 ci).
Proof.
  unfold solvePnPRansac. apply keeps_bind; [exact _|apply calibrated_emit; exact I|].
  intros _. apply keeps_ret. exact _.
Qed.

Hint Resolve calibrated_get_map calibrated_map_is_null calibrated_modify_map
  calibrated_count_callback calibrated_Values_insert calibrated_Values_at
  calibrated_solvePnP calibrated_solvePnPRansac : keeps.

Lemma calibrated_cv_solve_t_camera_marker ci o L :
  keeps cal_of_sam (cv_solve_t_camera_marker ci o L).
Proof. unfold cv_solve_t_camera_marker. keeps_tac. Qed.

Lemma calibrated_cv_solve_t_map_camera ci obs :
  keeps cal_of_sam (cv_solve_t_map_camera ci obs).
Proof. unfold cv_solve_t_map_camera. keeps_tac. Qed.

Lemma calibrated_optimize g init : graph_ok g -> keeps cal_of_sam (optimize g init).
Proof.
  intros Hg. unfold optimize. apply keeps_bind; [exact _|apply calibrated_emit; exact Hg|].
  intros _. keeps_tac.
Qed.

Lemma calibrated_extract g r k :
  keeps cal_of_sam (extract_transform_with_covariance g r k).
Proof.
  unfold extract_transform_with_covariance.
  apply keeps_bind; [exact _|apply calibrated_emit; exact I|]. intros _. keeps_tac.
Qed.

Hint Resolve calibrated_cv_solve_t_camera_marker calibrated_cv_solve_t_map_camera
  calibrated_extract : keeps.

Lemma graph_ok_resectioning_factors c2 c3 g :
  graph_ok g -> graph_ok (resectioning_factors sam camera_key_ c2 c3 g).
Proof.
  intros Hg. unfold resectioning_factors. apply Forall_app. split; [exact Hg|].
  apply Forall_forall. intros f Hf. apply list_elem_of_In, in_map_iff in Hf.
  destruct Hf as (pP & <- & _).
  simpl. repeat split.
Qed.

Lemma calibrated_solve_camera_f_marker o L :
  keeps cal_of_sam (solve_camera_f_marker sam o L).
Proof.
  unfold solve_camera_f_marker.
  apply keeps_bind; [exact _|auto with keeps|]. intros t.
  apply keeps_bind; [exact _|auto with keeps|]. intros init.
  apply keeps_bind; [exact _| |intros r; auto with keeps].
  apply calibrated_optimize, graph_ok_resectioning_factors. constructor.
Qed.

Hint Resolve calibrated_solve_camera_f_marker : keeps.

Lemma calibrated_load_graph_step t ck add gi o :
  keeps cal_of_sam (load_graph_step sam t ck add gi o).
Proof. unfold load_graph_step. keeps_tac. Qed.

Hint Resolve calibrated_load_graph_step : keeps.

Lemma calibrated_load_graph_from_observations t obs ck add :
  keeps cal_of_sam (load_graph_from_observations sam t obs ck add).
Proof. unfold load_graph_from_observations. keeps_tac. Qed.

(** The joint graph has no resectioning factor. *)
Lemma load_graph_step_no_resectioning t ck add g g' init init' o s s' :
  Forall (fun f => is_resectioning f = false) g ->
  load_graph_step sam t ck add (g, init) o s = (Ok (g', init'), s') ->
  Forall (fun f => is_resectioning f = false) g'.
Proof.
  intros Hg Hrun. unfold load_graph_step in Hrun.
  apply bind_Ok_inv in Hrun as (m & s0 & _ & Hrun).
  destruct (Map_find_marker m (obs_id o)) as [marker|].
  - apply bind_Ok_inv in Hrun as (cfm & s1 & _ & Hrun).
    apply bind_Ok_inv in Hrun as (init1 & s2 & _ & Hrun).
    injection Hrun as <- _ _.
    repeat (apply Forall_app; split); [exact Hg| |]; constructor; try reflexivity; constructor.
  - destruct add.
    + apply bind_Ok_inv in Hrun as (cfm & s1 & _ & Hrun).
      apply bind_Ok_inv in Hrun as (init1 & s2 & _ & Hrun).
      injection Hrun as <- _ _.
      apply Forall_app; split; [exact Hg|]. constructor; [reflexivity|constructor].
    + injection Hrun as <- _ _. exact Hg.
Qed.

Lemma load_graph_loop_no_resectioning t ck add obs :
  forall g g' init init' s s',
  Forall (fun f => is_resectioning f = false) g ->
  foldM (load_graph_step sam t ck add) obs (g, init) s = (Ok (g', init'), s') ->
  Forall (fun f => is_resectioning f = false) g'.
Proof.
  induction obs as [|o obs IH]; intros g g' init init' s s' Hg Hrun; simpl in Hrun.
  - injection Hrun as <- _ _. exact Hg.
  - apply bind_Ok_inv in Hrun as ([g1 init1] & s1 & Hstep & Hrest).
    eapply IH; [|exact Hrest].
    eapply load_graph_step_no_resectioning; eassumption.
Qed.

Lemma load_graph_graph_ok t obs ck add g init s s' :
  load_graph_from_observations sam t obs ck add s = (Ok (g, init), s') -> graph_ok g.
Proof.
  intros Hrun. unfold load_graph_from_observations in Hrun.
  apply bind_Ok_inv in Hrun as ([g1 init1] & s1 & Hloop & Hrun).
  apply bind_Ok_inv in Hrun as (init2 & s2 & _ & Hrun).
  injection Hrun as <- _ _.
  apply load_graph_loop_no_resectioning in Hloop; [|constructor].
  eapply Forall_impl; [exact Hloop|].
  intros f Hf. destruct f; try exact I. discriminate.
Qed.

(** Running the joint graph: the graph is the one just loaded. *)
Lemma calibrated_run_joint_graph {A} (t : TransformWithCovariance) (obs : Observations)
    (ck : Key) (add : bool) (k : NonlinearFactorGraph -> Values -> M A) :
  (forall g r, keeps cal_of_sam (k g r)) ->
  keeps cal_of_sam
    (gi <- load_graph_from_observations sam t obs ck add ;;
     let '(graph, initial) := gi in
     result <- optimize graph initial ;;
     k graph result).
Proof.
  intros Hk s. rewrite bind_run.
  pose proof (calibrated_load_graph_from_observations t obs ck add s) as Hload.
  destruct (load_graph_from_observations sam t obs ck add s) as [[[g init]|f] s1] eqn:Hrun;
    simpl in *; [|exact Hload].
  transitivity s1; [exact Hload|].
  apply (keeps_bind _ (optimize g init) (k g)).
  - apply calibrated_optimize. eapply load_graph_graph_ok. exact Hrun.
  - intros r. apply Hk.
Qed.

Lemma calibrated_sam_solve_t_map_camera obs :
  keeps cal_of_sam (sam_solve_t_map_camera sam obs).
Proof.
  unfold sam_solve_t_map_camera.
  apply keeps_bind; [exact _|auto with keeps|]. intros t.
  destruct (negb (is_valid t)); [apply keeps_ret; exact _|].
  apply (calibrated_run_joint_graph t obs camera_key_ false
           (fun g r => extract_transform_with_covariance g r camera_key_)).
  intros g r. auto with keeps.
Qed.

Lemma calibrated_sam_write_back g r obs : keeps cal_of_sam (sam_write_back g r obs).
Proof.
  unfold sam_write_back. apply keeps_forM_; [exact _|]. intros o _. keeps_tac.
Qed.

Lemma calibrated_sam_update_map t obs : keeps cal_of_sam (sam_update_map sam t obs).
Proof.
  unfold sam_update_map.
  destruct (negb (is_valid t) || (length obs <? 2)%nat); [apply keeps_ret; exact _|].
  apply (calibrated_run_joint_graph t obs (Symbol chr_c 0) true
           (fun g r => sam_write_back g r obs)).
  intros g r. apply calibrated_sam_write_back.
Qed.

Lemma calibrated_cv_update_map ci t obs : keeps cal_of_sam (cv_update_map ci t obs).
Proof.
  unfold cv_update_map. apply keeps_forM_; [exact _|]. intros o _.
  unfold update_marker_simple_average. keeps_tac.
Qed.

Lemma calibrated_solve_t_map_camera (fm : FiducialMath) obs :
  sam_ fm = sam -> keeps cal_of_sam (solve_t_map_camera fm obs).
Proof.
  intros Hsam. unfold solve_t_map_camera. rewrite Hsam. destruct (sam_not_cv_ fm).
  - apply calibrated_sam_solve_t_map_camera.
  - apply calibrated_cv_solve_t_map_camera.
Qed.

Lemma calibrated_update_map (fm : FiducialMath) t obs :
  sam_ fm = sam -> keeps cal_of_sam (update_map fm t obs).
Proof.
  intros Hsam. unfold update_map. rewrite Hsam. destruct (sam_not_cv_ fm).
  - apply calibrated_sam_update_map.
  - apply calibrated_cv_update_map.
Qed.

Lemma calibrated_initialize_map_from_observations cxt_ obs (fm : FiducialMath) :
  keeps cal_of_sam (initialize_map_from_observations cxt_ obs fm).
Proof.
  unfold initialize_map_from_observations, solve_t_camera_marker.
  destruct (find_min_obs obs) as [min_id min_obs]. keeps_tac.
Qed.

Lemma calibrated_observations_callback cxt_ msg :
  sam_ (FiducialMath_new (cxt_sam_not_cv_ cxt_) (cxt_corner_measurement_sigma_ cxt_)
          (CvCameraInfo_read (msg_camera_info msg))) = sam ->
  keeps cal_of_sam (observations_callback cxt_ msg).
Proof.
  intros Hsam. unfold observations_callback.
  apply keeps_bind; [exact _|apply calibrated_count_callback|]. intros _.
  apply keeps_CvCameraInfo_of_msg; [exact _|].
  apply keeps_bind; [exact _|apply calibrated_map_is_null|]. intros no_map.
  apply keeps_bind; [exact _| |intros _].
  - destruct (no_map && _); [apply calibrated_initialize_map_from_observations|].
    apply keeps_ret. exact _.
  - destruct (_ <? 2)%nat; [apply keeps_ret; exact _|].
    apply keeps_bind; [exact _|apply calibrated_solve_t_map_camera; exact Hsam|].
    intros t. destruct (is_valid t); [|apply keeps_ret; exact _].
    apply calibrated_update_map. exact Hsam.
Qed.

End Calibration.

Section CalibrationOfCallback.
Context `{External}.

(** X28: the calibration of the factor graphs.  Every resectioning factor of
    every graph that one run of [observations_callback] hands to the optimiser
    is a factor on the camera variable c1, with the noise
    (sigma, sigma) of the parameter [corner_measurement_sigma_] and with the
    calibration read from the camera message of this run: fx = k[0],
    fy = k[4], u0 = k[2], v0 = k[5], k1, k2, p1, p2 = d[0] to d[3]; the skew is
    1 whatever the message holds and the fifth distortion coefficient is not
    used. *)
Theorem observations_callback_calibration (cxt_ : VmapContext) (msg : ObservationsMsg)
    (m : option Map) (n : Z) :
  Forall
    (fun ev =>
       match ev with
       | EvOptimize graph _ =>
         Forall
           (fun f =>
              match f with
              | ResectioningFactor noise key cal _ _ =>
                noise = Diagonal_Sigmas [cxt_corner_measurement_sigma_ cxt_;
                                         cxt_corner_measurement_sigma_ cxt_] /\
                key = Symbol chr_c 1 /\
                cal = mkCal3DS2 (msg_at (msg_k (msg_camera_info msg)) 0)
                                (msg_at (msg_k (msg_camera_info msg)) 4)
                                1%float
                                (msg_at (msg_k (msg_camera_info msg)) 2)
                                (msg_at (msg_k (msg_camera_info msg)) 5)
                                (msg_at (msg_d (msg_camera_info msg)) 0)
                                (msg_at (msg_d (msg_camera_info msg)) 1)
                                (msg_at (msg_d (msg_camera_info msg)) 2)
                                (msg_at (msg_d (msg_camera_info msg)) 3)
              | _ => True
              end) graph
       | _ => True
       end)
    (trace (snd (observations_callback cxt_ msg (mkState m n [])))).
Proof.
  pose proof (calibrated_observations_callback _ cxt_ msg eq_refl (mkState m n [])) as Hk.
  apply Hk. constructor.
Qed.

End CalibrationOfCallback.

(* ====================================================================== *)
(** ** Detections and the map file *)
(* ====================================================================== *)

Lemma take_4_lookups {A} (c : list A) (p0 p1 p2 p3 : A) :
  c !! 0%nat = Some p0 -> c !! 1%nat = Some p1 -> c !! 2%nat = Some p2 ->
  c !! 3%nat = Some p3 -> take 4 c = [p0; p1; p2; p3].
Proof.
  destruct c as [|a0 [|a1 [|a2 [|a3 c]]]]; intros H0 H1 H2 H3;
    cbn in H0, H1, H2, H3; try discriminate.
  rewrite firstn_cons, firstn_cons, firstn_cons, firstn_cons, firstn_O. congruence.
Qed.

Lemma to_observations_from_Some (n : nat) :
  forall (i : nat) (ids : list Z) (corners : list (list Point2)) (obs : Observations),
  to_observations_from i n ids corners = Some obs ->
  map obs_id obs = take n (drop i ids) /\
  map observation_corners obs = map (take 4) (take n (drop i corners)) /\
  (forall j, (i <= j < i + n)%nat -> exists c, corners !! j = Some c /\ (4 <= length c)%nat).
Proof.
  induction n as [|n IH]; intros i ids corners obs; simpl.
  - intros Heq. injection Heq as <-. rewrite !take_0.
    split; [reflexivity|]. split; [reflexivity|]. intros j Hj. lia.
  - destruct (ids !! i) as [id_i|] eqn:Hid; [|discriminate].
    destruct (corners !! i) as [c|] eqn:Hc; [|discriminate].
    destruct (c !! 0%nat) as [p0|] eqn:H0; [|discriminate].
    destruct (c !! 1%nat) as [p1|] eqn:H1; [|discriminate].
    destruct (c !! 2%nat) as [p2|] eqn:H2; [|discriminate].
    destruct (c !! 3%nat) as [p3|] eqn:H3; [|discriminate].
    destruct (to_observations_from (S i) n ids corners) as [rest|] eqn:Hrest; [|discriminate].
    intros Heq. injection Heq as <-.
    destruct (IH _ _ _ _ Hrest) as (Hids & Hcs & Hall).
    rewrite (drop_S _ _ _ Hid), (drop_S _ _ _ Hc). simpl.
    rewrite Hids, Hcs, (take_4_lookups c p0 p1 p2 p3 H0 H1 H2 H3).
    destruct p0, p1, p2, p3. split; [reflexivity|]. split; [reflexivity|].
    intros j Hj. destruct (decide (j = i)) as [->|Hne].
    + exists c. split; [exact Hc|]. apply lookup_lt_Some in H3. lia.
    + apply Hall. lia.
Qed.

Lemma to_observations_from_None (n : nat) :
  forall (i : nat) (ids : list Z) (corners : list (list Point2)),
  (i + n <= length ids)%nat ->
  to_observations_from i n ids corners = None ->
  exists j, (i <= j < i + n)%nat /\
    match corners !! j with Some c => (length c < 4)%nat | None => True end.
Proof.
  induction n as [|n IH]; intros i ids corners Hlen; simpl; [discriminate|].
  destruct (ids !! i) as [id_i|] eqn:Hid.
  2:{ apply lookup_ge_None in Hid. lia. }
  destruct (corners !! i) as [c|] eqn:Hc.
  2:{ intros _. exists i. rewrite Hc. split; [lia|exact I]. }
  destruct (c !! 0%nat) as [p0|] eqn:H0.
  2:{ intros _. exists i. rewrite Hc. apply lookup_ge_None in H0. split; lia. }
  destruct (c !! 1%nat) as [p1|] eqn:H1.
  2:{ intros _. exists i. rewrite Hc. apply lookup_ge_None in H1. split; lia. }
  destruct (c !! 2%nat) as [p2|] eqn:H2.
  2:{ intros _. exists i. rewrite Hc. apply lookup_ge_None in H2. split; lia. }
  destruct (c !! 3%nat) as [p3|] eqn:H3.
  2:{ intros _. exists i. rewrite Hc. apply lookup_ge_None in H3. split; lia. }
  destruct (to_observations_from (S i) n ids corners) as [rest|] eqn:Hrest; [discriminate|].
  intros _. destruct (IH (S i) ids corners ltac:(lia) Hrest) as (j & Hj & Hbad).
  exists j. split; [lia|exact Hbad].
Qed.

(** X27: [to_observations] makes one observation of each detected id, in the
    order of the ids, with that id and the first four corners of the detection
    of the same index; it reads beyond what there is exactly when, below the
    number of ids, a detection is missing or has fewer than four corners. *)
Theorem to_observations_ids (ids : list Z) (corners : list (list Point2)) :
  match to_observations ids corners with
  | Some obs =>
    map obs_id obs = ids /\
    map observation_corners obs = map (take 4) (take (length ids) corners) /\
    (forall j, (j < length ids)%nat ->
       exists c, corners !! j = Some c /\ (4 <= length c)%nat)
  | None =>
    exists j, (j < length ids)%nat /\
      match corners !! j with Some c => (length c < 4)%nat | None => True end
  end.
Proof.
  unfold to_observations.
  destruct (to_observations_from 0 (length ids) ids corners) as [obs|] eqn:E.
  - apply to_observations_from_Some in E. destruct E as (Hids & Hcs & Hall).
    simpl in Hids, Hcs. rewrite firstn_all in Hids.
    split; [exact Hids|]. split; [exact Hcs|]. intros j Hj. apply Hall. lia.
  - apply to_observations_from_None in E; [|lia].
    destruct E as (j & Hj & Hbad). exists j. split; [lia|exact Hbad].
Qed.

Section YamlParser.
Context `{YamlExternal}.

Lemma read_doubles_inv (node : YamlNode) (msg : string) (n : nat) :
  forall i r l, read_doubles node msg i n = YamlOk (r, l) ->
    (r = None /\ length l = n) \/ r = Some msg.
Proof.
  induction n as [|n IH]; intros i r l; simpl.
  - intros Heq. injection Heq as <- <-. left. split; reflexivity.
  - destruct (IsScalar (node_at_index node i)); simpl.
    + destruct (node_as_double (node_at_index node i)) as [d|e]; simpl; [|discriminate].
      destruct (read_doubles node msg (S i) n) as [[r' l']|e] eqn:E; simpl; [|discriminate].
      intros Heq. injection Heq as <- <-.
      destruct (IH _ _ _ E) as [[-> Hl]| ->]; [left|right; reflexivity].
      split; [reflexivity|]. simpl. rewrite Hl. reflexivity.
    + intros Heq. injection Heq as <- <-. right. reflexivity.
Qed.

Lemma read_doubles_throw (node : YamlNode) (msg : string) (n : nat) :
  forall i e, read_doubles node msg i n = YamlThrow e -> e = BadConversion.
Proof.
  induction n as [|n IH]; intros i e; simpl; [discriminate|].
  destruct (IsScalar (node_at_index node i)); simpl; [|discriminate].
  unfold node_as_double.
  destruct (node_at_index node i) as [| |t|l|l]; simpl; try (intros Heq; congruence).
  destruct (as_double t); simpl; [|intros Heq; congruence].
  destruct (read_doubles node msg (S i) n) as [[r' l']|e'] eqn:E; simpl; [discriminate|].
  intros Heq. injection Heq as <-. eapply IH. exact E.
Qed.

#[local] Arguments read_doubles : simpl never.

Lemma node_as_int_throw (n : YamlNode) (e : YamlFault) :
  node_as_int n = YamlThrow e -> e = BadConversion.
Proof.
  unfold node_as_int. destruct n as [| |t|l|l]; try (intros Heq; congruence).
  destruct (as_int t); intros Heq; congruence.
Qed.

Lemma node_as_double_throw (n : YamlNode) (e : YamlFault) :
  node_as_double n = YamlThrow e -> e = BadConversion.
Proof.
  unfold node_as_double. destruct n as [| |t|l|l]; try (intros Heq; congruence).
  destruct (as_double t); intros Heq; congruence.
Qed.

Lemma read_cov_inv (marker_node : YamlNode) (m : Map) (r : option string) (c : cov_type) :
  read_cov marker_node m = YamlOk (r, c) ->
  (r = None /\ length c = 36%nat /\ (map_style m = pose -> c = cov_zero)) \/
  (exists msg, r = Some msg /\ msg <> ""%string).
Proof.
  unfold read_cov. destruct (MapStyles_eqb (map_style m) pose) eqn:Hs; simpl.
  - intros Heq. injection Heq as <- <-. left. repeat split; reflexivity.
  - destruct (IsSequence _); simpl.
    + destruct (Nat.eqb _ 36); simpl.
      * intros Heq. apply read_doubles_inv in Heq. destruct Heq as [[-> Hl]| ->].
        -- left. repeat split; [exact Hl|]. intros Hp. rewrite Hp in Hs. discriminate.
        -- right. eexists. split; [reflexivity|discriminate].
      * intros Heq. injection Heq as <- <-. right. eexists. split; [reflexivity|discriminate].
    + intros Heq. injection Heq as <- <-. right. eexists. split; [reflexivity|discriminate].
Qed.

Lemma read_cov_throw (marker_node : YamlNode) (m : Map) (e : YamlFault) :
  read_cov marker_node m = YamlThrow e -> e = BadConversion.
Proof.
  unfold read_cov. destruct (MapStyles_eqb (map_style m) pose); simpl; [discriminate|].
  destruct (IsSequence _); simpl; [|discriminate].
  destruct (Nat.eqb _ 36); simpl; [|discriminate].
  apply read_doubles_throw.
Qed.

Ltac yaml_fail :=
  let Heq := fresh "Heq" in
  intros Heq; unfold yaml_error in Heq; injection Heq as <- <-; simpl;
  split; [discriminate | reflexivity].

Lemma from_marker_inv (marker_node : YamlNode) (this this' : FromYAML) (b : bool) :
  from_marker marker_node this = YamlOk (b, this') ->
  if b
  then error_msg_ this' = error_msg_ this /\
       exists m mk, yaml_map_ this = Some m /\
         yaml_map_ this' = Some (Map_add_marker mk m) /\
         is_valid (t_map_marker mk) = true /\
         length (cov (t_map_marker mk)) = 36%nat /\
         (map_style m = pose -> cov (t_map_marker mk) = cov_zero)
  else error_msg_ this' <> ""%string /\ yaml_map_ this' = yaml_map_ this.
Proof.
  unfold from_marker.
  destruct (IsScalar (node_at_key marker_node "id")); simpl; [|yaml_fail].
  destruct (IsScalar (node_at_key marker_node "u")); simpl; [|yaml_fail].
  destruct (IsScalar (node_at_key marker_node "f")); simpl; [|yaml_fail].
  destruct (IsSequence (node_at_key marker_node "xyz")); simpl; [|yaml_fail].
  destruct (Nat.eqb (node_size (node_at_key marker_node "xyz")) 3); simpl; [|yaml_fail].
  destruct (IsSequence (node_at_key marker_node "rpy")); simpl; [|yaml_fail].
  destruct (Nat.eqb (node_size (node_at_key marker_node "rpy")) 3); simpl; [|yaml_fail].
  destruct (read_doubles (node_at_key marker_node "xyz") _ 0 3) as [[r1 l1]|e] eqn:E1;
    simpl; [|discriminate].
  apply read_doubles_inv in E1.
  destruct E1 as [[-> Hl1]| ->]; [|yaml_fail].
  destruct (read_doubles (node_at_key marker_node "rpy") _ 0 3) as [[r2 l2]|e] eqn:E2;
    simpl; [|discriminate].
  apply read_doubles_inv in E2.
  destruct E2 as [[-> Hl2]| ->]; [|yaml_fail].
  destruct (yaml_map_ this) as [m|] eqn:Hm; [|discriminate].
  destruct (read_cov marker_node m) as [[r3 c]|e] eqn:E3; simpl; [|discriminate].
  apply read_cov_inv in E3.
  destruct E3 as [(-> & Hc & Hp)|(msg & -> & Hmsg)].
  - destruct (node_as_int (node_at_key marker_node "id")) as [id_v|e]; simpl; [|discriminate].
    destruct (node_as_int (node_at_key marker_node "f")) as [f_v|e]; simpl; [|discriminate].
    destruct (node_as_int (node_at_key marker_node "u")) as [u_v|e]; simpl; [|discriminate].
    intros Heq. injection Heq as <- <-. simpl. split; [reflexivity|].
    eexists _, _. split; [reflexivity|]. split; [reflexivity|]. simpl.
    split; [reflexivity|]. split; assumption.
  - intros Heq. unfold yaml_error in Heq. injection Heq as <- <-. simpl.
    split; [exact Hmsg|]. congruence.
Qed.

Lemma from_marker_throw (marker_node : YamlNode) (this : FromYAML) (e : YamlFault) :
  from_marker marker_node this = YamlThrow e ->
  yaml_map_ this <> None -> e = BadConversion.
Proof.
  unfold from_marker. intros Heq Hsome.
  destruct (IsScalar (node_at_key marker_node "id")); simpl in Heq; [|discriminate].
  destruct (IsScalar (node_at_key marker_node "u")); simpl in Heq; [|discriminate].
  destruct (IsScalar (node_at_key marker_node "f")); simpl in Heq; [|discriminate].
  destruct (IsSequence (node_at_key marker_node "xyz")); simpl in Heq; [|discriminate].
  destruct (Nat.eqb (node_size (node_at_key marker_node "xyz")) 3); simpl in Heq; [|discriminate].
  destruct (IsSequence (node_at_key marker_node "rpy")); simpl in Heq; [|discriminate].
  destruct (Nat.eqb (node_size (node_at_key marker_node "rpy")) 3); simpl in Heq; [|discriminate].
  destruct (read_doubles (node_at_key marker_node "xyz") _ 0 3) as [[r1 l1]|e1] eqn:E1;
    simpl in Heq.
  2:{ injection Heq as <-. eapply read_doubles_throw. exact E1. }
  destruct r1; [discriminate|].
  destruct (read_doubles (node_at_key marker_node "rpy") _ 0 3) as [[r2 l2]|e2] eqn:E2;
    simpl in Heq.
  2:{ injection Heq as <-. eapply read_doubles_throw. exact E2. }
  destruct r2; [discriminate|].
  destruct (yaml_map_ this) as [m|]; [|congruence].
  destruct (read_cov marker_node m) as [[r3 c]|e3] eqn:E3; simpl in Heq.
  2:{ injection Heq as <-. eapply read_cov_throw. exact E3. }
  destruct r3; [discriminate|].
  destruct (node_as_int (node_at_key marker_node "id")) as [id_v|e4] eqn:E4; simpl in Heq.
  2:{ injection Heq as <-. eapply node_as_int_throw. exact E4. }
  destruct (node_as_int (node_at_key marker_node "f")) as [f_v|e5] eqn:E5; simpl in Heq.
  2:{ injection Heq as <-. eapply node_as_int_throw. exact E5. }
  destruct (node_as_int (node_at_key marker_node "u")) as [u_v|e6] eqn:E6; simpl in Heq.
  2:{ injection Heq as <-. eapply node_as_int_throw. exact E6. }
  discriminate.
Qed.

Lemma Map_add_marker_parsed_ok (mk : Marker) (m : Map) :
  parsed_ok m ->
  is_valid (t_map_marker mk) = true ->
  length (cov (t_map_marker mk)) = 36%nat ->
  (map_style m = pose -> cov (t_map_marker mk) = cov_zero) ->
  parsed_ok (Map_add_marker mk m).
Proof.
  intros Hok Hv Hl Hp. unfold Map_add_marker.
  destruct (markers m !! marker_id mk) eqn:Hfind; [exact Hok|].
  intros k mk'. simpl.
  destruct (decide (k = marker_id mk)) as [->|Hne].
  - rewrite lookup_insert_eq. intros Heq. injection Heq as <-. repeat split; assumption.
  - rewrite lookup_insert_ne by congruence. apply Hok.
Qed.

Lemma Map_add_marker_style (mk : Marker) (m : Map) :
  map_style (Map_add_marker mk m) = map_style m /\
  marker_length (Map_add_marker mk m) = marker_length m.
Proof.
  unfold Map_add_marker. destruct (markers m !! marker_id mk); split; reflexivity.
Qed.

Lemma from_markers_loop_inv (l : list YamlNode) :
  forall (this this' : FromYAML) (b : bool),
  from_markers_loop l this = YamlOk (b, this') ->
  if b
  then error_msg_ this' = error_msg_ this /\
       forall m, yaml_map_ this = Some m -> parsed_ok m ->
         exists m', yaml_map_ this' = Some m' /\ map_style m' = map_style m /\
                    marker_length m' = marker_length m /\ parsed_ok m'
  else error_msg_ this' <> ""%string.
Proof.
  induction l as [|n l IH]; intros this this' b; simpl.
  - intros Heq. injection Heq as <- <-. split; [reflexivity|].
    intros m Hm Hok. exists m. split; [exact Hm|]. split; [reflexivity|].
    split; [reflexivity|exact Hok].
  - destruct (IsMap n).
    + destruct (from_marker n this) as [[b1 this1]|e] eqn:E1; simpl; [|discriminate].
      apply from_marker_inv in E1. destruct b1.
      * intros Hrest. apply IH in Hrest. destruct E1 as [Hmsg (m1 & mk & Hm1 & Hm1' & Hv & Hl & Hp)].
        destruct b.
        -- destruct Hrest as [Hmsg' Hrest]. split; [congruence|].
           intros m Hm Hok. rewrite Hm in Hm1. injection Hm1 as <-.
           destruct (Hrest _ Hm1') as (m' & Hm' & Hs & Hlen & Hok').
           { apply Map_add_marker_parsed_ok; assumption. }
           exists m'. destruct (Map_add_marker_style mk m) as [Hs1 Hl1].
           split; [exact Hm'|]. split; [congruence|]. split; [congruence|exact Hok'].
        -- exact Hrest.
      * intros Heq. injection Heq as <- <-. apply E1.
    + intros Heq. unfold yaml_error in Heq. injection Heq as <- <-. simpl. discriminate.
Qed.

Lemma from_markers_loop_throw (l : list YamlNode) :
  forall (this : FromYAML) (e : YamlFault),
  from_markers_loop l this = YamlThrow e -> yaml_map_ this <> None -> e = BadConversion.
Proof.
  induction l as [|n l IH]; intros this e; simpl; [discriminate|].
  destruct (IsMap n); [|discriminate].
  destruct (from_marker n this) as [[b1 this1]|e1] eqn:E1; simpl.
  - destruct b1; [|discriminate].
    intros Hrest Hsome. apply (IH _ _ Hrest).
    apply from_marker_inv in E1. destruct E1 as [_ (m & mk & _ & -> & _)]. discriminate.
  - intros Heq Hsome. injection Heq as <-. eapply from_marker_throw; eassumption.
Qed.

Lemma parsed_ok_new (s : MapStyles) (l : double) : parsed_ok (Map_new s l).
Proof. intros k mk. unfold Map_new. simpl. rewrite lookup_empty. discriminate. Qed.

Lemma from_map_inv (yaml_node_ : YamlNode) (this this' : FromYAML) (b : bool) :
  from_map yaml_node_ this = YamlOk (b, this') ->
  if b
  then error_msg_ this' = error_msg_ this /\
       exists m, yaml_map_ this' = Some m /\ parsed_ok m /\
         (IsScalar (node_at_key yaml_node_ "map_style") = false -> map_style m = pose)
  else error_msg_ this' <> ""%string.
Proof.
  unfold from_map.
  destruct (IsMap yaml_node_);
    [|intros Heq; unfold yaml_error in Heq; injection Heq as <- <-; simpl; discriminate].
  set (style_read := if IsScalar (node_at_key yaml_node_ "map_style")
                     then ybind (node_as_int (node_at_key yaml_node_ "map_style"))
                                (fun z => YamlOk (MapStyles_of_int z))
                     else YamlOk pose).
  destruct style_read as [style|e] eqn:Hstyle; simpl; [|discriminate].
  destruct (IsScalar (node_at_key yaml_node_ "marker_length"));
    [|intros Heq; unfold yaml_error in Heq; injection Heq as <- <-; simpl; discriminate].
  destruct (node_as_double (node_at_key yaml_node_ "marker_length")) as [len|e]; simpl;
    [|discriminate].
  destruct (IsSequence (node_at_key yaml_node_ "markers"));
    [|intros Heq; unfold yaml_error in Heq; injection Heq as <- <-; simpl; discriminate].
  unfold from_markers. intros Heq. apply from_markers_loop_inv in Heq.
  destruct b; [|exact Heq].
  destruct Heq as [Hmsg Hmap]. split; [exact Hmsg|].
  destruct (Hmap _ eq_refl (parsed_ok_new style len)) as (m' & Hm' & Hs & _ & Hok).
  exists m'. split; [exact Hm'|]. split; [exact Hok|].
  intros Hno. rewrite Hs. simpl. subst style_read. rewrite Hno in Hstyle. congruence.
Qed.

Lemma from_map_throw (yaml_node_ : YamlNode) (this : FromYAML) (e : YamlFault) :
  from_map yaml_node_ this = YamlThrow e -> e = BadConversion.
Proof.
  unfold from_map.
  destruct (IsMap yaml_node_); [|discriminate].
  destruct (IsScalar (node_at_key yaml_node_ "map_style")).
  - destruct (node_as_int (node_at_key yaml_node_ "map_style")) as [z|e1] eqn:E1; simpl.
    2:{ intros Heq. injection Heq as <-. eapply node_as_int_throw. exact E1. }
    destruct (IsScalar (node_at_key yaml_node_ "marker_length")); [|discriminate].
    destruct (node_as_double (node_at_key yaml_node_ "marker_length")) as [len|e3] eqn:E3; simpl.
    2:{ intros Heq. injection Heq as <-. eapply node_as_double_throw. exact E3. }
    destruct (IsSequence (node_at_key yaml_node_ "markers")); [|discriminate].
    unfold from_markers. intros Heq. eapply from_markers_loop_throw; [exact Heq|].
    simpl. discriminate.
  - simpl.
    destruct (IsScalar (node_at_key yaml_node_ "marker_length")); [|discriminate].
    destruct (node_as_double (node_at_key yaml_node_ "marker_length")) as [len|e3] eqn:E3; simpl.
    2:{ intros Heq. injection Heq as <-. eapply node_as_double_throw. exact E3. }
    destruct (IsSequence (node_at_key yaml_node_ "markers")); [|discriminate].
    unfold from_markers. intros Heq. eapply from_markers_loop_throw; [exact Heq|].
    simpl. discriminate.
Qed.

Lemma from_YAML_inv (node : YamlNode) (map map' : option Map) (msg : string) :
  from_YAML (Loaded node) map = YamlOk (msg, map') ->
  (msg <> ""%string /\ map' = map) \/
  (msg = ""%string /\ exists m, map' = Some m /\ parsed_ok m /\
     (IsScalar (node_at_key node "map_style") = false -> map_style m = pose)).
Proof.
  unfold from_YAML.
  destruct (from_map node _) as [[b this']|e] eqn:E; simpl; [|discriminate].
  apply from_map_inv in E. destruct b.
  - intros Heq. injection Heq as <- <-. right. destruct E as [Hmsg (m & Hm & Hok & Hs)].
    split; [exact Hmsg|]. exists m. split; [exact Hm|]. split; assumption.
  - intros Heq. injection Heq as <- <-. left. split; [exact E|reflexivity].
Qed.

(** X20: [from_YAML_file] either replaces the caller's map or leaves it alone,
    and its message tells which: with a message that is not empty the caller's
    map is the one it was, also when markers had been read before the error;
    with the empty message (and unless the parser failed with an empty
    message) the caller's map has been replaced by a map that is not null. *)
Theorem from_YAML_file_message (filename : string) (file : option YamlDocument)
    (map map' : option Map) (msg : string) :
  from_YAML_file filename file map = YamlOk (msg, map') ->
  (msg <> ""%string -> map' = map) /\
  (msg = ""%string -> file <> Some (ParserException "") -> map' <> None).
Proof.
  unfold from_YAML_file. destruct file as [[what|node]|].
  - simpl. destruct (String.eqb what "") eqn:Hw; simpl.
    + apply String.eqb_eq in Hw. subst what. intros Heq. injection Heq as <- <-.
      split; [congruence|]. intros _ Hne. congruence.
    + intros Heq. injection Heq as <- <-. split; [reflexivity|discriminate].
  - destruct (from_YAML (Loaded node) map) as [[msg0 map0]|e] eqn:E; simpl; [|discriminate].
    apply from_YAML_inv in E. destruct E as [[Hmsg ->]|[-> (m & -> & _)]].
    + apply String.eqb_neq in Hmsg. rewrite Hmsg. simpl.
      intros Heq. injection Heq as <- <-. split; [reflexivity|discriminate].
    + simpl. intros Heq. injection Heq as <- <-. split; [congruence|]. intros _ _. discriminate.
  - intros Heq. injection Heq as <- <-. split; [reflexivity|].
    simpl. discriminate.
Qed.

(** X21: a map that [from_YAML] hands to its caller is well formed: every marker
    is stored under its own id, its pose is valid and has 36 covariance
    entries; in a map of style [pose] every covariance is zero, whatever the
    file has under the key cov; and a file without a scalar map_style gives a
    map of style [pose]. *)
Theorem from_YAML_parsed_map (node : YamlNode) (map : option Map) (m : Map) :
  from_YAML (Loaded node) map = YamlOk (""%string, Some m) ->
  parsed_ok m /\
  (IsScalar (node_at_key node "map_style") = false -> map_style m = pose).
Proof.
  intros Heq. apply from_YAML_inv in Heq.
  destruct Heq as [[Hne _]|[_ (m' & Hm & Hok & Hs)]]; [congruence|].
  injection Hm as <-. split; assumption.
Qed.

(** X22: [map_] is never null where [from_marker] dereferences it, and the cast
    of the map_style does not throw, whatever the number is: what leaves
    [from_YAML] other than by its return is a conversion of yaml-cpp that
    failed, which only a loaded document can cause. *)
Theorem from_YAML_throws (doc : YamlDocument) (map : option Map) (e : YamlFault) :
  from_YAML doc map = YamlThrow e ->
  e = BadConversion /\ exists node, doc = Loaded node.
Proof.
  unfold from_YAML. destruct doc as [what|node]; [discriminate|].
  destruct (from_map node _) as [[b this']|e'] eqn:E; simpl.
  - destruct b; discriminate.
  - intros Heq. injection Heq as <-. split; [|eexists; reflexivity].
    eapply from_map_throw. exact E.
Qed.

(** X23: [from_markers] stops at the first marker that fails: the markers after
    it are not looked at, so that none of them is added and none of them can
    throw; until then the markers are read one after the other. *)
Theorem from_markers_loop_app (l1 l2 : list YamlNode) (this : FromYAML) :
  from_markers_loop (l1 ++ l2) this =
  match from_markers_loop l1 this with
  | YamlOk (true, this') => from_markers_loop l2 this'
  | r => r
  end.
Proof.
  revert this. induction l1 as [|n l1 IH]; intros this; simpl.
  - reflexivity.
  - destruct (IsMap n); [|reflexivity].
    destruct (from_marker n this) as [[b this1]|e]; simpl; [|reflexivity].
    destruct b; [apply IH|reflexivity].
Qed.

(** X24: a marker_length that is a scalar but not a number is not reported by
    a message: [from_YAML] throws, whatever else the file holds. *)
Theorem from_YAML_marker_length_not_a_number (node : YamlNode) (map : option Map)
    (text : YamlScalar) :
  IsMap node = true ->
  node_at_key node "marker_length" = YScalarNode text ->
  as_double text = None ->
  exists e, from_YAML (Loaded node) map = YamlThrow e.
Proof.
  intros Hmap Hlen Hbad. unfold from_YAML, from_map. rewrite Hmap, Hlen. simpl.
  rewrite Hbad.
  destruct (IsScalar (node_at_key node "map_style")).
  - destruct (node_as_int (node_at_key node "map_style")) as [z|e]; simpl;
      eexists; reflexivity.
  - simpl. eexists. reflexivity.
Qed.

End YamlParser.

Section YamlRoundTrip.
Context `{YamlExternal}.

Lemma tokens_run_app (toks1 toks2 : list EmitterToken) :
  forall st, tokens_run (toks1 ++ toks2) st =
             match tokens_run toks1 st with
             | Some st' => tokens_run toks2 st'
             | None => None
             end.
Proof.
  induction toks1 as [|tok toks1 IH]; intros st; simpl; [reflexivity|].
  destruct (token_step tok st); [apply IH|reflexivity].
Qed.

Lemma tokens_run_doubles (l : list double) :
  forall acc fs r,
  tokens_run (map YDouble l) (FSeq acc :: fs, r)
  = Some (FSeq (acc ++ map scalar_of_double l) :: fs, r).
Proof.
  induction l as [|d l IH]; intros acc fs r; simpl.
  - rewrite app_nil_r. reflexivity.
  - rewrite IH, <- app_assoc. reflexivity.
Qed.

Lemma tokens_run_do_marker (map_ : Map) (marker : Marker) acc fs r :
  tokens_run (do_marker map_ marker) (FSeq acc :: fs, r)
  = Some (FSeq (acc ++ [node_of_marker map_ marker]) :: fs, r).
Proof.
  unfold do_marker, node_of_marker.
  destruct (tf2_getRPY _) as [[roll pitch] yaw]. simpl.
  destruct (MapStyles_eqb (map_style map_) pose); simpl.
  - reflexivity.
  - rewrite !tokens_run_app, tokens_run_doubles. simpl. reflexivity.
Qed.

Lemma tokens_run_do_markers (map_ : Map) (l : list (Z * Marker)) :
  forall acc fs r,
  tokens_run (flat_map (fun marker_pair => do_marker map_ (snd marker_pair)) l)
             (FSeq acc :: fs, r)
  = Some (FSeq (acc ++ map (fun marker_pair => node_of_marker map_ (snd marker_pair)) l)
            :: fs, r).
Proof.
  induction l as [|p l IH]; intros acc fs r; simpl.
  - rewrite app_nil_r. reflexivity.
  - rewrite tokens_run_app, tokens_run_do_marker, IH, <- app_assoc. reflexivity.
Qed.

Lemma document_of_do_map (map_ : Map) :
  document_of_tokens (do_map map_) = Some (node_of_map map_).
Proof.
  unfold document_of_tokens, do_map, do_header, do_markers. simpl.
  rewrite !tokens_run_app, tokens_run_do_markers. simpl. reflexivity.
Qed.

Section Reread.
Variable round : double -> double.
Hypothesis as_double_emit_double : forall d, as_double (emit_double d) = Some (round d).
Hypothesis as_int_emit_int : forall z, is_int z -> as_int (emit_int z) = Some z.

Lemma read_doubles_emitted_from (msg : string) (l : list double) :
  forall pre,
  read_doubles (YSequence (map scalar_of_double (pre ++ l))) msg (length pre) (length l)
  = YamlOk (None, map round l).
Proof.
  induction l as [|d l IH]; intros pre; [reflexivity|].
  change (length (d :: l)) with (S (length l)).
  unfold read_doubles; fold read_doubles.
  assert (Hnth : node_at_index (YSequence (map scalar_of_double (pre ++ d :: l))) (length pre)
                 = scalar_of_double d).
  { simpl. rewrite map_app. simpl.
    rewrite <- (length_map scalar_of_double pre). apply nth_middle. }
  rewrite Hnth. simpl. rewrite as_double_emit_double. simpl.
  specialize (IH (pre ++ [d])).
  rewrite <- app_assoc, length_app in IH. simpl in IH.
  replace (length pre + 1)%nat with (S (length pre)) in IH by lia.
  rewrite IH. reflexivity.
Qed.

Lemma read_doubles_emitted (msg : string) (l : list double) :
  read_doubles (YSequence (map scalar_of_double l)) msg 0 (length l)
  = YamlOk (None, map round l).
Proof. exact (read_doubles_emitted_from msg l []). Qed.

Lemma read_doubles_emitted_3 (msg : string) (a b c : double) :
  read_doubles (YSequence [scalar_of_double a; scalar_of_double b; scalar_of_double c]) msg 0 3
  = YamlOk (None, [round a; round b; round c]).
Proof. exact (read_doubles_emitted msg [a; b; c]). Qed.

#[local] Arguments read_doubles : simpl never.

Lemma IsMap_node_of_marker (map_ : Map) (marker : Marker) :
  IsMap (node_of_marker map_ marker) = true.
Proof. unfold node_of_marker. destruct (tf2_getRPY _) as [[? ?] ?]. reflexivity. Qed.

Lemma from_marker_node_of_marker (map_ cur : Map) (marker : Marker) (this : FromYAML) :
  yaml_map_ this = Some cur ->
  map_style cur = map_style map_ ->
  is_int (marker_id marker) ->
  is_int (update_count marker) ->
  length (cov (t_map_marker marker)) = 36%nat ->
  from_marker (node_of_marker map_ marker) this
  = YamlOk (true, mkFromYAML
                    (Some (Map_add_marker (reread_marker round (map_style map_) marker) cur))
                    (error_msg_ this)).
Proof.
  intros Hcur Hstyle Hid Hu Hcov.
  assert (Hf : as_int (emit_int (if is_fixed marker then 1 else 0))
               = Some (if is_fixed marker then 1 else 0)).
  { apply as_int_emit_int. unfold is_int. destruct (is_fixed marker); lia. }
  unfold from_marker, node_of_marker, reread_marker, read_cov.
  destruct (tf2_getRPY _) as [[roll pitch] yaw].
  rewrite Hcur, Hstyle.
  destruct (MapStyles_eqb (map_style map_) pose) eqn:Hs; simpl.
  - rewrite !read_doubles_emitted_3. simpl.
    rewrite (as_int_emit_int _ Hid), Hf, (as_int_emit_int _ Hu). simpl.
    destruct (is_fixed marker); reflexivity.
  - rewrite !read_doubles_emitted_3. simpl.
    rewrite length_map, Hcov. simpl.
    rewrite <- Hcov at 1. rewrite read_doubles_emitted. simpl.
    rewrite (as_int_emit_int _ Hid), Hf, (as_int_emit_int _ Hu). simpl.
    destruct (is_fixed marker); reflexivity.
Qed.

Definition reread_all (style : MapStyles) (l : list (Z * Marker)) (cur : Map) : Map :=
  fold_left (fun c p => Map_add_marker (reread_marker round style (snd p)) c) l cur.

Lemma from_markers_loop_emitted (map_ : Map) (l : list (Z * Marker)) :
  forall (this : FromYAML) (cur : Map),
  yaml_map_ this = Some cur ->
  map_style cur = map_style map_ ->
  (forall p, In p l -> is_int (marker_id (snd p)) /\ is_int (update_count (snd p)) /\
                       length (cov (t_map_marker (snd p))) = 36%nat) ->
  from_markers_loop (map (fun marker_pair => node_of_marker map_ (snd marker_pair)) l) this
  = YamlOk (true, mkFromYAML (Some (reread_all (map_style map_) l cur)) (error_msg_ this)).
Proof.
  induction l as [|p l IH]; intros this cur Hcur Hstyle Hall; simpl.
  - rewrite <- Hcur. destruct this; reflexivity.
  - rewrite IsMap_node_of_marker.
    destruct (Hall p (or_introl eq_refl)) as (Hid & Hu & Hcov).
    rewrite (from_marker_node_of_marker map_ cur (snd p) this Hcur Hstyle Hid Hu Hcov). simpl.
    rewrite (IH _ (Map_add_marker (reread_marker round (map_style map_) (snd p)) cur)).
    + reflexivity.
    + reflexivity.
    + rewrite (proj1 (Map_add_marker_style _ _)). exact Hstyle.
    + intros q Hq. apply Hall. right. exact Hq.
Qed.

Lemma reread_marker_id (style : MapStyles) (marker : Marker) :
  marker_id (reread_marker round style marker) = marker_id marker.
Proof. unfold reread_marker. destruct (tf2_getRPY _) as [[? ?] ?]. reflexivity. Qed.

Lemma reread_all_markers (style : MapStyles) (l : list (Z * Marker)) :
  forall cur,
  NoDup (l.*1) ->
  (forall p, p ∈ l -> marker_id (snd p) = fst p) ->
  (forall k, k ∈ l.*1 -> markers cur !! k = None) ->
  reread_all style l cur
  = set_markers (list_to_map (prod_map id (reread_marker round style) <$> l) ∪ markers cur) cur.
Proof.
  induction l as [|[k mk] l IH]; intros cur Hnd Hids Hfresh.
  - simpl. rewrite (left_id ∅ (∪)). destruct cur; reflexivity.
  - simpl in *. apply NoDup_cons in Hnd. destruct Hnd as [Hk Hnd].
    assert (Hidk : marker_id mk = k) by (apply (Hids (k, mk)); left).
    assert (Hadd : Map_add_marker (reread_marker round style mk) cur
                   = set_markers (<[k := reread_marker round style mk]> (markers cur)) cur).
    { unfold Map_add_marker. rewrite reread_marker_id, Hidk.
      rewrite (Hfresh k) by left. reflexivity. }
    unfold reread_all in *. simpl. rewrite Hadd. rewrite IH.
    + unfold set_markers. simpl. f_equal.
      rewrite <- insert_union_r.
      * rewrite insert_union_l. reflexivity.
      * apply not_elem_of_list_to_map_1.
        rewrite <- list_fmap_compose.
        replace (fst ∘ prod_map id (reread_marker round style)) with (@fst Z Marker); [exact Hk|].
        reflexivity.
    + exact Hnd.
    + intros p Hp. apply Hids. right. exact Hp.
    + intros k' Hk'. simpl. rewrite lookup_insert_ne.
      * apply Hfresh. right. exact Hk'.
      * intros ->. contradiction.
Qed.

Lemma markers_in_order_Permutation (m : Map) :
  markers_in_order m ≡ₚ map_to_list (markers m).
Proof. unfold markers_in_order. apply merge_sort_Permutation. Qed.

Lemma reread_all_in_order (m : Map) :
  (forall k mk, markers m !! k = Some mk -> marker_id mk = k) ->
  reread_all (map_style m) (markers_in_order m) (Map_new (map_style m) (round (marker_length m)))
  = reread_map round m.
Proof.
  intros Hkeys.
  pose proof (markers_in_order_Permutation m) as Hperm.
  assert (Hnd : NoDup ((markers_in_order m).*1)).
  { rewrite Hperm. apply NoDup_fst_map_to_list. }
  rewrite reread_all_markers.
  - unfold reread_map, set_markers, Map_new. simpl. f_equal.
    rewrite (right_id ∅ (∪)).
    rewrite list_to_map_fmap. f_equal.
    rewrite (list_to_map_proper _ _ Hnd Hperm).
    apply list_to_map_to_list.
  - exact Hnd.
  - intros [k mk] Hp. simpl. apply Hkeys.
    rewrite Hperm in Hp. apply elem_of_map_to_list. exact Hp.
  - intros k _. reflexivity.
Qed.

Lemma round_trip (m : Map) (old : option Map) :
  storable m ->
  from_YAML (Loaded (node_of_map m)) old = YamlOk (""%string, Some (reread_map round m)).
Proof.
  intros [[Hstyle_int Hstyle] Hm]. unfold from_YAML, from_map, node_of_map. simpl.
  rewrite (as_int_emit_int _ Hstyle_int).
  simpl. rewrite as_double_emit_double. simpl.
  unfold from_markers. simpl. rewrite Hstyle.
  rewrite (from_markers_loop_emitted m (markers_in_order m)
             (mkFromYAML (Some (Map_new (map_style m) (round (marker_length m)))) "")
             (Map_new (map_style m) (round (marker_length m))) eq_refl eq_refl).
  - simpl. rewrite reread_all_in_order; [reflexivity|].
    intros k mk Hk. apply (Hm k mk Hk).
  - intros [k mk] Hp. simpl.
    assert (Hin : (k, mk) ∈ map_to_list (markers m)).
    { rewrite <- (markers_in_order_Permutation m). apply list_elem_of_In. exact Hp. }
    apply elem_of_map_to_list in Hin. destruct (Hm k mk Hin) as (_ & Hid & Hu & Hc).
    split; [exact Hid|]. split; [exact Hu|exact Hc].
Qed.

End Reread.

(** X25: writing a map and reading it back.  The tokens that [ToYAML] sends to
    the emitter describe a document from which [from_YAML] returns without a
    message and with the map that was written, up to the text of its numbers:
    if a double that is written reads as [round] of it and an [int] reads as
    itself, the map read has the style of the one written, the marker length
    and, for every marker under the same id, the pose and the covariance of
    [reread_marker], the fixed flag and the update count.  In a file of style
    [pose] the covariances are not written and read as zero; a pose that was
    not valid is valid when it is read. *)
Theorem to_YAML_from_YAML (round : double -> double) (m : Map) (old : option Map) :
  (forall d, as_double (emit_double d) = Some (round d)) ->
  (forall z, is_int z -> as_int (emit_int z) = Some z) ->
  storable m ->
  exists node,
    document_of_tokens (do_map m) = Some node /\
    from_YAML (Loaded node) old = YamlOk (""%string, Some (reread_map round m)).
Proof.
  intros Hd Hi Hm. exists (node_of_map m). split.
  - apply document_of_do_map.
  - apply round_trip; assumption.
Qed.

(** X26: the map file holds all of a map whose poses are valid and are what tf2
    makes of their own position, roll, pitch and yaw, and whose covariances are
    zero if its style is [pose]: when the numbers read as they were written,
    reading what was written gives the map itself. *)
Theorem to_YAML_from_YAML_exact (m : Map) (old : option Map) :
  (forall d, as_double (emit_double d) = Some d) ->
  (forall z, is_int z -> as_int (emit_int z) = Some z) ->
  storable m ->
  (forall k mk, markers m !! k = Some mk ->
     is_valid (t_map_marker mk) = true /\
     (let c := getOrigin (transform (t_map_marker mk)) in
      let '(roll, pitch, yaw) := tf2_getRPY (getBasis (transform (t_map_marker mk))) in
      tf2_of_mu [vx c; vy c; vz c; roll; pitch; yaw] = transform (t_map_marker mk)) /\
     (map_style m = pose -> cov (t_map_marker mk) = cov_zero)) ->
  exists node,
    document_of_tokens (do_map m) = Some node /\
    from_YAML (Loaded node) old = YamlOk (""%string, Some m).
Proof.
  intros Hd Hi Hm Hposes. exists (node_of_map m). split.
  - apply document_of_do_map.
  - rewrite (round_trip (fun d => d) Hd Hi m old Hm). do 3 f_equal.
    unfold reread_map. destruct m as [style len ms]. simpl in *. f_equal.
    rewrite <- (map_fmap_id ms) at 2. apply map_fmap_ext.
    intros k mk Hk. destruct (Hposes k mk Hk) as (Hv & Ht & Hc).
    unfold reread_marker. destruct (tf2_getRPY _) as [[roll pitch] yaw].
    destruct mk as [i [v t c] f u]. simpl in *. subst v.
    rewrite Ht. unfold TWC_of_transform_cov. do 2 f_equal.
    destruct (MapStyles_eqb style pose) eqn:Hs.
    + symmetry. apply Hc. destruct style; try discriminate; reflexivity.
    + apply map_id.
Qed.

End YamlRoundTrip.

Lemma from_YAML_file_message_witness :
  from_YAML_file (H := yaml_stand_in) "map.yaml" (Some (Loaded file_bad_marker))
    (Some map_with_marker_0)
  = YamlOk ("Config error: error parsing config file: map.yaml error: marker.id failed IsScalar()"%string,
            Some map_with_marker_0) /\
  (("Config error: error parsing config file: map.yaml error: marker.id failed IsScalar()"%string
    <> ""%string -> Some map_with_marker_0 = Some map_with_marker_0) /\
   ("Config error: error parsing config file: map.yaml error: marker.id failed IsScalar()"%string
    = ""%string ->
    Some (Loaded file_bad_marker) <> Some (ParserException "") ->
    Some map_with_marker_0 <> None)).
Proof.
  split; [vm_compute; reflexivity|].
  apply (from_YAML_file_message (H := yaml_stand_in) "map.yaml" (Some (Loaded file_bad_marker))
           (Some map_with_marker_0)).
  vm_compute. reflexivity.
Defined.

Lemma from_YAML_parsed_map_witness :
  parsed_ok map_pose_marker_0 /\
  (IsScalar (H := yaml_stand_in) (node_at_key file_marker_0 "map_style") = false ->
   map_style map_pose_marker_0 = pose).
Proof.
  apply (from_YAML_parsed_map (H := yaml_stand_in) file_marker_0 None).
  vm_compute. reflexivity.
Defined.

Lemma from_YAML_throws_witness :
  BadConversion = BadConversion /\
  exists node, Loaded (Y := yaml_stand_in) file_bad_length = Loaded node.
Proof.
  apply (from_YAML_throws (H := yaml_stand_in) (Loaded file_bad_length) None).
  vm_compute. reflexivity.
Defined.

Lemma from_YAML_marker_length_not_a_number_witness :
  exists e, from_YAML (H := yaml_stand_in) (Loaded file_bad_length) None = YamlThrow e.
Proof.
  apply (from_YAML_marker_length_not_a_number (H := yaml_stand_in) file_bad_length None
           (TextWord "long")); reflexivity.
Defined.

Lemma yaml_stand_in_as_int (z : Z) :
  is_int z -> as_int (YamlExternal := yaml_stand_in) (emit_int z) = Some z.
Proof.
  unfold is_int. intros Hz. simpl.
  destruct (- 2 ^ 31 <=? z) eqn:H1; [|lia].
  destruct (z <? 2 ^ 31) eqn:H2; [reflexivity|lia].
Qed.

Lemma map_with_marker_0_lookup (k : Z) (mk : Marker) :
  markers map_with_marker_0 !! k = Some mk ->
  k = 0 /\ mk = set_is_fixed true (Marker_new 0 identity_pose).
Proof.
  unfold map_with_marker_0, Map_add_marker, Map_new. simpl.
  rewrite lookup_empty. simpl. intros Hk.
  apply lookup_insert_Some in Hk. destruct Hk as [[<- <-]|[_ Hk]].
  - split; reflexivity.
  - rewrite lookup_empty in Hk. discriminate.
Qed.

Lemma storable_map_with_marker_0 : storable map_with_marker_0.
Proof.
  split; [split; [|reflexivity]|].
  { replace (map_style map_with_marker_0) with covariance by reflexivity.
    unfold is_int. simpl. lia. }
  intros k mk Hk. apply map_with_marker_0_lookup in Hk. destruct Hk as [-> ->].
  unfold is_int. simpl. repeat split; lia.
Qed.

Lemma to_YAML_from_YAML_witness :
  exists node,
    document_of_tokens (H := yaml_stand_in) (do_map (H := yaml_stand_in) map_with_marker_0) = Some node /\
    from_YAML (H := yaml_stand_in) (Loaded node) None
    = YamlOk (""%string, Some (reread_map (H := yaml_stand_in) (fun d => d) map_with_marker_0)).
Proof.
  apply (to_YAML_from_YAML (H := yaml_stand_in) (fun d => d) map_with_marker_0 None).
  - intros d. reflexivity.
  - exact yaml_stand_in_as_int.
  - exact storable_map_with_marker_0.
Defined.

Lemma to_YAML_from_YAML_exact_witness :
  exists node,
    document_of_tokens (H := yaml_stand_in) (do_map (H := yaml_stand_in) map_with_marker_0) = Some node /\
    from_YAML (H := yaml_stand_in) (Loaded node) None = YamlOk (""%string, Some map_with_marker_0).
Proof.
  apply (to_YAML_from_YAML_exact (H := yaml_stand_in) map_with_marker_0 None).
  - intros d. reflexivity.
  - exact yaml_stand_in_as_int.
  - exact storable_map_with_marker_0.
  - intros k mk Hk. apply map_with_marker_0_lookup in Hk. destruct Hk as [-> ->].
    split; [reflexivity|]. split; [reflexivity|]. intros _. reflexivity.
Defined.
